(** * Mission Control v4: the offline mutation pipeline

    A shallow embedding of [offlineQueue.js] (class [OfflineQueue]) and of
    the transport half of [apiClient.js] ([ApiClient._fetch]), followed by
    the properties of the retry queue, of the flush engine and of the
    transport.

    Conventions of the embedding.
    - The IndexedDB object store [mutations] (key path [idempotencyKey],
      index on [enqueuedAt]) is a finite map from keys to records.
    - Everything the code does to the outside (network requests, store
      requests, timers, listener calls) is written to a trace of [Effect]s,
      in program order.
    - The network and the wall clock are oracles indexed by a logical
      tick that advances with every use.
    - A JavaScript string that is only ever tested for truthiness is a
      [string] whose empty value stands for [undefined], [null] and [""].
    - The computation that stands for an [async] function is the call up
      to the settlement of its promise: its result is what the promise is
      fulfilled with, or [Rejected] when the function throws.
    - A call that is made and not awaited ([offlineQueue.enqueue] in the
      [catch] block of [_fetch]) is an effect of its own, [Start]; what the
      started call does happens after the caller has returned (see
      [await] and [deliver]).
    - The URL parser of the platform is an oracle as well:
      [valid_url env path base] tells whether [new URL(path, base)]
      succeeds; it throws a [TypeError] otherwise.
    - The database is assumed to be open and its requests to succeed; the
      rejection paths of IndexedDB are not modelled.
    - A request payload is a value that [JSON.stringify] serialises.
    - [console.log] and [console.warn] are left out. *)

From Stdlib Require Import ZArith.
From stdpp Require Import gmap strings list sorting fin_maps.

Local Open Scope string_scope.
Local Open Scope list_scope.

(** ** Data *)

(** A request payload as the pipeline handles it: whether the JavaScript
    value is truthy, and its JSON text ([JSON.stringify]). *)
Record Payload := mkPayload {
  is_truthy : bool;
  json_text : string
}.

Global Instance Payload_eq_dec : EqDecision Payload.
Proof. solve_decision. Defined.

(** An object (always truthy) with the given JSON text. *)
Definition object (text : string) : option Payload := Some (mkPayload true text).

(** A ledger record: [{idempotencyKey, method, path, body, enqueuedAt,
    retries}].  [body] is the payload ([None] when the caller passed
    none, i.e. [undefined]). *)
Record Mutation := mkMutation {
  idempotencyKey : string;
  method : string;
  path : string;
  body : option Payload;
  enqueuedAt : string;
  retries : Z
}.

Global Instance Mutation_eq_dec : EqDecision Mutation.
Proof. solve_decision. Defined.

(** The value [_fetch] resolves with.  The flags [localOnly] and
    [offline] are absent ([undefined], hence falsy) where the source does
    not set them. *)
Record FetchResult := mkResult {
  ok : bool;
  status : Z;
  data : option string;
  localOnly : bool;
  offline : bool
}.

Global Instance FetchResult_eq_dec : EqDecision FetchResult.
Proof. solve_decision. Defined.

(** How the promise of an [async] function settles: fulfilled with a
    value, or rejected (the function threw). *)
Inductive Settled (A : Type) :=
| Fulfilled (value : A)
| Rejected.
Arguments Fulfilled {A} value.
Arguments Rejected {A}.

Global Instance Settled_eq_dec {A} `{EqDecision A} : EqDecision (Settled A).
Proof. solve_decision. Defined.

(** The third argument of [_fetch]: [{ body, params, idempotencyKey }]. *)
Record FetchOpts := mkOpts {
  opt_body : option Payload;
  opt_params : option (list (string * option string));
  opt_idempotencyKey : string
}.

(** What is handed to the browser's [fetch]. *)
Record Url := mkUrl {
  url_base : string;
  url_path : string;
  url_search : list (string * string)
}.

Record Request := mkRequest {
  req_url : Url;
  req_method : string;
  req_headers : list (string * string);
  req_body : option string
}.

(** How a [fetch] settles: a response (status, content type header, and
    the outcome of [res.json()], [None] when parsing rejects), or a
    rejection. *)
Inductive NetOutcome :=
| Responded (res_status : Z) (content_type : option string) (json : option string)
| NetworkError.

Global Instance Url_eq_dec : EqDecision Url.
Proof. solve_decision. Defined.
Global Instance Request_eq_dec : EqDecision Request.
Proof. solve_decision. Defined.
Global Instance NetOutcome_eq_dec : EqDecision NetOutcome.
Proof. solve_decision. Defined.

(** The environment: the network, the clock ([new Date().toISOString()]),
    the stored bearer token ([getToken()]) and the URL parser
    ([valid_url path base]: [new URL(path, base)] does not throw). *)
Record Env := mkEnv {
  respond : nat → Request → NetOutcome;
  clock : nat → string;
  token : string;
  valid_url : string → string → bool
}.

(** [ApiClient]'s fields. *)
Record ApiClient := mkApi {
  baseUrl : string;
  online : bool
}.

(** The observable effects, in program order. *)
Inductive Effect :=
| Net (req : Request) (out : NetOutcome)   (* fetch(url, opts) settled *)
| GetAll (result : list Mutation)          (* index.getAll() *)
| Put (record : Mutation)                  (* store.put(record) *)
| Delete (key : string)                    (* store.delete(key) *)
| Sleep (ms : Z)                           (* setTimeout(r, ms) *)
| Emit (event : string) (payload : Mutation)  (* _emit(event, data) *)
| Attempt (mutation : Mutation) (result : FetchResult)
    (* the awaited apiClient._fetch of flush resolved with result *)
| Start (mutation : Mutation).
    (* offlineQueue.enqueue(mutation) called and not awaited *)

Global Instance Effect_eq_dec : EqDecision Effect.
Proof. solve_decision. Defined.

(** The mutable state: the object store, [this.flushing], the logical
    tick of the oracles, and the records put by calls of [enqueue] that
    nobody awaits and whose [onsuccess] handler has yet to run. *)
Record World := mkWorld {
  store : gmap string Mutation;
  flushing : bool;
  tick : nat;
  outstanding : list Mutation
}.

Definition set_store (f : gmap string Mutation → gmap string Mutation) (w : World) : World :=
  mkWorld (f (store w)) (flushing w) (tick w) (outstanding w).
Definition set_flushing (b : bool) (w : World) : World :=
  mkWorld (store w) b (tick w) (outstanding w).
Definition advance (w : World) : World :=
  mkWorld (store w) (flushing w) (S (tick w)) (outstanding w).
Definition set_outstanding (l : list Mutation) (w : World) : World :=
  mkWorld (store w) (flushing w) (tick w) l.

Definition init : World := mkWorld ∅ false 0 [].

(** ** The effect monad: state passing plus a trace *)

Definition M (A : Type) : Type := World → A * World * list Effect.

Definition ret {A} (a : A) : M A := λ w, (a, w, []).

Definition bind {A B} (c : M A) (k : A → M B) : M B := λ w,
  match c w with
  | (a, w1, t1) =>
      match k a w1 with
      | (b, w2, t2) => (b, w2, t1 ++ t2)
      end
  end.

Notation "'let*' x ':=' c 'in' k" := (bind c (λ x, k))
  (at level 10, x name, c at level 200, k at level 200).
Notation "c1 '>>' c2" := (bind c1 (λ _, c2))
  (at level 100, c2 at level 200, right associativity).

Definition tell (e : Effect) : M unit := λ w, (tt, w, [e]).
Definition modify (f : World → World) : M unit := λ w, (tt, f w, []).

Definition result_of {A} (r : A * World * list Effect) : A := r.1.1.
Definition world_of {A} (r : A * World * list Effect) : World := r.1.2.
Definition trace_of {A} (r : A * World * list Effect) : list Effect := r.2.

(** ** JavaScript helpers *)

(** Truthiness of a string-or-undefined. *)
Definition truthy (s : string) : bool := negb (String.eqb s "").

(** [String.prototype.includes]. *)
Fixpoint includes (needle s : string) : bool :=
  String.prefix needle s ||
  match s with
  | EmptyString => false
  | String _ s' => includes needle s'
  end.

(** [Response.ok]: the status is in the range 200-299. *)
Definition res_ok (st : Z) : bool := (200 <=? st)%Z && (st <=? 299)%Z.

(** [URLSearchParams.set]: overwrite the first entry for the name and
    drop the others, or append. *)
Fixpoint searchParams_set (k v : string) (q : list (string * string))
    : list (string * string) :=
  match q with
  | [] => [(k, v)]
  | (k', v') :: q' =>
      if String.eqb k' k
      then (k, v) :: filter (λ kv, kv.1 ≠ k) q'
      else (k', v') :: searchParams_set k v q'
  end.

(** [new Date().toISOString()]. *)
Definition now (env : Env) : M string := λ w, (clock env (tick w), advance w, []).

(** The browser's [fetch]. *)
Definition fetch (env : Env) (req : Request) : M NetOutcome := λ w,
  let out := respond env (tick w) req in (out, advance w, [Net req out]).

(** ** offlineQueue.js *)

Definition MAX_RETRIES : Z := 5.
Definition BASE_DELAY_MS : Z := 1000.

(** Order of the [enqueuedAt] index: by index key, then by primary key. *)
Definition index_leb (a b : Mutation) : bool :=
  match String.compare (enqueuedAt a) (enqueuedAt b) with
  | Lt => true
  | Eq => String.leb (idempotencyKey a) (idempotencyKey b)
  | Gt => false
  end.
Definition index_le (a b : Mutation) : Prop := index_leb a b.

Definition index_getAll (s : gmap string Mutation) : list Mutation :=
  merge_sort index_le (map_to_list s).*2.

(** The key path: a record sits under its own [idempotencyKey]. *)
Definition keyed (s : gmap string Mutation) : Prop :=
  map_Forall (λ k m, idempotencyKey m = k) s.

Definition _emit (event : string) (payload : Mutation) : M unit :=
  tell (Emit event payload).

(** Lines 53-59 of [enqueue]: the record spreads the argument, then sets
    [retries: 0] and [enqueuedAt: mutation.enqueuedAt || now]; it is put
    in the store. *)
Definition put_record (env : Env) (mutation : Mutation) : M Mutation :=
  let* at_ := (if truthy (enqueuedAt mutation) then ret (enqueuedAt mutation) else now env) in
  let record :=
    mkMutation (idempotencyKey mutation) (method mutation) (path mutation)
               (body mutation) at_ 0 in
  modify (set_store <[idempotencyKey record := record]>) >>
  tell (Put record) >>
  ret record.

(** Lines 60-63 of [enqueue]: [req.onsuccess]. *)
Definition put_succeeded (record : Mutation) : M Mutation :=
  _emit "enqueued" record >>
  ret record.

(** [enqueue(mutation)], awaited. *)
Definition enqueue (env : Env) (mutation : Mutation) : M Mutation :=
  let* record := put_record env mutation in
  put_succeeded record.

Definition getAll : M (list Mutation) := λ w,
  let r := index_getAll (store w) in (r, w, [GetAll r]).

Definition remove (key : string) : M unit :=
  modify (set_store (delete key)) >>
  tell (Delete key).

Definition count : M nat := λ w, (size (store w), w, []).

(** ** Calls that are not awaited

    [_fetch] calls [enqueue] and returns without awaiting it.  The
    started call runs as [enqueue] does, but later: its continuation is
    queued before the continuation of whoever awaits [_fetch], so its
    [store.put] is issued when that caller resumes; its [onsuccess]
    handler runs when the store request has completed, after the caller's
    job has ended. *)

(** The calls of [enqueue] that a trace shows to have been started. *)
Definition started (t : list Effect) : list Mutation :=
  omap (λ e, match e with Start mutation => Some mutation | _ => None end) t.

(** The started calls reach their [store.put]; the [onsuccess] handlers
    are outstanding. *)
Fixpoint run_started (env : Env) (calls : list Mutation) : M unit :=
  match calls with
  | [] => ret tt
  | mutation :: rest =>
      let* record := put_record env mutation in
      modify (λ w, set_outstanding (outstanding w ++ [record]) w) >>
      run_started env rest
  end.

(** [await c], for a call [c] of an [async] function: the result of [c],
    at the moment the caller resumes. *)
Definition await {A} (env : Env) (c : M A) : M A := λ w,
  match c w with
  | (a, w1, t1) =>
      match run_started env (started t1) w1 with
      | (_, w2, t2) => (a, w2, t1 ++ t2)
      end
  end.

(** The outstanding [onsuccess] handlers run, in the order of their
    requests. *)
Fixpoint run_succeeded (records : list Mutation) : M unit :=
  match records with
  | [] => ret tt
  | record :: rest => put_succeeded record >> run_succeeded rest
  end.

Definition deliver : M unit := λ w,
  match run_succeeded (outstanding w) (set_outstanding [] w) with
  | (_, w', t) => (tt, w', t)
  end.

(** ** apiClient.js *)

Definition isRemote (api : ApiClient) : bool := truthy (baseUrl api).

(** Lines 40-59 of [_fetch]: URL, headers and options of the request. *)
Definition build_url (api : ApiClient) (path : string) (opts : FetchOpts) : Url :=
  let search :=
    match opt_params opts with
    | Some params =>
        foldl (λ q kv, match kv.2 with
                       | Some v => searchParams_set kv.1 v q
                       | None => q
                       end) [] params
    | None => []
    end in
  mkUrl (baseUrl api) path search.

Definition build_headers (env : Env) (opts : FetchOpts) : list (string * string) :=
  [("Content-Type", "application/json")]
  ++ (if truthy (token env) then [("Authorization", "Bearer " +:+ token env)] else [])
  ++ (if truthy (opt_idempotencyKey opts)
      then [("Idempotency-Key", opt_idempotencyKey opts)] else []).

(** [if (body && method !== 'GET') opts.body = JSON.stringify(body)]. *)
Definition build_request (env : Env) (api : ApiClient) (method path : string)
    (opts : FetchOpts) : Request :=
  mkRequest (build_url api path opts) method (build_headers env opts)
    (match opt_body opts with
     | Some b =>
         if is_truthy b && negb (String.eqb method "GET")
         then Some (json_text b) else None
     | None => None
     end).

(** The [catch] block of [_fetch]: [enqueue] is called, with the time of
    the call as [enqueuedAt], and not awaited.  (The object passed has no
    [retries]; [enqueue] sets it.) *)
Definition on_network_error (env : Env) (method path : string) (opts : FetchOpts)
    : M FetchResult :=
  (if negb (String.eqb method "GET") && truthy (opt_idempotencyKey opts)
   then
     let* at_ := now env in
     tell (Start (mkMutation (opt_idempotencyKey opts) method path
                             (opt_body opts) at_ 0))
   else ret tt) >>
  ret (mkResult false 0 None false true).

(** [res.headers.get('content-type')?.includes('json')]. *)
Definition json_typed (content_type : option string) : bool :=
  match content_type with
  | Some c => includes "json" c
  | None => false
  end.

(** [_fetch].  [new URL(path, this.baseUrl)] stands before the [try]:
    when it throws, the promise is rejected and no request is made. *)
Definition _fetch (env : Env) (api : ApiClient) (method path : string)
    (opts : FetchOpts) : M (Settled FetchResult) :=
  if negb (isRemote api) then ret (Fulfilled (mkResult false 0 None true false))
  else if negb (valid_url env path (baseUrl api)) then ret Rejected
  else
    let* out := fetch env (build_request env api method path opts) in
    match out with
    | Responded st ct js =>
        if json_typed ct
        then match js with
             | Some d => ret (Fulfilled (mkResult (res_ok st) st (Some d) false false))
             | None =>
                 let* result := on_network_error env method path opts in
                 ret (Fulfilled result)
             end
        else ret (Fulfilled (mkResult (res_ok st) st None false false))
    | NetworkError =>
        let* result := on_network_error env method path opts in
        ret (Fulfilled result)
    end.

(** ** The flush engine *)

(** How a turn of the [for] loop ends: it goes on to the next one, it
    leaves the loop by [break], or it throws. *)
Inductive Ctl := Continue | Break | Throw.

Definition backoff (r : Z) : Z := (BASE_DELAY_MS * 2 ^ (r - 1))%Z.

Definition sleep (ms : Z) : M unit := tell (Sleep ms).

Definition bump (m : Mutation) : Mutation :=
  mkMutation (idempotencyKey m) (method m) (path m) (body m) (enqueuedAt m)
             (retries m + 1).

(** Lines 138-153: what [flush] does with the result of the attempt. *)
Definition route (env : Env) (mutation : Mutation) (result : FetchResult) : M Ctl :=
  if ok result then
    remove (idempotencyKey mutation) >>
    _emit "flushed" mutation >>
    ret Continue
  else if offline result then
    ret Break
  else if (status result =? 409)%Z then
    remove (idempotencyKey mutation) >>
    _emit "conflict" mutation >>
    ret Continue
  else
    enqueue env (bump mutation) >>
    ret Continue.

(** The body of the [for] loop of [flush]. *)
Definition flush_item (env : Env) (api : ApiClient) (mutation : Mutation) : M Ctl :=
  if (MAX_RETRIES <=? retries mutation)%Z then
    remove (idempotencyKey mutation) >>
    _emit "failed" mutation >>
    ret Continue
  else
    (if (0 <? retries mutation)%Z then sleep (backoff (retries mutation)) else ret tt) >>
    let* settled := await env (_fetch env api (method mutation) (path mutation)
                                 (mkOpts (body mutation) None (idempotencyKey mutation))) in
    match settled with
    | Fulfilled result =>
        tell (Attempt mutation result) >>
        route env mutation result
    | Rejected => ret Throw
    end.

(** The [for] loop; the result tells how it was left: at its end, by
    [break], or by an exception. *)
Fixpoint drain (env : Env) (api : ApiClient) (mutations : list Mutation) : M Ctl :=
  match mutations with
  | [] => ret Continue
  | mutation :: rest =>
      let* c := flush_item env api mutation in
      match c with
      | Continue => drain env api rest
      | Break => ret Break
      | Throw => ret Throw
      end
  end.

(** How [flush] settles after the loop was left with [c]. *)
Definition settled_of (c : Ctl) : Settled unit :=
  match c with
  | Throw => Rejected
  | _ => Fulfilled tt
  end.

(** [flush(apiClient)].  The guard is cleared in the [finally] block,
    also when the loop throws. *)
Definition flush (env : Env) (api : ApiClient) : M (Settled unit) := λ w,
  if flushing w then (Fulfilled tt, w, [])
  else
    (modify (set_flushing true) >>
     let* mutations := getAll in
     match mutations with
     | [] => modify (set_flushing false) >> ret (Fulfilled tt)
     | _ =>
         let* c := drain env api mutations in
         modify (set_flushing false) >>
         ret (settled_of c)
     end) w.

(** [ApiClient._flush]. *)
Definition _flush (env : Env) (api : ApiClient) : M (Settled unit) :=
  if negb (isRemote api) || negb (online api) then ret (Fulfilled tt)
  else flush env api.

(** ** Flush invocations, one suspension at a time

    [flush] is an [async] function: between two of its [await]s other
    callers may run.  A [Session] is where one invocation of [flush]
    stands; [session_step] runs it to the end of the current loop
    iteration.  The guard [this.flushing] is tested and set synchronously
    on entry ([flush_call]), and [getAll] is called at once: its request
    precedes the requests of everything called later, so what it will
    return is the store as it is at the call. *)

Inductive Session :=
| Reading (mutations : list Mutation)  (* guard taken, awaiting getAll() *)
| Draining (rest : list Mutation)      (* guard taken, in the for loop *)
| Finished.                            (* returned, or rejected *)

Definition active (s : Session) : bool :=
  match s with Finished => false | _ => true end.

Definition flush_call : M Session := λ w,
  if flushing w then (Finished, w, [])
  else (Reading (index_getAll (store w)), set_flushing true w, []).

Definition session_step (env : Env) (api : ApiClient) (s : Session) : M Session :=
  match s with
  | Reading mutations =>
      tell (GetAll mutations) >>
      match mutations with
      | [] => modify (set_flushing false) >> ret Finished
      | _ => ret (Draining mutations)
      end
  | Draining [] => modify (set_flushing false) >> ret Finished
  | Draining (mutation :: rest) =>
      let* c := flush_item env api mutation in
      match c with
      | Continue => ret (Draining rest)
      | Break => modify (set_flushing false) >> ret Finished
      | Throw => modify (set_flushing false) >> ret Finished
      end
  | Finished => ret Finished
  end.

Fixpoint session_run (env : Env) (api : ApiClient) (fuel : nat) (s : Session) : M Session :=
  match fuel with
  | O => ret s
  | S fuel' =>
      let* s' := session_step env api s in
      session_run env api fuel' s'
  end.

(** The queue and its callers: the world, and every invocation of
    [flush] made so far with the client it was given.  The callers
    enqueue, remove, call [_fetch] and await it, and call [flush]; an
    invocation of [flush] is resumed; the outstanding [onsuccess]
    handlers run. *)
Record System := mkSystem {
  world : World;
  sessions : list (ApiClient * Session)
}.

Inductive Op :=
| CallEnqueue (mutation : Mutation)
| CallRemove (key : string)
| CallFetch (api : ApiClient) (method path : string) (opts : FetchOpts)
| CallFlush (api : ApiClient)
| Resume (i : nat)
| Deliver.

Definition sys_step (env : Env) (op : Op) (sys : System) : System * list Effect :=
  match op with
  | CallEnqueue mutation =>
      let r := enqueue env mutation (world sys) in
      (mkSystem (world_of r) (sessions sys), trace_of r)
  | CallRemove key =>
      let r := remove key (world sys) in
      (mkSystem (world_of r) (sessions sys), trace_of r)
  | CallFetch api method path opts =>
      let r := await env (_fetch env api method path opts) (world sys) in
      (mkSystem (world_of r) (sessions sys), trace_of r)
  | CallFlush api =>
      let r := flush_call (world sys) in
      (mkSystem (world_of r) (sessions sys ++ [(api, result_of r)]), trace_of r)
  | Resume i =>
      match sessions sys !! i with
      | Some (api, s) =>
          let r := session_step env api s (world sys) in
          (mkSystem (world_of r) (<[i := (api, result_of r)]> (sessions sys)), trace_of r)
      | None => (sys, [])
      end
  | Deliver =>
      let r := deliver (world sys) in
      (mkSystem (world_of r) (sessions sys), trace_of r)
  end.

Inductive sys_reachable : System → Prop :=
| sys_reachable_init : sys_reachable (mkSystem init [])
| sys_reachable_step env op sys :
    sys_reachable sys → sys_reachable (sys_step env op sys).1.

(** The worlds the program can be in. *)
Definition reachable (w : World) : Prop :=
  ∃ ss, sys_reachable (mkSystem w ss).

(** ** Reading traces *)

Definition is_attempt_of (key : string) (e : Effect) : bool :=
  match e with
  | Attempt m _ => String.eqb (idempotencyKey m) key
  | _ => false
  end.

Definition is_net (e : Effect) : bool :=
  match e with Net _ _ => true | _ => false end.

Definition is_sleep (e : Effect) : bool :=
  match e with Sleep _ => true | _ => false end.

Definition is_emit (event : string) (e : Effect) : bool :=
  match e with Emit ev _ => String.eqb ev event | _ => false end.

(** Number of delivery attempts of the mutation [key] in a trace. *)
Fixpoint attempts (key : string) (t : list Effect) : nat :=
  match t with
  | [] => 0
  | e :: t' => (if is_attempt_of key e then 1 else 0) + attempts key t'
  end.

(** [n] successive calls of [flush], each run to completion; the store
    requests left outstanding by a pass complete before [getAll] of the
    next pass does. *)
Fixpoint flush_passes (env : Env) (api : ApiClient) (n : nat) : M unit :=
  match n with
  | O => ret tt
  | S n' => flush env api >> deliver >> flush_passes env api n'
  end.

(** ** Outcomes

    The cases of an awaited [_fetch], of [route] and of [flush_item], as
    relations between the world before and the result, the world after
    and the trace.  The lemmas [_fetch_outcome], [route_cases] and
    [flush_item_outcome] show that the functions fall under them. *)

Definition stamped (env : Env) (m : Mutation) (w : World) : Mutation :=
  mkMutation (idempotencyKey m) (method m) (path m) (body m)
    (if truthy (enqueuedAt m) then enqueuedAt m else clock env (tick w)) 0.

Definition offline_result : FetchResult := mkResult false 0 None false true.
Definition local_result : FetchResult := mkResult false 0 None true false.

(** The settlements that take [_fetch] to its [catch] block: [fetch]
    rejects, or the body of a JSON response does not parse. *)
Definition net_failed (out : NetOutcome) : bool :=
  match out with
  | NetworkError => true
  | Responded _ ct js =>
      json_typed ct && match js with None => true | Some _ => false end
  end.

(** The cases in which the awaited [_fetch] is fulfilled. *)
Inductive fetch_outcome (env : Env) (api : ApiClient) (verb target : string)
    (opts : FetchOpts) (w : World) : FetchResult → World → list Effect → Prop :=
| fo_local :
    isRemote api = false →
    fetch_outcome env api verb target opts w local_result w []
| fo_response st ct js w' :
    isRemote api = true →
    valid_url env target (baseUrl api) = true →
    respond env (tick w) (build_request env api verb target opts) = Responded st ct js →
    net_failed (Responded st ct js) = false →
    store w' = store w → flushing w' = flushing w →
    fetch_outcome env api verb target opts w
      (mkResult (res_ok st) st (if json_typed ct then js else None) false false) w'
      [Net (build_request env api verb target opts) (Responded st ct js)]
| fo_error_dropped w' :
    isRemote api = true →
    valid_url env target (baseUrl api) = true →
    net_failed (respond env (tick w) (build_request env api verb target opts)) = true →
    String.eqb verb "GET" = true ∨ truthy (opt_idempotencyKey opts) = false →
    store w' = store w → flushing w' = flushing w →
    fetch_outcome env api verb target opts w offline_result w'
      [Net (build_request env api verb target opts)
           (respond env (tick w) (build_request env api verb target opts))]
| fo_error_queued at_ record w' :
    isRemote api = true →
    valid_url env target (baseUrl api) = true →
    net_failed (respond env (tick w) (build_request env api verb target opts)) = true →
    String.eqb verb "GET" = false → truthy (opt_idempotencyKey opts) = true →
    idempotencyKey record = opt_idempotencyKey opts →
    method record = verb →
    path record = target →
    body record = opt_body opts →
    retries record = 0%Z →
    store w' = <[opt_idempotencyKey opts := record]> (store w) →
    flushing w' = flushing w →
    fetch_outcome env api verb target opts w offline_result w'
      [Net (build_request env api verb target opts)
           (respond env (tick w) (build_request env api verb target opts));
       Start (mkMutation (opt_idempotencyKey opts) verb target (opt_body opts) at_ 0);
       Put record].

Definition backoff_wait (m : Mutation) : list Effect :=
  if (0 <? retries m)%Z then [Sleep (backoff (retries m))] else [].

Inductive route_outcome (env : Env) (m : Mutation) (res : FetchResult) (w : World)
    : Ctl → World → list Effect → Prop :=
| ro_flushed :
    ok res = true →
    route_outcome env m res w Continue (set_store (delete (idempotencyKey m)) w)
      [Delete (idempotencyKey m); Emit "flushed" m]
| ro_offline :
    ok res = false → offline res = true →
    route_outcome env m res w Break w []
| ro_conflict :
    ok res = false → offline res = false → status res = 409%Z →
    route_outcome env m res w Continue (set_store (delete (idempotencyKey m)) w)
      [Delete (idempotencyKey m); Emit "conflict" m]
| ro_requeue w' :
    ok res = false → offline res = false → status res ≠ 409%Z →
    store w' = <[idempotencyKey m := stamped env (bump m) w]> (store w) →
    flushing w' = flushing w →
    route_outcome env m res w Continue w'
      [Put (stamped env (bump m) w); Emit "enqueued" (stamped env (bump m) w)].

(** The shape of every turn. *)
Inductive item_outcome (env : Env) (api : ApiClient) (m : Mutation) (w : World)
    : Ctl → World → list Effect → Prop :=
| io_discard :
    (MAX_RETRIES ≤ retries m)%Z →
    item_outcome env api m w Continue (set_store (delete (idempotencyKey m)) w)
      [Delete (idempotencyKey m); Emit "failed" m]
| io_attempt res w1 t1 c w2 t2 :
    (retries m < MAX_RETRIES)%Z →
    fetch_outcome env api (method m) (path m)
      (mkOpts (body m) None (idempotencyKey m)) w res w1 t1 →
    route_outcome env m res w1 c w2 t2 →
    item_outcome env api m w c w2 (backoff_wait m ++ t1 ++ Attempt m res :: t2)
| io_thrown :
    (retries m < MAX_RETRIES)%Z →
    isRemote api = true →
    valid_url env (path m) (baseUrl api) = false →
    item_outcome env api m w Throw w (backoff_wait m).

(** The shape of the loop: it ends at the end of the list or at the
    first turn that breaks or throws. *)
Inductive drain_outcome (env : Env) (api : ApiClient)
    : list Mutation → World → Ctl → World → list Effect → Prop :=
| do_nil w :
    drain_outcome env api [] w Continue w []
| do_stop m l w c w1 t1 :
    c ≠ Continue →
    item_outcome env api m w c w1 t1 →
    drain_outcome env api (m :: l) w c w1 t1
| do_continue m l w w1 t1 c w2 t2 :
    item_outcome env api m w Continue w1 t1 →
    drain_outcome env api l w1 c w2 t2 →
    drain_outcome env api (m :: l) w c w2 (t1 ++ t2).

(** A trace prefix after which no timer is pending: it does not end
    with a [Sleep]. *)
Definition quiet_end (t : list Effect) : Prop :=
  match last t with
  | Some (Sleep _) => False
  | _ => True
  end.

(** ** Sample inputs *)

Definition sample_clock (n : nat) : string :=
  "2026-01-01T00:00:" +:+ String (Ascii.ascii_of_nat (48 + n / 10))
    (String (Ascii.ascii_of_nat (48 + n `mod` 10)) ".000Z").

(** A stand-in for the URL parser: it accepts a base that begins with
    [http://] or [https://] and goes on. *)
Definition http_base (path base : string) : bool :=
  (String.prefix "http://" base && (7 <? String.length base)%nat) ||
  (String.prefix "https://" base && (8 <? String.length base)%nat).

(** A backend that settles every request the same way. *)
Definition always (out : NetOutcome) : Env :=
  mkEnv (λ _ _, out) sample_clock "secret" http_base.

Definition server_500 : Env := always (Responded 500 (Some "application/json") (Some "{}")).
Definition server_409 : Env := always (Responded 409 (Some "application/json") (Some "{}")).
Definition server_200 : Env := always (Responded 200 (Some "application/json") (Some "{}")).
Definition unreachable : Env := always NetworkError.

Definition api_remote : ApiClient := mkApi "https://mc.example" true.
Definition api_local : ApiClient := mkApi "" true.
(** A base URL without a scheme: [new URL] throws on it. *)
Definition api_relative : ApiClient := mkApi "mc.example" true.

Definition create_task : Mutation :=
  mkMutation "k1" "POST" "/api/v1/tasks" (object "{title:x}") "" 0.
Definition update_task : Mutation :=
  mkMutation "k2" "PATCH" "/api/v1/tasks/7" (object "{status:done}") "" 0.

(** A record as [enqueue] never writes it: its counter is at the
    ceiling. *)
Definition exhausted : Mutation :=
  mkMutation "k9" "POST" "/api/v1/tasks" (object "{title:y}")
             "2025-12-31T23:59:59.000Z" 5.
(** Likewise, with three failed attempts on record. *)
Definition thrice_failed : Mutation :=
  mkMutation "k8" "POST" "/api/v1/tasks" (object "{title:z}")
             "2025-12-31T23:59:58.000Z" 3.

Definition holding (l : list Mutation) : World :=
  mkWorld (list_to_map ((λ m, (idempotencyKey m, m)) <$> l)) false 0 [].

(** ** Invariants *)

(** What a step may do to the store: every record found afterwards was
    there before or was written with [retries = 0] under its own key. *)
Definition fresh_step (w w' : World) : Prop :=
  ∀ k x, store w' !! k = Some x →
    store w !! k = Some x ∨ (retries x = 0%Z ∧ idempotencyKey x = k).

Definition ledger_inv (w : World) : Prop :=
  keyed (store w) ∧ map_Forall (λ _ x, retries x = 0%Z) (store w).

(** The guard tells whether an invocation is under way. *)
Definition count_active (l : list (ApiClient * Session)) : nat :=
  length (filter (λ s, active s.2 = true) l).

Definition active_sessions (sys : System) : nat := count_active (sessions sys).

Definition guard_inv (sys : System) : Prop :=
  active_sessions sys = if flushing (world sys) then 1 else 0.

(** [enqueue] was called once, with an argument that carries
    [retries = 3]. *)
Definition one_enqueued : System :=
  (sys_step unreachable (CallEnqueue thrice_failed) (mkSystem init [])).1.

(** [create_task] and then [update_task] were enqueued. *)
Definition two_enqueued : System :=
  (sys_step unreachable (CallEnqueue update_task)
     (sys_step unreachable (CallEnqueue create_task) (mkSystem init [])).1).1.

(** [b] is the record [a] after a pass that left it in place: at most
    its [enqueuedAt] and [retries] differ. *)
Definition same_request (a b : Mutation) : Prop :=
  idempotencyKey b = idempotencyKey a ∧ method b = method a ∧
  path b = path a ∧ body b = body a.

(** Two records pending, one invocation of [flush] under way and a
    second one made meanwhile. *)
Definition flush_called_twice : System :=
  (sys_step unreachable (CallFlush api_remote)
     (sys_step unreachable (CallFlush api_remote) two_enqueued).1).1.

(** Number of network requests in a trace. *)
Fixpoint requests (t : list Effect) : nat :=
  match t with
  | [] => 0
  | e :: t' => (if is_net e then 1 else 0) + requests t'
  end.

(** A write that fails on the network. *)
Definition failing_write : M (Settled FetchResult) :=
  _fetch unreachable api_remote "POST" "/api/v1/tasks"
    (mkOpts (object "{title:x}") None "k1").

(** A backend that answers every request with a retryable rejection:
    a response whose status is neither 2xx nor 409. *)
Definition rejecting (env : Env) : Prop :=
  ∀ n req, ∃ st ct js,
    respond env n req = Responded st ct js ∧
    net_failed (Responded st ct js) = false ∧
    res_ok st = false ∧ st ≠ 409%Z.

(** A backend that answers 500 up to tick [n] and 200 afterwards. *)
Definition failing_until (n : nat) : Env :=
  mkEnv (λ k _, if (k <? n)%nat
                then Responded 500 (Some "application/json") (Some "{}")
                else Responded 200 (Some "application/json") (Some "{}"))
        sample_clock "secret" http_base.

(** Every stored path resolves against the client's base URL:
    [new URL(path, baseUrl)] succeeds for each record to replay. *)
Definition replayable (env : Env) (api : ApiClient) (s : gmap string Mutation) : Prop :=
  map_Forall (λ _ m, valid_url env (path m) (baseUrl api) = true) s.

(** ** Proof automation *)

(** Case analysis on a turn of the loop: the ceiling, or one of the
    cases of the transport followed by one of the routes. *)
Ltac item_cases H :=
  let Hf := fresh "Hfetch" in
  let Hr := fresh "Hroute" in
  destruct H as [?|? ? ? ? ? ? ? Hf Hr|? ? ?];
  [|destruct Hf; destruct Hr|]; simpl in *; try discriminate.

(** Rewrite the store of a later world into the store of an earlier one. *)
Ltac store_rw :=
  repeat match goal with
  | H : store ?x = _ |- context [store ?x] => rewrite H
  end.

(** Membership in the trace of a turn, as a disjunction of equations. *)
Ltac in_trace :=
  unfold backoff_wait in *;
  repeat match goal with
  | H : context [if ?b then _ else _] |- _ => destruct b
  | |- context [if ?b then _ else _] => destruct b
  end;
  repeat (rewrite ?elem_of_app, ?elem_of_cons, ?elem_of_nil in *).

(** * The rest of the queue, of the client and of [auth.js] *)

(** ** offlineQueue.js: listeners

    [_listeners] maps an event name to the callbacks registered for it,
    in registration order.  A callback is named by a number; what it does
    when called is outside the queue. *)

(** [on(event, callback)]. *)
Definition on (event : string) (callback : nat) (ls : gmap string (list nat))
    : gmap string (list nat) :=
  <[event := default [] (ls !! event) ++ [callback]]> ls.

(** The calls [_emit(event, data)] makes:
    [(this._listeners.get(event) || []).forEach(cb => cb(data))]. *)
Definition emit_calls (ls : gmap string (list nat)) (event : string) (payload : Mutation)
    : list (nat * Mutation) :=
  (λ cb, (cb, payload)) <$> default [] (ls !! event).

(** The calls made to the listeners along a trace. *)
Fixpoint calls (ls : gmap string (list nat)) (t : list Effect) : list (nat * Mutation) :=
  match t with
  | [] => []
  | Emit event payload :: t' => emit_calls ls event payload ++ calls ls t'
  | _ :: t' => calls ls t'
  end.

(** ** apiClient.js: the resource methods

    Every method is one call of [_fetch], whose promise it returns.
    [generateUUID] draws a random UUID: the key it returns is the
    parameter [uuid] of [api_request].  A body argument is [None] when the
    caller passes [undefined]. *)
Inductive ApiCall :=
| getTasks (filters : list (string * option string))
| getTask (id : string)
| createTask (task : option Payload)
| updateTask (id : string) (changes : option Payload)
| archiveTask (id : string)
| restoreTask (id : string)
| getProjects
| createProject (project : option Payload)
| updateProject (id : string) (changes : option Payload)
| getComments (taskId : string)
| addComment (taskId : string) (comment : option Payload)
| getOutputs (taskId : string)
| addOutput (taskId : string) (output : option Payload)
| getActivity (filters : list (string * option string))
| getAgents
| updateAgent (id : string) (changes : option Payload)
| getSyncStatus.

(** Method, path and options each resource method hands to [_fetch]. *)
Definition api_request (uuid : string) (c : ApiCall) : string * string * FetchOpts :=
  match c with
  | getTasks filters => ("GET", "/api/v1/tasks", mkOpts None (Some filters) "")
  | getTask id => ("GET", "/api/v1/tasks/" +:+ id, mkOpts None None "")
  | createTask task => ("POST", "/api/v1/tasks", mkOpts task None uuid)
  | updateTask id changes => ("PATCH", "/api/v1/tasks/" +:+ id, mkOpts changes None uuid)
  | archiveTask id => ("POST", "/api/v1/tasks/" +:+ id +:+ "/archive", mkOpts None None uuid)
  | restoreTask id => ("POST", "/api/v1/tasks/" +:+ id +:+ "/restore", mkOpts None None uuid)
  | getProjects => ("GET", "/api/v1/projects", mkOpts None None "")
  | createProject project => ("POST", "/api/v1/projects", mkOpts project None uuid)
  | updateProject id changes =>
      ("PATCH", "/api/v1/projects/" +:+ id, mkOpts changes None uuid)
  | getComments taskId =>
      ("GET", "/api/v1/tasks/" +:+ taskId +:+ "/comments", mkOpts None None "")
  | addComment taskId comment =>
      ("POST", "/api/v1/tasks/" +:+ taskId +:+ "/comments", mkOpts comment None uuid)
  | getOutputs taskId =>
      ("GET", "/api/v1/tasks/" +:+ taskId +:+ "/outputs", mkOpts None None "")
  | addOutput taskId output =>
      ("POST", "/api/v1/tasks/" +:+ taskId +:+ "/outputs", mkOpts output None uuid)
  | getActivity filters => ("GET", "/api/v1/activity", mkOpts None (Some filters) "")
  | getAgents => ("GET", "/api/v1/agents", mkOpts None None "")
  | updateAgent id changes =>
      ("PATCH", "/api/v1/agents/" +:+ id, mkOpts changes None uuid)
  | getSyncStatus => ("GET", "/api/v1/sync/status", mkOpts None None "")
  end.

Definition api_call (env : Env) (api : ApiClient) (uuid : string) (c : ApiCall)
    : M (Settled FetchResult) :=
  _fetch env api (api_request uuid c).1.1 (api_request uuid c).1.2 (api_request uuid c).2.

(** The methods that read. *)
Definition is_read (c : ApiCall) : bool :=
  match c with
  | getTasks _ | getTask _ | getProjects | getComments _ | getOutputs _
  | getActivity _ | getAgents | getSyncStatus => true
  | _ => false
  end.

(** ** apiClient.js: the client and its settings

    [localStorage] is a finite map from keys to strings. *)

(** The constructor: [baseUrl] from storage ([|| DEFAULT_BASE]),
    [online] from [navigator.onLine]. *)
Definition new_ApiClient (storage : gmap string string) (onLine : bool) : ApiClient :=
  mkApi (match storage !! "mc4_api_url" with
         | Some url => if truthy url then url else ""
         | None => ""
         end) onLine.

(** [setBaseUrl(url)]. *)
Definition setBaseUrl (url : string) (api : ApiClient) (storage : gmap string string)
    : ApiClient * gmap string string :=
  (mkApi url (online api), <["mc4_api_url" := url]> storage).

(** The handlers of the window events [online] and [offline]. *)
Definition on_online (env : Env) (api : ApiClient) : ApiClient * M (Settled unit) :=
  (mkApi (baseUrl api) true, _flush env (mkApi (baseUrl api) true)).

Definition on_offline (api : ApiClient) : ApiClient := mkApi (baseUrl api) false.

(** ** auth.js *)

Definition TOKEN_KEY : string := "mc4_auth_token".
Definition ROLE_KEY : string := "mc4_auth_role".

Definition getToken (storage : gmap string string) : option string :=
  storage !! TOKEN_KEY.

Definition setToken (t : string) (storage : gmap string string) : gmap string string :=
  <[TOKEN_KEY := t]> storage.

Definition clearToken (storage : gmap string string) : gmap string string :=
  delete ROLE_KEY (delete TOKEN_KEY storage).

(** [!!getToken()]. *)
Definition isAuthenticated (storage : gmap string string) : bool :=
  match getToken storage with
  | Some t => truthy t
  | None => false
  end.

(** [localStorage.getItem(ROLE_KEY) || 'owner']. *)
Definition getRole (storage : gmap string string) : string :=
  match storage !! ROLE_KEY with
  | Some role => if truthy role then role else "owner"
  | None => "owner"
  end.

Definition setRole (role : string) (storage : gmap string string) : gmap string string :=
  <[ROLE_KEY := role]> storage.

Definition isOwner (storage : gmap string string) : bool :=
  String.eqb (getRole storage) "owner".

Definition isAgent (storage : gmap string string) : bool :=
  String.eqb (getRole storage) "agent".

Definition AGENT_BLOCKED_ACTIONS : list string :=
  ["task.markDone"; "task.delete"; "task.editRevenue"; "task.overrideBlocked";
   "project.editFinancials"; "agent.updateConfig"].

Definition AGENT_BLOCKED_FIELDS : list string := ["revenuePotential"; "deletedAt"].

(** [Set.prototype.has] on a set of strings. *)
Definition has (s : list string) (x : string) : bool := bool_decide (x ∈ s).

(** A string field of a task as JavaScript holds it. *)
Inductive JsString := Undefined | Null | Str (s : string).

(** What the permission checks read of a task. *)
Record Task := mkTask {
  assignedTo : JsString;
  isBlocked : bool
}.

(** [a !== b] for a task field and the result of
    [localStorage.getItem]. *)
Definition strict_ne (a : JsString) (b : option string) : bool :=
  match a, b with
  | Str x, Some y => negb (String.eqb x y)
  | Null, None => false
  | _, _ => true
  end.

(** [canPerformAction(action, context)]; [task] is [context.task]. *)
Definition canPerformAction (action : string) (task : option Task)
    (storage : gmap string string) : bool :=
  if isOwner storage then true
  else if has AGENT_BLOCKED_ACTIONS action then false
  else
    match task with
    | Some t =>
        if String.eqb action "task.update"
        then negb (strict_ne (assignedTo t) (storage !! "mc4_agent_name"))
        else true
    | None => true
    end.

Definition canEditField (fieldName : string) (storage : gmap string string) : bool :=
  if isOwner storage then true
  else negb (has AGENT_BLOCKED_FIELDS fieldName).

Definition canTransitionTo (newStatus : string) (task : Task)
    (storage : gmap string string) : bool :=
  if isOwner storage then true
  else if String.eqb newStatus "done" then false
  else if String.eqb newStatus "in_progress" && isBlocked task then false
  else true.

(** The bearer token as [_fetch] reads it: [getToken()], absent as [""]. *)
Definition token_of (storage : gmap string string) : string :=
  default "" (getToken storage).

(** ** Callers in the views *)

(** [String.prototype.trim] on a string given by its UTF-8 bytes.  The
    code points it removes: the white space of ECMAScript (TAB, VT, FF,
    SP, NBSP, ZWNBSP and the category Zs) and the line terminators (LF,
    CR, LS, PS). *)
Definition bytes (l : list nat) : string :=
  foldr (λ n s, String (Ascii.ascii_of_nat n) s) "" l.

Definition white_space : list string :=
  bytes <$> [ [9]; [10]; [11]; [12]; [13]; [32];        (* TAB LF VT FF CR SP *)
              [194; 160];                               (* U+00A0 *)
              [225; 154; 128];                          (* U+1680 *)
              [226; 128; 128]; [226; 128; 129]; [226; 128; 130];
              [226; 128; 131]; [226; 128; 132]; [226; 128; 133];
              [226; 128; 134]; [226; 128; 135]; [226; 128; 136];
              [226; 128; 137]; [226; 128; 138];         (* U+2000 .. U+200A *)
              [226; 128; 168]; [226; 128; 169];         (* U+2028, U+2029 *)
              [226; 128; 175];                          (* U+202F *)
              [226; 129; 159];                          (* U+205F *)
              [227; 128; 128];                          (* U+3000 *)
              [239; 187; 191] ].                        (* U+FEFF *)

Fixpoint drop_bytes (n : nat) (s : string) : string :=
  match n, s with
  | S n', String _ s' => drop_bytes n' s'
  | _, _ => s
  end.

(** Remove the white space at the head of [s]; [spaces] are the byte
    sequences to remove, [fuel] bounds the number of removals. *)
Fixpoint strip (spaces : list string) (fuel : nat) (s : string) : string :=
  match fuel with
  | O => s
  | S fuel' =>
      match List.find (λ sp, String.prefix sp s) spaces with
      | Some sp => strip spaces fuel' (drop_bytes (String.length sp) s)
      | None => s
      end
  end.

Definition trimStart (s : string) : string :=
  strip white_space (String.length s) s.

Definition trimEnd (s : string) : string :=
  String.rev (strip (String.rev <$> white_space) (String.length s) (String.rev s)).

Definition trim (s : string) : string := trimEnd (trimStart s).

(** SettingsView.js, the handler of the button that saves the
    connection: [url], [token] and [role] are the values of the three
    inputs, [""] when the element is missing.  The URL and the token are
    trimmed, the role is taken as it is. *)
Definition save_connection (url tok role : string) (api : ApiClient)
    (storage : gmap string string) : ApiClient * gmap string string :=
  let '(api1, s1) := setBaseUrl (trim url) api storage in
  let s2 := if truthy (trim tok) then setToken (trim tok) s1 else clearToken s1 in
  let s3 := if truthy role then setRole role s2 else s2 in
  (api1, s3).

(** KanbanView.js, [onEnd] of a drag: what happens to the task dropped
    on the column [newStatus] ([None]: no task with that id). *)
Inductive Drop := Ignored | RefusedBlocked | RefusedPermission | Moved.

Definition onEnd (task : option Task) (newStatus : string)
    (storage : gmap string string) : Drop :=
  match task with
  | None => Ignored
  | Some t =>
      if String.eqb newStatus "in_progress" && isBlocked t then RefusedBlocked
      else if negb (canTransitionTo newStatus t storage) then RefusedPermission
      else Moved
  end.

(** ** Reading traces, continued *)

(** Number of network requests in a trace that carry the request [req]. *)
Definition is_net_of (req : Request) (e : Effect) : bool :=
  match e with
  | Net r _ => bool_decide (r = req)
  | _ => false
  end.

Fixpoint requests_of (req : Request) (t : list Effect) : nat :=
  match t with
  | [] => 0
  | e :: t' => (if is_net_of req e then 1 else 0) + requests_of req t'
  end.

(** The events of a trace, in order, as (name, payload). *)
Definition emitted (t : list Effect) : list (string * Mutation) :=
  omap (λ e, match e with Emit event payload => Some (event, payload) | _ => None end) t.

(** The request [flush] sends for a record. *)
Definition replay_request (env : Env) (api : ApiClient) (m : Mutation) : Request :=
  build_request env api (method m) (path m) (mkOpts (body m) None (idempotencyKey m)).

(** A backend that accepts every request. *)
Definition accepting (env : Env) : Prop :=
  ∀ n req, ∃ st ct js,
    respond env n req = Responded st ct js ∧
    net_failed (Responded st ct js) = false ∧
    res_ok st = true.

(** A network on which every request fails. *)
Definition failing (env : Env) : Prop :=
  ∀ n req, net_failed (respond env n req) = true.

(** Whatever the store holds under [k] carries the request of [m]. *)
Definition stable (k : string) (m : Mutation) (s : gmap string Mutation) : Prop :=
  ∀ x, s !! k = Some x → same_request m x.

(** * Properties *)

(** ** The index order *)

Lemma compare_refl s : String.compare s s = Eq.
Proof.
  induction s as [|a s IH]; simpl; [done|].
  unfold Ascii.compare. by rewrite N.compare_refl.
Qed.

Lemma compare_Lt_le a b : String.compare a b = Lt ↔ String.le a b ∧ a ≠ b.
Proof.
  unfold String.le, String.leb. split.
  - intros H. rewrite H. split; [done|]. intros ->. by rewrite compare_refl in H.
  - intros [Hle Hne]. destruct (String.compare a b) eqn:E; [|done|done].
    by apply String.compare_eq_iff in E.
Qed.

Lemma compare_Lt_trans a b c :
  String.compare a b = Lt → String.compare b c = Lt → String.compare a c = Lt.
Proof.
  rewrite !compare_Lt_le. intros [Hab Hne] [Hbc Hne'].
  split; [by etrans|]. intros ->. apply Hne. by apply (anti_symm String.le).
Qed.

Global Instance index_le_dec : RelDecision index_le.
Proof. intros a b. unfold index_le. apply _. Defined.

Global Instance index_le_total : Total index_le.
Proof.
  intros a b. unfold index_le, index_leb.
  rewrite (String.compare_antisym (enqueuedAt b) (enqueuedAt a)).
  destruct (String.compare (enqueuedAt a) (enqueuedAt b)); simpl; auto.
  destruct (String.leb_total (idempotencyKey a) (idempotencyKey b)) as [->| ->]; auto.
Qed.

Global Instance index_le_trans : Transitive index_le.
Proof.
  intros a b c. unfold index_le, index_leb.
  destruct (String.compare (enqueuedAt a) (enqueuedAt b)) eqn:Eab; [| |done].
  - apply String.compare_eq_iff in Eab. rewrite Eab.
    destruct (String.compare (enqueuedAt b) (enqueuedAt c)); [|done..].
    intros H1 H2. by etrans.
  - destruct (String.compare (enqueuedAt b) (enqueuedAt c)) eqn:Ebc; [| |done].
    + apply String.compare_eq_iff in Ebc. rewrite <- Ebc, Eab. done.
    + by rewrite (compare_Lt_trans _ _ _ Eab Ebc).
Qed.

Lemma index_le_earlier a b :
  String.compare (enqueuedAt a) (enqueuedAt b) = Lt → ¬ index_le b a.
Proof.
  intros H. unfold index_le, index_leb.
  rewrite String.compare_antisym, H. simpl. auto.
Qed.

Lemma index_getAll_sorted s : StronglySorted index_le (index_getAll s).
Proof. apply (StronglySorted_merge_sort index_le). Qed.

Lemma index_getAll_perm s : index_getAll s ≡ₚ (map_to_list s).*2.
Proof. apply merge_sort_Permutation. Qed.

Lemma elem_of_index_getAll s m :
  m ∈ index_getAll s ↔ ∃ k, s !! k = Some m.
Proof.
  rewrite index_getAll_perm, list_elem_of_fmap. split.
  - intros [[k m'] [-> H]]. exists k. by apply elem_of_map_to_list in H.
  - intros [k H]. exists (k, m). split; [done|]. by apply elem_of_map_to_list.
Qed.

Lemma index_getAll_keys_NoDup s :
  keyed s → NoDup (idempotencyKey <$> index_getAll s).
Proof.
  intros Hk. rewrite index_getAll_perm.
  assert ((idempotencyKey <$> (map_to_list s).*2) = (map_to_list s).*1) as ->.
  { rewrite <- list_fmap_compose. apply Forall_fmap_ext, Forall_forall.
    intros [k m] H%elem_of_map_to_list. simpl. by apply Hk in H. }
  apply NoDup_fst_map_to_list.
Qed.

(** ** Running the ledger operations *)

Lemma truthy_spec s : truthy s = true ↔ s ≠ "".
Proof.
  unfold truthy. destruct (String.eqb_spec s ""); simpl; split; congruence.
Qed.

Lemma put_record_run env m w :
  put_record env m w =
    (stamped env m w,
     mkWorld (<[idempotencyKey m := stamped env m w]> (store w)) (flushing w)
             (if truthy (enqueuedAt m) then tick w else S (tick w)) (outstanding w),
     [Put (stamped env m w)]).
Proof.
  unfold put_record, stamped, bind, now, ret, modify, tell, set_store, advance.
  destruct (truthy (enqueuedAt m)); reflexivity.
Qed.

Lemma enqueue_run env m w :
  enqueue env m w =
    (stamped env m w,
     mkWorld (<[idempotencyKey m := stamped env m w]> (store w)) (flushing w)
             (if truthy (enqueuedAt m) then tick w else S (tick w)) (outstanding w),
     [Put (stamped env m w); Emit "enqueued" (stamped env m w)]).
Proof.
  unfold enqueue, bind. rewrite put_record_run. reflexivity.
Qed.

Lemma remove_run key w :
  remove key w = (tt, set_store (delete key) w, [Delete key]).
Proof. reflexivity. Qed.

Lemma run_succeeded_run l w :
  run_succeeded l w = (tt, w, (λ r, Emit "enqueued" r) <$> l).
Proof.
  induction l as [|r l IH]; [done|].
  simpl. unfold bind, put_succeeded, _emit, tell, ret, bind. by rewrite IH.
Qed.

Lemma deliver_run w :
  deliver w = (tt, set_outstanding [] w, (λ r, Emit "enqueued" r) <$> outstanding w).
Proof. unfold deliver. by rewrite run_succeeded_run. Qed.

(** Awaiting a call that started nothing is the call. *)
Lemma await_quiet {A} env (c : M A) w :
  started (trace_of (c w)) = [] → await env c w = c w.
Proof.
  unfold await, trace_of. destruct (c w) as [[a w1] t1]. simpl.
  intros ->. simpl. by rewrite app_nil_r.
Qed.

(** Awaiting a call that started one [enqueue]. *)
Lemma await_one {A} env (c : M A) w a w1 pre m :
  c w = (a, w1, pre ++ [Start m]) → started pre = [] →
  await env c w =
    (a,
     mkWorld (<[idempotencyKey m := stamped env m w1]> (store w1)) (flushing w1)
             (if truthy (enqueuedAt m) then tick w1 else S (tick w1))
             (outstanding w1 ++ [stamped env m w1]),
     pre ++ [Start m; Put (stamped env m w1)]).
Proof.
  intros Hc Hpre. unfold await. rewrite Hc.
  unfold started in *. rewrite omap_app, Hpre. simpl.
  unfold bind. rewrite put_record_run. unfold modify, ret, set_outstanding. simpl.
  by rewrite <- app_assoc.
Qed.

(** [_fetch] itself, up to its return: either it starts nothing and
    leaves the store alone, or the request of a keyed write has failed on
    the network and [enqueue] has been called. *)
Lemma on_network_error_run env verb target opts w :
  (let* result := on_network_error env verb target opts in ret (Fulfilled result)) w =
    if negb (String.eqb verb "GET") && truthy (opt_idempotencyKey opts)
    then (Fulfilled offline_result, advance w,
          [Start (mkMutation (opt_idempotencyKey opts) verb target (opt_body opts)
                             (clock env (tick w)) 0)])
    else (Fulfilled offline_result, w, []).
Proof.
  unfold on_network_error.
  by destruct (negb (String.eqb verb "GET") && truthy (opt_idempotencyKey opts)).
Qed.

Lemma _fetch_remote env api verb target opts w :
  isRemote api = true → valid_url env target (baseUrl api) = true →
  _fetch env api verb target opts w =
    let req := build_request env api verb target opts in
    let out := respond env (tick w) req in
    if net_failed out then
      if negb (String.eqb verb "GET") && truthy (opt_idempotencyKey opts)
      then (Fulfilled offline_result, advance (advance w),
            [Net req out;
             Start (mkMutation (opt_idempotencyKey opts) verb target (opt_body opts)
                               (clock env (S (tick w))) 0)])
      else (Fulfilled offline_result, advance w, [Net req out])
    else
      match out with
      | Responded st ct js =>
          (Fulfilled (mkResult (res_ok st) st (if json_typed ct then js else None)
                               false false),
           advance w, [Net req out])
      | NetworkError => (Rejected, w, [])
      end.
Proof.
  intros Hr Hv. unfold _fetch. rewrite Hr, Hv. cbn [negb].
  unfold bind at 1, fetch. cbv zeta.
  destruct (respond env (tick w) (build_request env api verb target opts))
    as [st ct js|] eqn:Hout; simpl.
  - destruct (json_typed ct) eqn:Hct; simpl.
    + destruct js as [d|]; simpl; [reflexivity|].
      rewrite on_network_error_run. simpl.
      by destruct (negb (String.eqb verb "GET") && truthy (opt_idempotencyKey opts)).
    + reflexivity.
  - rewrite on_network_error_run. simpl.
    by destruct (negb (String.eqb verb "GET") && truthy (opt_idempotencyKey opts)).
Qed.

Lemma _fetch_run env api verb target opts w :
  (∃ s w' t,
     _fetch env api verb target opts w = (s, w', t) ∧
     started t = [] ∧ store w' = store w ∧ flushing w' = flushing w ∧
     outstanding w' = outstanding w ∧
     (t = [] ∨
      t = [Net (build_request env api verb target opts)
               (respond env (tick w) (build_request env api verb target opts))])) ∨
  (isRemote api = true ∧ valid_url env target (baseUrl api) = true ∧
   net_failed (respond env (tick w) (build_request env api verb target opts)) = true ∧
   String.eqb verb "GET" = false ∧ truthy (opt_idempotencyKey opts) = true ∧
   _fetch env api verb target opts w =
     (Fulfilled offline_result, advance (advance w),
      [Net (build_request env api verb target opts)
           (respond env (tick w) (build_request env api verb target opts));
       Start (mkMutation (opt_idempotencyKey opts) verb target (opt_body opts)
                         (clock env (S (tick w))) 0)])).
Proof.
  destruct (isRemote api) eqn:Hr.
  2:{ left. unfold _fetch. rewrite Hr. eexists _, _, _. split; [reflexivity|]. auto 10. }
  destruct (valid_url env target (baseUrl api)) eqn:Hv.
  2:{ left. unfold _fetch. rewrite Hr, Hv. eexists _, _, _. split; [reflexivity|]. auto 10. }
  rewrite _fetch_remote by done. cbv zeta.
  destruct (net_failed (respond env (tick w) (build_request env api verb target opts)))
    eqn:Hfail.
  - destruct (negb (String.eqb verb "GET") && truthy (opt_idempotencyKey opts)) eqn:Hq.
    + apply andb_true_iff in Hq as [Hg Hk]. apply negb_true_iff in Hg.
      right. auto 10.
    + left. eexists _, _, _. split; [reflexivity|]. auto 10.
  - left. destruct (respond env (tick w) (build_request env api verb target opts))
      as [st ct js|]; [|done].
    eexists _, _, _. split; [reflexivity|]. auto 10.
Qed.

Lemma _fetch_local env api verb target opts w :
  isRemote api = false →
  _fetch env api verb target opts w = (Fulfilled local_result, w, []).
Proof. intros Hl. unfold _fetch. by rewrite Hl. Qed.

Lemma _fetch_invalid env api verb target opts w :
  isRemote api = true → valid_url env target (baseUrl api) = false →
  _fetch env api verb target opts w = (Rejected, w, []).
Proof. intros Hr Hv. unfold _fetch. by rewrite Hr, Hv. Qed.

(** The awaited [_fetch] of a keyed write whose request fails on the
    network. *)
Lemma await_failed_write env api verb target opts w :
  isRemote api = true → valid_url env target (baseUrl api) = true →
  net_failed (respond env (tick w) (build_request env api verb target opts)) = true →
  verb ≠ "GET" → opt_idempotencyKey opts ≠ "" →
  _fetch env api verb target opts w =
    (Fulfilled offline_result, advance (advance w),
     [Net (build_request env api verb target opts)
          (respond env (tick w) (build_request env api verb target opts));
      Start (mkMutation (opt_idempotencyKey opts) verb target (opt_body opts)
                        (clock env (S (tick w))) 0)]) ∧
  await env (_fetch env api verb target opts) w =
    (Fulfilled offline_result,
     mkWorld (<[opt_idempotencyKey opts :=
                  stamped env (mkMutation (opt_idempotencyKey opts) verb target
                                 (opt_body opts) (clock env (S (tick w))) 0)
                          (advance (advance w))]> (store w))
             (flushing w)
             (if truthy (clock env (S (tick w))) then S (S (tick w)) else S (S (S (tick w))))
             (outstanding w ++
                [stamped env (mkMutation (opt_idempotencyKey opts) verb target
                                (opt_body opts) (clock env (S (tick w))) 0)
                         (advance (advance w))]),
     [Net (build_request env api verb target opts)
          (respond env (tick w) (build_request env api verb target opts));
      Start (mkMutation (opt_idempotencyKey opts) verb target (opt_body opts)
                        (clock env (S (tick w))) 0);
      Put (stamped env (mkMutation (opt_idempotencyKey opts) verb target
                          (opt_body opts) (clock env (S (tick w))) 0)
                   (advance (advance w)))]).
Proof.
  intros Hr Hv Hfail Hg Hk.
  assert (_fetch env api verb target opts w =
    (Fulfilled offline_result, advance (advance w),
     [Net (build_request env api verb target opts)
          (respond env (tick w) (build_request env api verb target opts));
      Start (mkMutation (opt_idempotencyKey opts) verb target (opt_body opts)
                        (clock env (S (tick w))) 0)])) as Heq.
  { rewrite _fetch_remote by done. cbv zeta. rewrite Hfail.
    apply truthy_spec in Hk. rewrite Hk.
    by destruct (String.eqb_spec verb "GET"). }
  split; [exact Heq|].
  rewrite (await_one env _ w _ _ [Net _ _] _ Heq) by done.
  reflexivity.
Qed.

Lemma _fetch_outcome env api verb target opts w :
  match await env (_fetch env api verb target opts) w with
  | (Fulfilled res, w', t) => fetch_outcome env api verb target opts w res w' t
  | (Rejected, w', t) =>
      isRemote api = true ∧ valid_url env target (baseUrl api) = false ∧ w' = w ∧ t = []
  end.
Proof.
  destruct (isRemote api) eqn:Hr.
  2:{ rewrite await_quiet; rewrite _fetch_local by done; [|done]. by constructor. }
  destruct (valid_url env target (baseUrl api)) eqn:Hv.
  2:{ rewrite await_quiet; rewrite _fetch_invalid by done; done. }
  destruct (net_failed (respond env (tick w) (build_request env api verb target opts)))
    eqn:Hfail.
  - destruct (negb (String.eqb verb "GET") && truthy (opt_idempotencyKey opts)) eqn:Hq.
    + apply andb_true_iff in Hq as [Hg Hk]. apply negb_true_iff in Hg.
      destruct (await_failed_write env api verb target opts w) as [_ ->]; try done.
      { intros ->. discriminate. }
      { by apply truthy_spec. }
      by eapply fo_error_queued.
    + rewrite await_quiet; rewrite _fetch_remote by done; cbv zeta; rewrite Hfail, Hq;
        [|done].
      apply fo_error_dropped; try done.
      apply andb_false_iff in Hq as [Hg|Hk]; [left|right]; [|done].
      by apply negb_false_iff in Hg.
  - rewrite await_quiet; rewrite _fetch_remote by done; cbv zeta; rewrite Hfail.
    + destruct (respond env (tick w) (build_request env api verb target opts))
        as [st ct js|] eqn:Hout; [|done].
      by apply fo_response.
    + by destruct (respond env (tick w) (build_request env api verb target opts)).
Qed.

(** ** One turn of the drain loop *)

Lemma route_cases env m res w :
  match route env m res w with
  | (c, w', t) => route_outcome env m res w c w' t
  end.
Proof.
  unfold route. destruct (ok res) eqn:Hok.
  { by apply ro_flushed. }
  destruct (offline res) eqn:Hoff.
  { by apply ro_offline. }
  destruct (Z.eqb_spec (status res) 409) as [Hst|Hst].
  { by apply ro_conflict. }
  unfold bind, ret. rewrite enqueue_run. simpl.
  by apply ro_requeue.
Qed.

Lemma flush_item_discard env api m w :
  (MAX_RETRIES ≤ retries m)%Z →
  flush_item env api m w =
    (Continue, set_store (delete (idempotencyKey m)) w,
     [Delete (idempotencyKey m); Emit "failed" m]).
Proof.
  intros H. unfold flush_item.
  destruct (Z.leb_spec MAX_RETRIES (retries m)); [reflexivity | lia].
Qed.

Lemma flush_item_attempt env api m w :
  (retries m < MAX_RETRIES)%Z →
  flush_item env api m w =
    match await env (_fetch env api (method m) (path m)
                       (mkOpts (body m) None (idempotencyKey m))) w with
    | (Fulfilled res, w1, t1) =>
        match route env m res w1 with
        | (c, w2, t2) => (c, w2, backoff_wait m ++ t1 ++ Attempt m res :: t2)
        end
    | (Rejected, w1, t1) => (Throw, w1, backoff_wait m ++ t1)
    end.
Proof.
  intros H. unfold flush_item, backoff_wait.
  destruct (Z.leb_spec MAX_RETRIES (retries m)); [lia|].
  unfold bind at 1.
  assert (∀ (c : M unit) t0, (∀ w0, c w0 = (tt, w0, t0)) →
    match c w with (a, w1, t1) =>
      match (let* settled := await env (_fetch env api (method m) (path m)
                 (mkOpts (body m) None (idempotencyKey m))) in
             match settled with
             | Fulfilled result => tell (Attempt m result) >> route env m result
             | Rejected => ret Throw
             end) w1 with
      | (b, w2, t2) => (b, w2, t1 ++ t2) end end =
    match await env (_fetch env api (method m) (path m)
                       (mkOpts (body m) None (idempotencyKey m))) w with
    | (Fulfilled res, w1, t1) =>
        match route env m res w1 with
        | (c, w2, t2) => (c, w2, t0 ++ t1 ++ Attempt m res :: t2)
        end
    | (Rejected, w1, t1) => (Throw, w1, t0 ++ t1)
    end) as Hgen.
  { intros c t0 Hc. rewrite Hc. unfold bind at 1.
    destruct (await env _ w) as [[[res|] w1] t1].
    - unfold bind, tell.
      destruct (route env m res w1) as [[c' w2] t2]. simpl.
      reflexivity.
    - unfold ret. by rewrite app_nil_r. }
  destruct (0 <? retries m)%Z; by apply Hgen.
Qed.

Lemma flush_item_outcome env api m w :
  match flush_item env api m w with
  | (c, w', t) => item_outcome env api m w c w' t
  end.
Proof.
  destruct (Z.le_gt_cases MAX_RETRIES (retries m)) as [H|H].
  - rewrite flush_item_discard by done. by constructor.
  - rewrite flush_item_attempt by done.
    pose proof (_fetch_outcome env api (method m) (path m)
                  (mkOpts (body m) None (idempotencyKey m)) w) as Hf.
    destruct (await env _ w) as [[[res|] w1] t1].
    + pose proof (route_cases env m res w1) as Hr.
      destruct (route env m res w1) as [[c w2] t2].
      by econstructor.
    + destruct Hf as (Hr & Hv & -> & ->). rewrite app_nil_r.
      by apply io_thrown.
Qed.

Section one_turn.
Context {env : Env} {api : ApiClient} {m : Mutation} {w : World}.
Context {c : Ctl} {w' : World} {t : list Effect}.
Hypothesis Hitem : item_outcome env api m w c w' t.

Lemma item_flushing : flushing w' = flushing w.
Proof using Hitem. item_cases Hitem; congruence. Qed.

Lemma item_frame k :
  k ≠ idempotencyKey m → store w' !! k = store w !! k.
Proof using Hitem.
  intros Hk. item_cases Hitem;
    store_rw;
    rewrite ?lookup_delete_ne, ?lookup_insert_ne by done; done.
Qed.

Lemma item_fresh k x :
  store w' !! k = Some x →
  store w !! k = Some x ∨ (retries x = 0%Z ∧ idempotencyKey x = k).
Proof using Hitem.
  item_cases Hitem;
    store_rw;
    rewrite ?lookup_delete, ?lookup_insert; intros Hx;
    repeat case_decide; simplify_eq; auto.
Qed.

Lemma item_attempt_own m' r : Attempt m' r ∈ t → m' = m.
Proof using Hitem.
  item_cases Hitem; in_trace; intuition congruence.
Qed.

Lemma item_attempt_made :
  (retries m < MAX_RETRIES)%Z → c ≠ Throw → ∃ r, Attempt m r ∈ t.
Proof using Hitem.
  intros Hlt Hc. item_cases Hitem; [lia|..|done]; in_trace; eexists; in_trace; eauto 10.
Qed.

Lemma item_break :
  c = Break ↔ ∃ r, Attempt m r ∈ t ∧ offline r = true.
Proof using Hitem.
  item_cases Hitem; in_trace; (split; [try done|]);
    try (intros _; eexists; in_trace; split; [eauto 10|done]);
    try (intros (r & Hin & Hoff); in_trace; intuition (simplify_eq; done)).
Qed.
End one_turn.

(** ** The drain loop *)

Lemma drain_cons env api m l w :
  drain env api (m :: l) w =
    match flush_item env api m w with
    | (Continue, w1, t1) =>
        match drain env api l w1 with
        | (c, w2, t2) => (c, w2, t1 ++ t2)
        end
    | (c, w1, t1) => (c, w1, t1)
    end.
Proof.
  simpl. unfold bind. destruct (flush_item env api m w) as [[[] w1] t1]; [done|..];
    unfold ret; by rewrite app_nil_r.
Qed.

Lemma drain_cases env api l w :
  match drain env api l w with
  | (c, w', t) => drain_outcome env api l w c w' t
  end.
Proof.
  revert w. induction l as [|m l IH]; intros w.
  { constructor. }
  rewrite drain_cons.
  pose proof (flush_item_outcome env api m w) as Hi.
  destruct (flush_item env api m w) as [[[] w1] t1].
  - specialize (IH w1). destruct (drain env api l w1) as [[c w2] t2].
    by econstructor.
  - by apply do_stop.
  - by apply do_stop.
Qed.

Lemma attempts_app key t1 t2 :
  attempts key (t1 ++ t2) = attempts key t1 + attempts key t2.
Proof. induction t1 as [|e t1 IH]; simpl; [done|]. rewrite IH. lia. Qed.

Lemma attempts_zero key t :
  attempts key t = 0 ↔ ∀ m r, Attempt m r ∈ t → idempotencyKey m ≠ key.
Proof.
  induction t as [|e t IH]; simpl.
  { split; [|done]. intros _ m r H. by apply elem_of_nil in H. }
  split.
  - intros H m r [<-|Hin]%elem_of_cons.
    + simpl in H. destruct (String.eqb_spec (idempotencyKey m) key); [lia|done].
    + apply (proj1 IH) with r; [|done]. destruct (is_attempt_of key e); lia.
  - intros H. assert (attempts key t = 0) as ->.
    { apply IH. intros m r Hin. apply (H m r). by right. }
    destruct e as [| | | | | |mutation result|]; simpl; try done.
    destruct (String.eqb_spec (idempotencyKey mutation) key) as [Heq|]; [|done].
    exfalso. eapply H; [left|done].
Qed.

Section whole_loop.
Context {env : Env} {api : ApiClient}.

Lemma drain_flushing l w c w' t :
  drain_outcome env api l w c w' t → flushing w' = flushing w.
Proof.
  induction 1 as [|?????? _ Hi|???????? Hi _ IH]; [done|..].
  - apply (item_flushing Hi).
  - rewrite IH. apply (item_flushing Hi).
Qed.

Lemma drain_frame l w c w' t k :
  drain_outcome env api l w c w' t →
  k ∉ idempotencyKey <$> l →
  store w' !! k = store w !! k.
Proof.
  induction 1 as [|?????? _ Hi|???????? Hi _ IH]; [done|..];
    rewrite fmap_cons, not_elem_of_cons; intros [Hk Hl].
  - by apply (item_frame Hi).
  - rewrite IH by done. by apply (item_frame Hi).
Qed.

Lemma drain_fresh l w c w' t k x :
  drain_outcome env api l w c w' t →
  store w' !! k = Some x →
  store w !! k = Some x ∨ (retries x = 0%Z ∧ idempotencyKey x = k).
Proof.
  induction 1 as [|?????? _ Hi|???????? Hi _ IH]; [auto|..]; intros Hx.
  - by apply (item_fresh Hi).
  - destruct (IH Hx) as [Hx'|]; [|auto]. by apply (item_fresh Hi).
Qed.

Lemma drain_attempt_in l w c w' t m r :
  drain_outcome env api l w c w' t → Attempt m r ∈ t → m ∈ l.
Proof.
  induction 1 as [|?????? _ Hi|???????? Hi _ IH].
  - by intros ?%elem_of_nil.
  - intros Hin. apply (item_attempt_own Hi) in Hin as ->. by left.
  - intros [Hin|Hin]%elem_of_app.
    + apply (item_attempt_own Hi) in Hin as ->. by left.
    + right. by apply IH.
Qed.

Lemma drain_app l1 l2 w c w' t :
  drain_outcome env api (l1 ++ l2) w c w' t →
  (c ≠ Continue ∧ drain_outcome env api l1 w c w' t) ∨
  (∃ w1 t1 t2, drain_outcome env api l1 w Continue w1 t1 ∧
     drain_outcome env api l2 w1 c w' t2 ∧ t = t1 ++ t2).
Proof.
  revert w t. induction l1 as [|m l1 IH]; intros w t; simpl.
  { intros H. right. exists w, [], t. split; [constructor|done]. }
  inversion 1 as [|?????? Hc Hi|???????? Hi Hd]; subst.
  - left. split; [done|]. by apply do_stop.
  - destruct (IH _ _ Hd) as [[Hc Hb]|(w3 & t3 & t4 & H1 & H2 & ->)].
    + left. split; [done|]. by econstructor.
    + right. exists w3, (t1 ++ t3), t4. split; [by econstructor|].
      split; [done|]. by rewrite app_assoc.
Qed.
End whole_loop.

Lemma flush_idle env api w :
  flushing w = false →
  flush env api w =
    match drain env api (index_getAll (store w)) (set_flushing true w) with
    | (c, w', t) =>
        (settled_of c, set_flushing false w', GetAll (index_getAll (store w)) :: t)
    end.
Proof.
  intros Hf. unfold flush. rewrite Hf. unfold bind, modify, getAll, ret. simpl.
  destruct (index_getAll (store w)) as [|m l] eqn:Hl; [reflexivity|].
  destruct (drain env api (m :: l) (set_flushing true w)) as [[c w'] t].
  by rewrite !app_nil_r.
Qed.

Lemma flush_busy env api w :
  flushing w = true → flush env api w = (Fulfilled tt, w, []).
Proof. intros Hf. unfold flush. by rewrite Hf. Qed.

(** ** What a turn leaves in the trace *)

Lemma res_ok_409 : res_ok 409 = false.
Proof. reflexivity. Qed.

Lemma requests_app t1 t2 : requests (t1 ++ t2) = requests t1 + requests t2.
Proof. induction t1 as [|e t1 IH]; simpl; [done|]. rewrite IH. lia. Qed.

Lemma requests_of_app req t1 t2 :
  requests_of req (t1 ++ t2) = requests_of req t1 + requests_of req t2.
Proof. induction t1 as [|e t1 IH]; simpl; [done|]. rewrite IH. lia. Qed.

Lemma requests_of_zero req t :
  requests_of req t = 0 ↔ ∀ out, Net req out ∉ t.
Proof.
  induction t as [|e t IH]; simpl.
  { split; [|done]. intros _ out H. by apply elem_of_nil in H. }
  split.
  - intros H out [<-|Hin]%elem_of_cons.
    + simpl in H. rewrite bool_decide_true in H by done. lia.
    + apply (proj1 IH) with out; [|done]. destruct (is_net_of req e); lia.
  - intros H. assert (requests_of req t = 0) as ->.
    { apply IH. intros out Hin. apply (H out). by right. }
    destruct e as [r out| | | | | | |]; simpl; try done.
    destruct (decide (r = req)) as [->|Hne].
    + exfalso. apply (H out). by left.
    + by rewrite bool_decide_false.
Qed.

Lemma requests_of_pos req t :
  requests_of req t ≠ 0 → ∃ out, Net req out ∈ t.
Proof.
  induction t as [|e t IH]; simpl; [done|].
  destruct e as [r out| | | | | | |]; simpl;
    try (intros H; destruct (IH H) as [o Ho]; exists o; by right).
  destruct (decide (r = req)) as [->|Hne].
  - intros _. exists out. by left.
  - rewrite bool_decide_false by done. simpl.
    intros H; destruct (IH H) as [o Ho]; exists o; by right.
Qed.

Lemma requests_of_le req t : (requests_of req t ≤ requests t)%nat.
Proof.
  induction t as [|e t IH]; simpl; [done|].
  destruct e; simpl; try lia. destruct (bool_decide (req0 = req)); lia.
Qed.

Lemma backoff_wait_requests m : requests (backoff_wait m) = 0.
Proof. unfold backoff_wait. by destruct (0 <? retries m)%Z. Qed.

(** The request of a record tells its key. *)
Lemma replay_request_key env api a b :
  replay_request env api a = replay_request env api b →
  idempotencyKey a = idempotencyKey b.
Proof.
  unfold replay_request, build_request, build_headers. simpl.
  intros [= _ _ H _]. apply app_inv_head in H.
  destruct (truthy (idempotencyKey a)) eqn:Ha, (truthy (idempotencyKey b)) eqn:Hb;
    simplify_eq; [done|].
  unfold truthy in *. apply negb_false_iff in Ha, Hb.
  destruct (String.eqb_spec (idempotencyKey a) ""), (String.eqb_spec (idempotencyKey b) "");
    congruence.
Qed.

Section one_turn_trace.
Context {env : Env} {api : ApiClient} {m : Mutation} {w : World}.
Context {c : Ctl} {w' : World} {t : list Effect}.
Hypothesis Hitem : item_outcome env api m w c w' t.

Lemma item_emit_own ev x :
  Emit ev x ∈ t → ev ≠ "enqueued" → x = m.
Proof using Hitem.
  intros Hin Hev. item_cases Hitem; in_trace; intuition congruence.
Qed.

Lemma item_attempts_other k :
  k ≠ idempotencyKey m → attempts k t = 0.
Proof using Hitem.
  intros Hk. apply attempts_zero. intros m' r Hin.
  apply (item_attempt_own Hitem) in Hin as ->. done.
Qed.

Lemma item_requests : (requests t ≤ 1)%nat.
Proof using Hitem.
  item_cases Hitem; rewrite ?requests_app, ?backoff_wait_requests; simpl; lia.
Qed.

Lemma item_net req out : Net req out ∈ t → req = replay_request env api m.
Proof using Hitem.
  item_cases Hitem; in_trace; intuition (simplify_eq; done).
Qed.

Lemma item_quiet : c = Continue → t ≠ [] ∧ quiet_end t.
Proof using Hitem.
  unfold quiet_end.
  item_cases Hitem; intros Hc; try discriminate Hc; (split; [by destruct (backoff_wait m)|]);
    rewrite ?app_assoc, ?last_app; try done;
    rewrite (app_comm_cons _ _ (Attempt _ _)), ?last_app; done.
Qed.

(** The trace of a turn that made an attempt: the wait, then what the
    transport did (with a backend: the request first), then the result. *)
Lemma item_wait_shape r :
  Attempt m r ∈ t →
  ∃ send post, t = backoff_wait m ++ send ++ Attempt m r :: post ∧
    Forall (λ e, is_sleep e = false) send ∧ attempts (idempotencyKey m) send = 0 ∧
    (isRemote api = true →
       ∃ out tail, send = Net (replay_request env api m) out :: tail ∧
                   Forall (λ e, is_net e = false) tail) ∧
    (isRemote api = false → send = []).
Proof using Hitem.
  intros Hin. destruct Hitem as [?|res w1 t1 c0 w2 t2 ? Hf Hr|? ? ?].
  { in_trace; intuition congruence. }
  2:{ in_trace; intuition congruence. }
  assert (r = res) as ->.
  { destruct Hf; destruct Hr; in_trace; intuition congruence. }
  exists t1, t2. split; [done|].
  destruct Hf; (split; [repeat constructor|]); (split; [done|]);
    (split; [|congruence]); intros Hrem; try congruence;
    eexists _, _; (split; [reflexivity|]); repeat constructor.
Qed.

Lemma item_conflict r :
  Attempt m r ∈ t → status r = 409%Z →
  c = Continue ∧ store w' !! idempotencyKey m = None ∧
  ∃ pre, t = pre ++ [Attempt m r; Delete (idempotencyKey m); Emit "conflict" m] ∧
    attempts (idempotencyKey m) pre = 0 ∧ Emit "conflict" m ∉ pre.
Proof using Hitem.
  intros Hin Hst. destruct Hitem as [?|res w1 t1 c0 w2 t2 ? Hf Hr|? ? ?].
  { in_trace; intuition congruence. }
  2:{ in_trace; intuition congruence. }
  assert (r = res) as ->.
  { destruct Hf; destruct Hr; in_trace; intuition congruence. }
  destruct Hf; simpl in Hst; try discriminate. subst st.
  destruct Hr as [Hok| |_ _ _|]; simpl in *; try done.
  split; [done|]. split.
  { by rewrite lookup_delete_eq. }
  eexists (backoff_wait m ++ [_]). split.
  { by rewrite <- app_assoc. }
  unfold backoff_wait. destruct (0 <? retries m)%Z; simpl; split; try done;
    rewrite ?elem_of_cons, elem_of_nil; intuition congruence.
Qed.

Lemma item_attempts_self :
  (retries m < MAX_RETRIES)%Z → c ≠ Throw → attempts (idempotencyKey m) t = 1.
Proof using Hitem.
  intros Hlt Hc. destruct Hitem as [?|res w1 t1 c0 w2 t2 ? Hf Hr|? ? ?]; [lia| |done].
  rewrite !attempts_app. simpl. rewrite String.eqb_refl.
  assert (attempts (idempotencyKey m) (backoff_wait m) = 0) as ->.
  { unfold backoff_wait. by destruct (0 <? retries m)%Z. }
  destruct Hf; destruct Hr; simpl; lia.
Qed.
End one_turn_trace.

Lemma drain_requests env api l w c w' t :
  drain_outcome env api l w c w' t → (requests t ≤ length l)%nat.
Proof.
  induction 1 as [|?????? _ Hi|???????? Hi _ IH]; simpl.
  - lia.
  - pose proof (item_requests Hi). lia.
  - rewrite requests_app. pose proof (item_requests Hi). lia.
Qed.

Lemma drain_net env api l w c w' t req out :
  drain_outcome env api l w c w' t → Net req out ∈ t →
  ∃ m, m ∈ l ∧ req = replay_request env api m.
Proof.
  induction 1 as [|m0 ????? _ Hi|m0 ??????? Hi _ IH].
  - by intros ?%elem_of_nil.
  - intros Hin. exists m0. split; [by left|]. by apply (item_net Hi _ out).
  - intros [Hin|Hin]%elem_of_app.
    + exists m0. split; [by left|]. by apply (item_net Hi _ out).
    + destruct (IH Hin) as (m & Hm & ->). exists m. split; [by right|done].
Qed.

(** No request is sent twice in the loop. *)
Lemma drain_requests_of env api l w c w' t req :
  drain_outcome env api l w c w' t →
  NoDup (idempotencyKey <$> l) →
  (requests_of req t ≤ 1)%nat.
Proof.
  induction 1 as [|m0 l w c w1 t1 _ Hi|m0 l w w1 t1 c w2 t2 Hi Hd IH]; intros Hnd.
  - simpl. lia.
  - pose proof (requests_of_le req t1). pose proof (item_requests Hi). lia.
  - rewrite fmap_cons in Hnd. apply NoDup_cons in Hnd as [Hk0 Hnd].
    specialize (IH Hnd). rewrite requests_of_app.
    destruct (requests_of req t1) as [|n] eqn:H1; [lia|].
    assert (requests_of req t2 = 0) as ->.
    { apply requests_of_zero. intros out Hin.
      destruct (drain_net _ _ _ _ _ _ _ _ _ Hd Hin) as (m & Hm & ->).
      assert (∃ out0, Net (replay_request env api m) out0 ∈ t1) as [out0 Hin0].
      { apply requests_of_pos. lia. }
      apply (item_net Hi) in Hin0. apply replay_request_key in Hin0.
      apply Hk0. rewrite <- Hin0. by apply list_elem_of_fmap_2. }
    pose proof (requests_of_le req t1). pose proof (item_requests Hi). lia.
Qed.

(** ** The retry ceiling (step 1 of the loop) *)

(** C8, as stated, at a sample input: the record [exhausted] has
    [retries = MAX_RETRIES]; the pass removes it and makes no attempt, but
    the event it emits is named [failed]: no [discarded] event is
    emitted. *)
Lemma discarded_event_counterexample :
  (MAX_RETRIES ≤ retries exhausted)%Z ∧
  trace_of (flush server_500 api_remote (holding [exhausted])) =
    [GetAll [exhausted]; Delete "k9"; Emit "failed" exhausted] ∧
  ¬ Emit "discarded" exhausted ∈
      trace_of (flush server_500 api_remote (holding [exhausted])).
Proof.
  assert (trace_of (flush server_500 api_remote (holding [exhausted])) =
    [GetAll [exhausted]; Delete "k9"; Emit "failed" exhausted]) as Ht.
  { vm_compute. reflexivity. }
  split; [done|]. split; [done|].
  rewrite Ht, !elem_of_cons, elem_of_nil. intros [|[|[|[]]]]; discriminate.
Qed.

(** C8, amended: a mutation whose turn starts with
    [retries >= MAX_RETRIES] is deleted from the store, a [failed] event
    carrying it is emitted, and the loop goes on with the next mutation:
    its turn consists of these two effects only, so no request is sent and
    no attempt is made for it. *)
Theorem exhausted_is_dropped env api m rest w :
  (MAX_RETRIES ≤ retries m)%Z →
  drain env api (m :: rest) w =
    (let w1 := set_store (delete (idempotencyKey m)) w in
     (result_of (drain env api rest w1), world_of (drain env api rest w1),
      Delete (idempotencyKey m) :: Emit "failed" m :: trace_of (drain env api rest w1)))
  ∧ store (set_store (delete (idempotencyKey m)) w) !! idempotencyKey m = None.
Proof.
  intros Hmax. split.
  - rewrite drain_cons, flush_item_discard by done. simpl.
    by destruct (drain env api rest _) as [[c w2] t2].
  - simpl. apply lookup_delete_eq.
Qed.

Lemma exhausted_is_dropped_witness :
  drain server_500 api_remote [exhausted] (holding [exhausted]) =
    (Continue, set_store (delete "k9") (holding [exhausted]),
     [Delete "k9"; Emit "failed" exhausted]).
Proof.
  pose proof (exhausted_is_dropped server_500 api_remote exhausted []
                (holding [exhausted])) as [H _].
  { vm_compute. discriminate. }
  exact H.
Defined.

(** ** Backoff (step 2 of the loop) *)

Lemma quiet_end_app t1 t2 : quiet_end t1 → quiet_end t2 → quiet_end (t1 ++ t2).
Proof. unfold quiet_end. rewrite last_app. by destruct (last t2). Qed.

Lemma drain_wait_shape env api l w c w' t m r :
  drain_outcome env api l w c w' t →
  Attempt m r ∈ t →
  ∃ pre send post, t = pre ++ backoff_wait m ++ send ++ Attempt m r :: post ∧
    quiet_end pre ∧ Forall (λ e, is_sleep e = false) send ∧
    (isRemote api = true →
       ∃ out tail, send = Net (replay_request env api m) out :: tail ∧
                   Forall (λ e, is_net e = false) tail) ∧
    (isRemote api = false → send = []).
Proof.
  induction 1 as [|m0 l w c w1 t1 _ Hi|m0 l w w1 t1 c w2 t2 Hi _ IH].
  - by intros ?%elem_of_nil.
  - intros Hin. pose proof (item_attempt_own Hi _ _ Hin) as ->.
    destruct (item_wait_shape Hi _ Hin) as (send & post & -> & Hs & _ & Hn & Hl).
    by exists [], send, post.
  - intros [Hin|Hin]%elem_of_app.
    + pose proof (item_attempt_own Hi _ _ Hin) as ->.
      destruct (item_wait_shape Hi _ Hin) as (send & post & -> & Hs & _ & Hn & Hl).
      exists [], send, (post ++ t2). split; [|done].
      simpl. by rewrite <- !app_assoc.
    + destruct (IH Hin) as (pre & send & post & -> & Hq & Hs & Hn & Hl).
      exists (t1 ++ pre), send, post. split; [by rewrite <- app_assoc|].
      split; [|done]. apply quiet_end_app; [|done]. by apply (item_quiet Hi).
Qed.

Lemma flush_requests_of env api w req :
  keyed (store w) → (requests_of req (trace_of (flush env api w)) ≤ 1)%nat.
Proof.
  intros Hk. destruct (flushing w) eqn:Hf.
  { rewrite flush_busy by done. simpl. lia. }
  rewrite flush_idle by done.
  pose proof (drain_cases env api (index_getAll (store w)) (set_flushing true w)) as Hd.
  destruct (drain env api _ _) as [[c w'] t]. unfold trace_of. simpl.
  apply (drain_requests_of _ _ _ _ _ _ _ req Hd).
  by apply index_getAll_keys_NoDup.
Qed.

(** C6: in every pass, the attempt for a mutation with [retries = r] is
    preceded by the effects of its own transport call, which set no timer
    and, when a backend is configured, begin with the request of the
    mutation; and these are preceded by exactly one timer of
    [BASE_DELAY_MS * 2^(r-1)] ms when [r > 0] and by no timer when
    [r = 0].  So the wait comes before the request is sent; from a store
    whose records sit under their keys, that request is the only one sent
    for the mutation in the pass.  What comes before the wait belongs to
    earlier turns and does not end with a timer.  [BASE_DELAY_MS] is
    1000. *)
Theorem backoff_before_attempt env api w m r :
  Attempt m r ∈ trace_of (flush env api w) →
  ∃ pre wait send post,
    trace_of (flush env api w) = pre ++ wait ++ send ++ Attempt m r :: post ∧
    quiet_end pre ∧ Forall (λ e, is_sleep e = false) send ∧
    ((0 < retries m)%Z → wait = [Sleep (BASE_DELAY_MS * 2 ^ (retries m - 1))]) ∧
    (retries m = 0%Z → wait = []) ∧
    BASE_DELAY_MS = 1000%Z ∧
    (isRemote api = true →
       ∃ out tail, send = Net (replay_request env api m) out :: tail ∧
         Forall (λ e, is_net e = false) tail ∧
         (keyed (store w) →
            requests_of (replay_request env api m) (trace_of (flush env api w)) = 1)) ∧
    (isRemote api = false → send = []).
Proof.
  intros Hin.
  assert (∃ pre send post,
    trace_of (flush env api w) = pre ++ backoff_wait m ++ send ++ Attempt m r :: post ∧
    quiet_end pre ∧ Forall (λ e, is_sleep e = false) send ∧
    (isRemote api = true →
       ∃ out tail, send = Net (replay_request env api m) out :: tail ∧
                   Forall (λ e, is_net e = false) tail) ∧
    (isRemote api = false → send = [])) as (pre & send & post & Ht & Hq & Hs & Hn & Hl).
  { revert Hin. destruct (flushing w) eqn:Hf.
    { rewrite flush_busy by done. by intros ?%elem_of_nil. }
    rewrite flush_idle by done.
    pose proof (drain_cases env api (index_getAll (store w)) (set_flushing true w)) as Hd.
    destruct (drain env api _ _) as [[c w'] t]. unfold trace_of. simpl.
    intros [?|Hin]%elem_of_cons; [done|].
    destruct (drain_wait_shape _ _ _ _ _ _ _ _ _ Hd Hin)
      as (pre & send & post & -> & Hq & Hs & Hn & Hl).
    exists (GetAll (index_getAll (store w)) :: pre), send, post.
    split; [done|]. split; [by apply (quiet_end_app [_])|]. done. }
  exists pre, (backoff_wait m), send, post.
  split; [done|]. split; [done|]. split; [done|].
  unfold backoff_wait, backoff. split; [|split; [|split; [done|split; [|done]]]].
  - intros Hr. by destruct (Z.ltb_spec 0 (retries m)); [|lia].
  - by intros ->.
  - intros Hrem. destruct (Hn Hrem) as (out & tail & -> & Htail).
    exists out, tail. split; [done|]. split; [done|].
    intros Hk. pose proof (flush_requests_of env api w (replay_request env api m) Hk) as Hle.
    rewrite Ht in Hle |- *. rewrite !requests_of_app in Hle |- *. simpl in Hle |- *.
    rewrite bool_decide_true in Hle |- * by done. lia.
Qed.

Lemma backoff_before_attempt_witness :
  ∃ pre out tail post,
    trace_of (flush server_500 api_remote (holding [thrice_failed])) =
      pre ++ [Sleep 4000] ++
      (Net (replay_request server_500 api_remote thrice_failed) out :: tail) ++
      Attempt thrice_failed (mkResult false 500 (Some "{}") false false) :: post.
Proof.
  destruct (backoff_before_attempt server_500 api_remote (holding [thrice_failed])
              thrice_failed (mkResult false 500 (Some "{}") false false))
    as (pre & wait & send & post & Ht & _ & _ & Hw & _ & _ & Hn & _).
  { apply (bool_decide_unpack _). vm_compute. exact I. }
  rewrite Hw in Ht by (vm_compute; reflexivity).
  destruct Hn as (out & tail & Hsend & _); [reflexivity|].
  rewrite Hsend in Ht.
  by exists pre, out, tail, post.
Defined.

(** ** Conflicts (409) *)

Lemma drain_emit_own env api l w c w' t ev x :
  drain_outcome env api l w c w' t →
  Emit ev x ∈ t → ev ≠ "enqueued" → x ∈ l.
Proof.
  induction 1 as [|?????? Hstop Hi|???????? Hi _ IH]; intros Hin Hev.
  - by apply elem_of_nil in Hin.
  - rewrite (item_emit_own Hi ev x) by done. by left.
  - apply elem_of_app in Hin as [Hin|Hin].
    + rewrite (item_emit_own Hi ev x) by done. by left.
    + right. by apply IH.
Qed.

Lemma drain_attempts_zero env api l w c w' t k :
  drain_outcome env api l w c w' t →
  k ∉ idempotencyKey <$> l → attempts k t = 0.
Proof.
  intros Hd Hk. apply attempts_zero. intros m r Hin Heq. subst k.
  apply Hk, list_elem_of_fmap_2.
  by apply (drain_attempt_in _ _ _ _ _ _ _ Hd Hin).
Qed.

Lemma drain_conflict env api l w c w' t m r :
  drain_outcome env api l w c w' t →
  NoDup (idempotencyKey <$> l) →
  Attempt m r ∈ t → status r = 409%Z →
  store w' !! idempotencyKey m = None ∧
  ∃ pre post,
    t = pre ++ [Attempt m r; Delete (idempotencyKey m); Emit "conflict" m] ++ post ∧
    attempts (idempotencyKey m) pre = 0 ∧ attempts (idempotencyKey m) post = 0 ∧
    (Emit "conflict" m ∉ pre) ∧ (Emit "conflict" m ∉ post).
Proof.
  induction 1 as [|m0 l w c w1 t1 Hstop Hi|m0 l w w1 t1 c w2 t2 Hi Hd IH];
    intros Hnd Hin Hst.
  - by apply elem_of_nil in Hin.
  - pose proof (item_attempt_own Hi _ _ Hin) as ->.
    by destruct (item_conflict Hi _ Hin Hst) as [? _].
  - rewrite fmap_cons in Hnd. apply NoDup_cons in Hnd as [Hk0 Hnd].
    apply elem_of_app in Hin as [Hin|Hin].
    + pose proof (item_attempt_own Hi _ _ Hin) as ->.
      destruct (item_conflict Hi _ Hin Hst) as (_ & Hnone & pre & -> & Hpre & Hc).
      split.
      { by rewrite (drain_frame _ _ _ _ _ _ Hd Hk0). }
      exists pre, t2. split; [by rewrite <- app_assoc|].
      split; [done|]. split; [by apply (drain_attempts_zero _ _ _ _ _ _ _ _ Hd)|].
      split; [done|]. intros Hin'.
      apply Hk0, list_elem_of_fmap_2.
      by apply (drain_emit_own _ _ _ _ _ _ _ _ _ Hd Hin').
    + destruct (IH Hnd Hin Hst) as (Hnone & pre & post & -> & Hpre & Hpost & Hc1 & Hc2).
      assert (idempotencyKey m ≠ idempotencyKey m0) as Hne.
      { intros Heq. apply Hk0. rewrite <- Heq. apply list_elem_of_fmap_2.
        by apply (drain_attempt_in _ _ _ _ _ _ _ Hd Hin). }
      split; [done|]. exists (t1 ++ pre), post.
      split; [by rewrite <- app_assoc|].
      rewrite attempts_app, (item_attempts_other Hi) by done.
      split; [done|]. split; [done|]. split; [|done].
      intros [Hin'|Hin']%elem_of_app; [|done].
      apply Hne. by rewrite (item_emit_own Hi _ _ Hin').
Qed.

Lemma flush_fresh env api w k x :
  store (world_of (flush env api w)) !! k = Some x →
  store w !! k = Some x ∨ (retries x = 0%Z ∧ idempotencyKey x = k).
Proof.
  destruct (flushing w) eqn:Hf.
  { rewrite flush_busy by done. auto. }
  rewrite flush_idle by done.
  pose proof (drain_cases env api (index_getAll (store w)) (set_flushing true w)) as Hd.
  destruct (drain env api _ _) as [[c w'] t]. unfold world_of. simpl.
  apply (drain_fresh _ _ _ _ _ _ _ Hd).
Qed.

Lemma flush_keyed env api w :
  keyed (store w) → keyed (store (world_of (flush env api w))).
Proof.
  intros Hk k x Hx. destruct (flush_fresh _ _ _ _ _ Hx) as [Hx'|[_ ?]]; [|done].
  by apply Hk in Hx'.
Qed.

Lemma flush_attempt_stored env api w m r :
  Attempt m r ∈ trace_of (flush env api w) → ∃ k, store w !! k = Some m.
Proof.
  destruct (flushing w) eqn:Hf.
  { rewrite flush_busy by done. by intros ?%elem_of_nil. }
  rewrite flush_idle by done.
  pose proof (drain_cases env api (index_getAll (store w)) (set_flushing true w)) as Hd.
  destruct (drain env api _ _) as [[c w'] t]. unfold trace_of. simpl.
  intros [?|Hin]%elem_of_cons; [done|].
  apply elem_of_index_getAll. by apply (drain_attempt_in _ _ _ _ _ _ _ Hd Hin).
Qed.

(** C4: a mutation whose attempt comes back with status 409 is attempted
    exactly once in the pass, whatever its [retries]; the attempt is
    followed at once by the deletion of its record and then by the
    [conflict] event carrying it, and that event occurs nowhere else in
    the pass; after the pass its key is absent from the store, so the next
    pass (against any backend) makes no attempt for it. *)
Theorem conflict_short_circuit env api w m r :
  keyed (store w) →
  Attempt m r ∈ trace_of (flush env api w) →
  status r = 409%Z →
  attempts (idempotencyKey m) (trace_of (flush env api w)) = 1 ∧
  (∃ pre post,
     trace_of (flush env api w) =
       pre ++ [Attempt m r; Delete (idempotencyKey m); Emit "conflict" m] ++ post ∧
     (Emit "conflict" m ∉ pre) ∧ (Emit "conflict" m ∉ post)) ∧
  store (world_of (flush env api w)) !! idempotencyKey m = None ∧
  (∀ env' api',
     attempts (idempotencyKey m)
       (trace_of (flush env' api' (world_of (flush env api w)))) = 0).
Proof.
  intros Hk Hin Hst.
  assert (store (world_of (flush env api w)) !! idempotencyKey m = None ∧
    ∃ pre post,
      trace_of (flush env api w) =
        pre ++ [Attempt m r; Delete (idempotencyKey m); Emit "conflict" m] ++ post ∧
      attempts (idempotencyKey m) pre = 0 ∧ attempts (idempotencyKey m) post = 0 ∧
      (Emit "conflict" m ∉ pre) ∧ (Emit "conflict" m ∉ post))
    as (Hnone & pre & post & Ht & Hpre & Hpost & Hc1 & Hc2).
  { revert Hin. destruct (flushing w) eqn:Hf.
    { rewrite flush_busy by done. by intros ?%elem_of_nil. }
    rewrite flush_idle by done.
    pose proof (drain_cases env api (index_getAll (store w)) (set_flushing true w)) as Hd.
    destruct (drain env api _ _) as [[c w'] t]. unfold trace_of, world_of. simpl.
    intros [?|Hin]%elem_of_cons; [done|].
    destruct (drain_conflict _ _ _ _ _ _ _ _ _ Hd (index_getAll_keys_NoDup _ Hk) Hin Hst)
      as (Hnone & pre & post & -> & Hpre & Hpost & Hc1 & Hc2).
    split; [done|]. exists (GetAll (index_getAll (store w)) :: pre), post.
    split; [done|]. split; [done|]. split; [done|]. split; [|done].
    intros [?|?]%elem_of_cons; done. }
  split.
  { rewrite Ht, !attempts_app, Hpre, Hpost. simpl. by rewrite String.eqb_refl. }
  split; [by exists pre, post|]. split; [done|].
  intros env' api'. apply attempts_zero. intros m' r' Hin' Hkey.
  destruct (flush_attempt_stored _ _ _ _ _ Hin') as [k Hm'].
  pose proof (flush_keyed env api w Hk _ _ Hm') as Hk'. simpl in Hk'.
  congruence.
Qed.

Lemma conflict_short_circuit_witness :
  attempts "k8"
    (trace_of (flush server_409 api_remote (holding [thrice_failed; exhausted]))) = 1 ∧
  store (world_of (flush server_409 api_remote (holding [thrice_failed; exhausted])))
    !! "k8" = None.
Proof.
  destruct (conflict_short_circuit server_409 api_remote
              (holding [thrice_failed; exhausted]) thrice_failed
              (mkResult false 409 (Some "{}") false false))
    as (H1 & _ & H2 & _).
  - apply (bool_decide_unpack _). vm_compute. exact I.
  - apply (bool_decide_unpack _). vm_compute. exact I.
  - reflexivity.
  - split; [exact H1 | exact H2].
Defined.

(** ** What reaches the store *)

Lemma fresh_step_refl w : fresh_step w w.
Proof. intros k x. auto. Qed.

Lemma fresh_step_trans w1 w2 w3 :
  fresh_step w1 w2 → fresh_step w2 w3 → fresh_step w1 w3.
Proof.
  intros H12 H23 k x Hx. destruct (H23 _ _ Hx) as [Hx'|]; [|auto]. by apply H12.
Qed.

Lemma fresh_step_inv w w' : fresh_step w w' → ledger_inv w → ledger_inv w'.
Proof.
  intros Hs [Hk Hz]. split; intros k x Hx; simpl;
    destruct (Hs _ _ Hx) as [Hx'|[? ?]]; try done.
  - by apply Hk in Hx'.
  - by apply Hz in Hx'.
Qed.

Lemma enqueue_fresh env m w : fresh_step w (world_of (enqueue env m w)).
Proof.
  rewrite enqueue_run. intros k x. unfold world_of. simpl.
  rewrite lookup_insert. case_decide; [|auto]. intros [= <-]. right. by subst.
Qed.

Lemma remove_fresh key w : fresh_step w (world_of (remove key w)).
Proof.
  intros k x. unfold world_of. simpl. rewrite lookup_delete.
  case_decide; [done|auto].
Qed.

Lemma fetch_outcome_fresh env api verb target opts w res w' t :
  fetch_outcome env api verb target opts w res w' t → fresh_step w w'.
Proof.
  intros Hf k x. destruct Hf; store_rw; auto.
  rewrite lookup_insert. case_decide; [|auto]. intros [= <-]. right.
  split; [done|]. congruence.
Qed.

Lemma fetch_outcome_put env api verb target opts w res w' t x :
  fetch_outcome env api verb target opts w res w' t → Put x ∈ t → retries x = 0%Z.
Proof.
  intros Hf. destruct Hf; in_trace; intuition (simplify_eq; done).
Qed.

Lemma item_put env api m w c w' t x :
  item_outcome env api m w c w' t → Put x ∈ t → retries x = 0%Z.
Proof.
  intros Hi. item_cases Hi; in_trace; intuition (simplify_eq; done).
Qed.

Lemma drain_put env api l w c w' t x :
  drain_outcome env api l w c w' t → Put x ∈ t → retries x = 0%Z.
Proof.
  induction 1 as [|?????? Hstop Hi|???????? Hi _ IH].
  - by intros ?%elem_of_nil.
  - by apply (item_put _ _ _ _ _ _ _ _ Hi).
  - intros [Hin|Hin]%elem_of_app; [|by apply IH].
    by apply (item_put _ _ _ _ _ _ _ _ Hi).
Qed.

Lemma flush_put env api w x :
  Put x ∈ trace_of (flush env api w) → retries x = 0%Z.
Proof.
  destruct (flushing w) eqn:Hf.
  { rewrite flush_busy by done. by intros ?%elem_of_nil. }
  rewrite flush_idle by done.
  pose proof (drain_cases env api (index_getAll (store w)) (set_flushing true w)) as Hd.
  destruct (drain env api _ _) as [[c w'] t]. unfold trace_of. simpl.
  intros [?|Hin]%elem_of_cons; [done|].
  by apply (drain_put _ _ _ _ _ _ _ _ Hd).
Qed.

Lemma session_step_fresh env api s w :
  fresh_step w (world_of (session_step env api s w)).
Proof.
  destruct s as [l|[|m rest]|]; simpl.
  - unfold bind, tell. destruct l; intros k x; simpl; auto.
  - intros k x; simpl; auto.
  - unfold bind. pose proof (flush_item_outcome env api m w) as Hi.
    destruct (flush_item env api m w) as [[[] w1] t1]; unfold world_of; simpl;
      intros k x; apply (item_fresh Hi).
  - apply fresh_step_refl.
Qed.

Lemma session_step_put env api s w x :
  Put x ∈ trace_of (session_step env api s w) → retries x = 0%Z.
Proof.
  destruct s as [l|[|m rest]|]; simpl.
  - unfold bind, tell. destruct l; unfold trace_of; simpl;
      rewrite ?elem_of_cons, ?elem_of_nil; intuition congruence.
  - by intros ?%elem_of_nil.
  - unfold bind. pose proof (flush_item_outcome env api m w) as Hi.
    destruct (flush_item env api m w) as [[[] w1] t1]; unfold trace_of; simpl;
      rewrite app_nil_r; apply (item_put _ _ _ _ _ _ _ _ Hi).
  - by intros ?%elem_of_nil.
Qed.

Lemma sys_step_fresh env op sys :
  fresh_step (world sys) (world (sys_step env op sys).1).
Proof.
  destruct op as [m|key|api verb target opts|api|i|]; simpl.
  - apply enqueue_fresh.
  - apply remove_fresh.
  - pose proof (_fetch_outcome env api verb target opts (world sys)) as Hf.
    destruct (await env _ _) as [[[res|] w'] t].
    + by apply (fetch_outcome_fresh _ _ _ _ _ _ _ _ _ Hf).
    + destruct Hf as (_ & _ & -> & _). apply fresh_step_refl.
  - unfold flush_call. destruct (flushing (world sys)); intros k x; simpl; auto.
  - destruct (sessions sys !! i) as [[api s]|]; simpl.
    + apply session_step_fresh.
    + apply fresh_step_refl.
  - rewrite deliver_run. intros k x. simpl. auto.
Qed.

Lemma sys_step_put env op sys x :
  Put x ∈ (sys_step env op sys).2 → retries x = 0%Z.
Proof.
  destruct op as [m|key|api verb target opts|api|i|]; simpl.
  - rewrite enqueue_run. unfold trace_of. simpl.
    rewrite !elem_of_cons, elem_of_nil. intuition (simplify_eq; done).
  - unfold trace_of. simpl. rewrite !elem_of_cons, elem_of_nil. intuition congruence.
  - pose proof (_fetch_outcome env api verb target opts (world sys)) as Hf.
    destruct (await env _ _) as [[[res|] w'] t].
    + by apply (fetch_outcome_put _ _ _ _ _ _ _ _ _ _ Hf).
    + destruct Hf as (_ & _ & _ & ->). by intros ?%elem_of_nil.
  - unfold flush_call. destruct (flushing (world sys)); by intros ?%elem_of_nil.
  - destruct (sessions sys !! i) as [[api s]|]; simpl.
    + apply session_step_put.
    + by intros ?%elem_of_nil.
  - rewrite deliver_run. unfold trace_of. simpl.
    intros (r & ? & _)%list_elem_of_fmap. done.
Qed.

Lemma sys_reachable_ledger sys : sys_reachable sys → ledger_inv (world sys).
Proof.
  induction 1 as [|env op sys _ IH].
  - split; apply map_Forall_empty.
  - by apply (fresh_step_inv _ _ (sys_step_fresh env op sys)).
Qed.

Lemma reachable_ledger w : reachable w → ledger_inv w.
Proof. intros [ss H]. apply (sys_reachable_ledger _ H). Qed.

(** C10: whatever [retries] the argument of [enqueue] carries, the
    record it stores and returns has [retries = 0]; every record put by
    any operation, the re-persist of a failed mutation during a pass
    included, has [retries = 0]; hence in every state the program can
    reach, every record of the store has [retries = 0]. *)
Theorem stored_retries_zero sys :
  sys_reachable sys →
  (∀ k x, store (world sys) !! k = Some x → retries x = 0%Z) ∧
  (∀ env mutation,
     retries (result_of (enqueue env mutation (world sys))) = 0%Z ∧
     store (world_of (enqueue env mutation (world sys))) !! idempotencyKey mutation
       = Some (result_of (enqueue env mutation (world sys)))) ∧
  (∀ env op x, Put x ∈ (sys_step env op sys).2 → retries x = 0%Z) ∧
  (∀ env api x, Put x ∈ trace_of (flush env api (world sys)) → retries x = 0%Z).
Proof.
  intros Hr. split; [|split; [|split]].
  - intros k x Hx. by apply (sys_reachable_ledger _ Hr) in Hx.
  - intros env mutation. rewrite enqueue_run. unfold result_of, world_of. simpl.
    split; [done|]. apply lookup_insert_eq.
  - intros env op x. apply sys_step_put.
  - intros env api x. apply flush_put.
Qed.

Lemma stored_retries_zero_witness :
  retries thrice_failed = 3%Z ∧
  ∃ x, store (world one_enqueued) !! "k8" = Some x ∧ retries x = 0%Z.
Proof.
  split; [reflexivity|].
  destruct (stored_retries_zero one_enqueued) as (H & _).
  { apply sys_reachable_step, sys_reachable_init. }
  eexists. split; [vm_compute; reflexivity|].
  apply (H "k8"). vm_compute. reflexivity.
Defined.

(** ** Order of the attempts *)

Lemma sorted_split {A} (R : relation A) (l : list A) x y :
  StronglySorted R l → x ∈ l → y ∈ l → x ≠ y → ¬ R y x →
  ∃ l1 l2 l3, l = l1 ++ x :: l2 ++ y :: l3.
Proof.
  intros Hs Hx Hy Hne Hr.
  apply list_elem_of_split in Hx as (l1 & l' & ->).
  apply elem_of_app in Hy as [Hy|Hy].
  { exfalso. apply Hr.
    apply (StronglySorted_app_1_elem_of R l1 (x :: l') y x Hs); [done|by left]. }
  apply elem_of_cons in Hy as [->|Hy]; [done|].
  apply list_elem_of_split in Hy as (l2 & l3 & ->).
  by exists l1, l2, l3.
Qed.

Lemma item_offline_keeps env api m w c w' t :
  item_outcome env api m w c w' t → c = Break →
  store w !! idempotencyKey m = Some m →
  ∃ m', store w' !! idempotencyKey m = Some m' ∧ same_request m m'.
Proof.
  intros Hi Hc Hm. item_cases Hi; store_rw.
  - exists m. by rewrite Hm.
  - exists record. rewrite lookup_insert_eq. by repeat split.
Qed.

Lemma drain_order env api l1 a l2 w c w' t b rb :
  drain_outcome env api (l1 ++ a :: l2) w c w' t →
  b ∉ l1 → b ≠ a → (retries a < MAX_RETRIES)%Z →
  Attempt b rb ∈ t →
  ∃ ra t1 t2 t3, t = t1 ++ Attempt a ra :: t2 ++ Attempt b rb :: t3.
Proof.
  intros Hd Hb Hne Hlt Hin.
  apply drain_app in Hd as [[Hc Hd]|(w1 & t1 & t2 & Hd1 & Hd2 & ->)].
  { destruct Hb. by apply (drain_attempt_in _ _ _ _ _ _ _ Hd Hin). }
  apply elem_of_app in Hin as [Hin|Hin].
  { destruct Hb. by apply (drain_attempt_in _ _ _ _ _ _ _ Hd1 Hin). }
  inversion Hd2 as [|?????? Hstop Hi|???????? Hi Hd3]; subst.
  { by apply (item_attempt_own Hi) in Hin. }
  apply elem_of_app in Hin as [Hin|Hin].
  { by apply (item_attempt_own Hi) in Hin. }
  destruct (item_attempt_made Hi Hlt) as [ra Ha]; [done|].
  apply list_elem_of_split in Ha as (x & y & ->).
  apply list_elem_of_split in Hin as (x' & y' & ->).
  exists ra, (t1 ++ x), (y ++ x'), y'.
  by rewrite <- !app_assoc.
Qed.

Lemma drain_stop env api l1 a l2 w c w' t ra :
  drain_outcome env api (l1 ++ a :: l2) w c w' t →
  NoDup (idempotencyKey <$> (l1 ++ a :: l2)) →
  Attempt a ra ∈ t → offline ra = true →
  (∀ b rb, b ∈ l2 → Attempt b rb ∉ t) ∧
  (∀ k, k ∉ idempotencyKey <$> (l1 ++ [a]) → store w' !! k = store w !! k) ∧
  (store w !! idempotencyKey a = Some a →
   ∃ a', store w' !! idempotencyKey a = Some a' ∧ same_request a a').
Proof.
  intros Hd Hnd Hin Hoff.
  rewrite fmap_app, fmap_cons in Hnd.
  apply NoDup_app in Hnd as (Hnd1 & Hdis & Hnd2).
  apply NoDup_cons in Hnd2 as [Ha2 Hnd2].
  assert (a ∉ l1) as Ha1.
  { intros H. apply (Hdis (idempotencyKey a)); [by apply list_elem_of_fmap_2|by left]. }
  apply drain_app in Hd as [[Hc Hd]|(w1 & t1 & t2 & Hd1 & Hd2 & ->)].
  { destruct Ha1. by apply (drain_attempt_in _ _ _ _ _ _ _ Hd Hin). }
  apply elem_of_app in Hin as [Hin|Hin].
  { destruct Ha1. by apply (drain_attempt_in _ _ _ _ _ _ _ Hd1 Hin). }
  assert (∃ ta, item_outcome env api a w1 Break w' ta ∧ c = Break ∧ t2 = ta)
    as (ta & Hi & -> & ->).
  { inversion Hd2 as [|?????? Hstop Hi|???????? Hi Hd3]; subst.
    { assert (c = Break) as -> by (apply (item_break Hi); by exists ra).
      by exists t2. }
    exfalso. apply elem_of_app in Hin as [Hin|Hin].
    - assert (Continue = Break); [|done]. apply (item_break Hi). by exists ra.
    - apply Ha2, list_elem_of_fmap_2.
      by apply (drain_attempt_in _ _ _ _ _ _ _ Hd3 Hin). }
  split; [|split].
  - intros b rb Hb [Hin'|Hin']%elem_of_app.
    + apply (Hdis (idempotencyKey b)).
      * apply list_elem_of_fmap_2.
        by apply (drain_attempt_in _ _ _ _ _ _ _ Hd1 Hin').
      * right. by apply list_elem_of_fmap_2.
    + apply (item_attempt_own Hi) in Hin' as ->.
      by apply Ha2, list_elem_of_fmap_2.
  - intros k Hk. rewrite fmap_app, not_elem_of_app in Hk. destruct Hk as [Hk1 Hk2].
    rewrite (item_frame Hi k), (drain_frame _ _ _ _ _ _ Hd1) by set_solver. done.
  - intros Hs. apply (item_offline_keeps _ _ _ _ _ _ _ Hi eq_refl).
    rewrite (drain_frame _ _ _ _ _ _ Hd1); [done|].
    intros H. apply (Hdis (idempotencyKey a)); [done|by left].
Qed.

(** C3: let [a] and [b] be pending, [a] enqueued strictly earlier.  In
    every pass, if [b] is attempted then [a] has been attempted before it;
    and if the attempt of [a] ends in a transport failure ([offline]),
    then [b] is not attempted in that pass and both are still in the
    store afterwards ([b] untouched, [a] under the same key with the same
    request). *)
Theorem oldest_first env api w a b :
  reachable w →
  store w !! idempotencyKey a = Some a →
  store w !! idempotencyKey b = Some b →
  (enqueuedAt a <? enqueuedAt b)%string = true →
  (∀ rb, Attempt b rb ∈ trace_of (flush env api w) →
     ∃ ra t1 t2 t3,
       trace_of (flush env api w) = t1 ++ Attempt a ra :: t2 ++ Attempt b rb :: t3) ∧
  (∀ ra, Attempt a ra ∈ trace_of (flush env api w) → offline ra = true →
     (∀ rb, Attempt b rb ∉ trace_of (flush env api w)) ∧
     (∃ a', store (world_of (flush env api w)) !! idempotencyKey a = Some a' ∧
            same_request a a') ∧
     store (world_of (flush env api w)) !! idempotencyKey b = Some b).
Proof.
  intros Hreach Ha Hb Hlt.
  destruct (reachable_ledger _ Hreach) as [Hk Hz].
  destruct (flushing w) eqn:Hf.
  { rewrite flush_busy by done.
    split; intros r Hin; by apply elem_of_nil in Hin. }
  assert (String.compare (enqueuedAt a) (enqueuedAt b) = Lt) as Hcmp.
  { unfold String.ltb in Hlt. by destruct (String.compare _ _). }
  assert (a ≠ b) as Hne.
  { intros ->. by rewrite compare_refl in Hcmp. }
  destruct (sorted_split index_le (index_getAll (store w)) a b)
    as (l1 & l2 & l3 & Hl); try done.
  { apply index_getAll_sorted. }
  { apply elem_of_index_getAll. eauto. }
  { apply elem_of_index_getAll. eauto. }
  { by apply index_le_earlier. }
  pose proof (index_getAll_keys_NoDup _ Hk) as Hnd.
  rewrite flush_idle by done.
  pose proof (drain_cases env api (index_getAll (store w)) (set_flushing true w)) as Hd.
  destruct (drain env api _ _) as [[c w'] t]. unfold trace_of, world_of. simpl.
  rewrite Hl in Hd, Hnd.
  assert (idempotencyKey b ∉ idempotencyKey <$> (l1 ++ [a])) as Hkb.
  { pose proof Hnd as Hnd'.
    replace (l1 ++ a :: l2 ++ b :: l3) with ((l1 ++ [a]) ++ l2 ++ b :: l3) in Hnd'
      by (by rewrite <- app_assoc).
    rewrite fmap_app in Hnd'. apply NoDup_app in Hnd' as (_ & Hdis & _).
    intros H. apply (Hdis _ H). apply list_elem_of_fmap_2.
    apply elem_of_app. right. by left. }
  split.
  - intros rb [?|Hin]%elem_of_cons; [done|].
    destruct (drain_order env api l1 a (l2 ++ b :: l3) _ _ _ _ b rb Hd)
      as (ra & t1 & t2 & t3 & ->); try done.
    + intros H. apply Hkb, list_elem_of_fmap_2, elem_of_app. by left.
    + apply Hz in Ha. simpl in Ha. rewrite Ha. done.
    + by exists ra, (GetAll (index_getAll (store w)) :: t1), t2, t3.
  - intros ra [?|Hin]%elem_of_cons Hoff; [done|].
    destruct (drain_stop _ _ _ _ _ _ _ _ _ _ Hd Hnd Hin Hoff) as (Hnone & Hframe & Hkeep).
    split; [|split].
    + intros rb [?|Hin']%elem_of_cons; [done|].
      apply (Hnone b rb); [|done]. apply elem_of_app. right. by left.
    + by apply Hkeep.
    + by rewrite Hframe.
Qed.

Lemma two_enqueued_reachable : sys_reachable two_enqueued.
Proof. apply sys_reachable_step, sys_reachable_step, sys_reachable_init. Qed.

Lemma oldest_first_witness :
  ∃ ra t1 t2 t3,
    trace_of (flush server_500 api_remote (world two_enqueued)) =
      t1 ++ Attempt (mkMutation "k1" "POST" "/api/v1/tasks" (object "{title:x}")
                       "2026-01-01T00:00:00.000Z" 0) ra
         :: t2 ++ Attempt (mkMutation "k2" "PATCH" "/api/v1/tasks/7" (object "{status:done}")
                       "2026-01-01T00:00:01.000Z" 0)
                    (mkResult false 500 (Some "{}") false false) :: t3.
Proof.
  destruct (oldest_first server_500 api_remote (world two_enqueued)
    (mkMutation "k1" "POST" "/api/v1/tasks" (object "{title:x}")
                "2026-01-01T00:00:00.000Z" 0)
    (mkMutation "k2" "PATCH" "/api/v1/tasks/7" (object "{status:done}")
                "2026-01-01T00:00:01.000Z" 0)) as [H _].
  - exists []. exact two_enqueued_reachable.
  - vm_compute. reflexivity.
  - vm_compute. reflexivity.
  - vm_compute. reflexivity.
  - apply H. apply (bool_decide_unpack _). vm_compute. exact I.
Defined.

(** ** Single flight *)

Lemma count_active_app l1 l2 :
  count_active (l1 ++ l2) = count_active l1 + count_active l2.
Proof. unfold count_active. by rewrite filter_app, length_app. Qed.

Lemma count_active_cons x l :
  count_active (x :: l) = (if active x.2 then 1 else 0) + count_active l.
Proof.
  unfold count_active. rewrite filter_cons.
  destruct (active x.2); by case_decide.
Qed.

Lemma count_active_insert l i x y :
  l !! i = Some x →
  count_active (<[i:=y]> l) + (if active x.2 then 1 else 0) =
  count_active l + (if active y.2 then 1 else 0).
Proof.
  revert i. induction l as [|z l IH]; intros [|i] Hi; simplify_eq/=;
    rewrite !count_active_cons.
  - lia.
  - specialize (IH i Hi). lia.
Qed.

Lemma enqueue_flushing env m w : flushing (world_of (enqueue env m w)) = flushing w.
Proof. by rewrite enqueue_run. Qed.

Lemma session_step_finished env api w :
  session_step env api Finished w = (Finished, w, []).
Proof. reflexivity. Qed.

(** A step of an invocation that holds the guard either keeps it and
    goes on, or returns and clears it. *)
Lemma session_step_guard env api s w :
  active s = true → flushing w = true →
  (active (result_of (session_step env api s w)) = true ∧
   flushing (world_of (session_step env api s w)) = true) ∨
  (result_of (session_step env api s w) = Finished ∧
   flushing (world_of (session_step env api s w)) = false).
Proof.
  intros Hs Hw. destruct s as [l|[|m rest]|]; [| | |done]; simpl.
  - unfold bind, tell. destruct l; simpl; auto.
  - auto.
  - unfold bind. pose proof (flush_item_outcome env api m w) as Hi.
    destruct (flush_item env api m w) as [[[] w1] t1]; simpl; [|auto..].
    left. split; [done|]. unfold world_of. simpl.
    by rewrite (item_flushing Hi).
Qed.

Lemma sys_step_guard env op sys :
  guard_inv sys → guard_inv (sys_step env op sys).1.
Proof.
  unfold guard_inv, active_sessions. intros Hg.
  destruct op as [m|key|api verb target opts|api|i|]; simpl.
  6:{ by rewrite deliver_run. }
  - by rewrite enqueue_flushing.
  - done.
  - pose proof (_fetch_outcome env api verb target opts (world sys)) as Hf.
    destruct (await env _ _) as [[[res|] w'] t]; unfold world_of; simpl.
    + assert (flushing w' = flushing (world sys)) as ->; [|done].
      by destruct Hf.
    + by destruct Hf as (_ & _ & -> & _).
  - unfold flush_call. rewrite count_active_app, count_active_cons.
    change (count_active []) with 0.
    destruct (flushing (world sys)) eqn:Hw; unfold result_of, world_of; simpl;
      rewrite Hg, ?Hw; simpl; lia.
  - destruct (sessions sys !! i) as [[api s]|] eqn:Hi; simpl; [|done].
    pose proof (count_active_insert (sessions sys) i (api, s)
      (api, result_of (session_step env api s (world sys))) Hi) as Hc.
    simpl in Hc. unfold insert in Hc |- *. destruct (active s) eqn:Hs.
    + destruct (flushing (world sys)) eqn:Hw.
      * destruct (session_step_guard env api s (world sys) Hs Hw) as [[Ha ->]|[Ha ->]].
        -- rewrite Ha in Hc. lia.
        -- rewrite Ha in Hc |- *. simpl in Hc. lia.
      * exfalso. rewrite <- (take_drop_middle _ _ _ Hi) in Hg.
        rewrite count_active_app, count_active_cons in Hg. simpl in Hg.
        rewrite Hs in Hg. lia.
    + destruct s; try done. rewrite session_step_finished in *.
      unfold result_of, world_of in *. simpl in *. rewrite <- Hg. lia.
Qed.

Lemma sys_reachable_guard sys : sys_reachable sys → guard_inv sys.
Proof.
  induction 1 as [|env op sys _ IH]; [done|]. by apply sys_step_guard.
Qed.

Lemma flush_clears_guard env api w :
  flushing w = false → flushing (world_of (flush env api w)) = false.
Proof.
  intros Hf. rewrite flush_idle by done.
  by destruct (drain env api _ _) as [[c w'] t].
Qed.

Lemma session_run_finished env api fuel w :
  session_run env api fuel Finished w = (Finished, w, []).
Proof. induction fuel as [|fuel IH]; simpl; [done|]. unfold bind. simpl. by rewrite IH. Qed.

Lemma session_run_draining env api l w :
  session_run env api (S (length l)) (Draining l) w =
    match drain env api l w with
    | (c, w', t) => (Finished, set_flushing false w', t)
    end.
Proof.
  revert w. induction l as [|m l IH]; intros w.
  { reflexivity. }
  rewrite drain_cons. change (length (m :: l)) with (S (length l)).
  change (session_run env api (S (S (length l))) (Draining (m :: l)) w) with
    ((let* s' := session_step env api (Draining (m :: l)) in
      session_run env api (S (length l)) s') w).
  unfold bind at 1. simpl session_step. unfold bind at 1.
  destruct (flush_item env api m w) as [[[] w1] t1].
  - unfold ret at 1. rewrite IH.
    destruct (drain env api l w1) as [[c w2] t2]. by rewrite app_nil_r.
  - unfold bind, modify, ret. rewrite session_run_finished. by rewrite !app_nil_r.
  - unfold bind, modify, ret. rewrite session_run_finished. by rewrite !app_nil_r.
Qed.

(** [flush] run to completion is one invocation resumed until it
    returns. *)
Lemma flush_is_session_run env api w :
  flushing w = false →
  (let* s := flush_call in
   session_run env api (2 + length (index_getAll (store w))) s) w =
    (Finished, world_of (flush env api w), trace_of (flush env api w)).
Proof.
  intros Hf. rewrite flush_idle by done.
  unfold bind at 1, flush_call. rewrite Hf.
  change (2 + ?n) with (S (S n)).
  change (session_run env api (S (S ?n)) (Reading ?l) ?w0) with
    ((let* s' := session_step env api (Reading l) in
      session_run env api (S n) s') w0).
  unfold bind at 1. simpl session_step. unfold bind at 1, tell.
  destruct (index_getAll (store w)) as [|m l] eqn:Hl.
  - unfold modify, ret, bind. rewrite session_run_finished. reflexivity.
  - unfold ret at 1. rewrite session_run_draining.
    destruct (drain env api (m :: l) (set_flushing true w)) as [[c w'] t].
    reflexivity.
Qed.

Lemma sys_run env api fuel ss s w :
  sys_reachable (mkSystem w (ss ++ [(api, s)])) →
  sys_reachable
    (mkSystem (world_of (session_run env api fuel s w))
              (ss ++ [(api, result_of (session_run env api fuel s w))])).
Proof.
  revert s w. induction fuel as [|fuel IH]; intros s w Hr; [done|].
  apply (sys_reachable_step env (Resume (length ss))) in Hr.
  simpl in Hr. rewrite list_lookup_middle in Hr by done. simpl in Hr.
  rewrite insert_app_r_alt, Nat.sub_diag in Hr by done. simpl in Hr.
  apply IH in Hr. simpl. unfold bind.
  destruct (session_step env api s w) as [[s1 w1] t1].
  unfold world_of, result_of in *. simpl in *.
  by destruct (session_run env api fuel s1 w1) as [[s2 w2] t2].
Qed.

Lemma flush_reachable env api w :
  reachable w → reachable (world_of (flush env api w)).
Proof.
  intros [ss Hr]. destruct (flushing w) eqn:Hf.
  { rewrite flush_busy by done. by exists ss. }
  apply (sys_reachable_step env (CallFlush api)) in Hr.
  simpl in Hr. unfold flush_call in Hr. rewrite Hf in Hr.
  unfold world_of, result_of in Hr. simpl in Hr.
  apply (sys_run env api (2 + length (index_getAll (store w)))) in Hr.
  pose proof (flush_is_session_run env api w Hf) as Hrun.
  unfold bind at 1, flush_call in Hrun. rewrite Hf in Hrun.
  destruct (session_run _ _ _ (Reading _) _) as [[s1 w1] t1].
  simpl in Hrun. injection Hrun as -> <- _.
  by eexists.
Qed.

Lemma deliver_reachable w : reachable w → reachable (world_of (deliver w)).
Proof.
  intros [ss Hr]. exists ss.
  apply (sys_reachable_step unreachable Deliver) in Hr. exact Hr.
Qed.

(** C5.  In every state the queue and its callers can reach:
    - at most one invocation of [flush] is under way;
    - while one is, a further call returns at once: it reads nothing,
      sends nothing and leaves the world as it is;
    - a step by which the invocation under way returns (the list was
      empty, the loop ran to its end, it was left by [break] on a
      transport failure, or it was left by an exception) clears the
      guard, and no invocation is under way afterwards;
    - when none is under way, a call run to completion ends with the
      guard cleared. *)
Theorem single_flight sys :
  sys_reachable sys →
  (active_sessions sys ≤ 1)%nat ∧
  ((0 < active_sessions sys)%nat → ∀ env api,
     sys_step env (CallFlush api) sys =
       (mkSystem (world sys) (sessions sys ++ [(api, Finished)]), []) ∧
     flush env api (world sys) = (Fulfilled tt, world sys, [])) ∧
  (∀ env i api s,
     sessions sys !! i = Some (api, s) → active s = true →
     result_of (session_step env api s (world sys)) = Finished →
     flushing (world_of (session_step env api s (world sys))) = false ∧
     active_sessions (sys_step env (Resume i) sys).1 = 0) ∧
  (active_sessions sys = 0 → ∀ env api,
     flushing (world_of (flush env api (world sys))) = false).
Proof.
  intros Hr. pose proof (sys_reachable_guard _ Hr) as Hg.
  unfold guard_inv in Hg. split; [|split; [|split]].
  - rewrite Hg. destruct (flushing (world sys)); lia.
  - intros Hpos env api.
    assert (flushing (world sys) = true) as Hf.
    { destruct (flushing (world sys)); [done|lia]. }
    split; [|by apply flush_busy].
    simpl. unfold flush_call. by rewrite Hf.
  - intros env i api s Hi Hs Hfin.
    assert (flushing (world sys) = true) as Hf.
    { destruct (flushing (world sys)); [done|]. exfalso.
      unfold active_sessions in Hg.
      rewrite <- (take_drop_middle _ _ _ Hi) in Hg.
      rewrite count_active_app, count_active_cons in Hg. simpl in Hg.
      rewrite Hs in Hg. lia. }
    assert (flushing (world_of (session_step env api s (world sys))) = false) as Hc.
    { destruct (session_step_guard env api s (world sys) Hs Hf) as [[Ha _]|[_ ?]]; [|done].
      by rewrite Hfin in Ha. }
    split; [done|].
    pose proof (sys_reachable_guard _ (sys_reachable_step env (Resume i) _ Hr)) as Hg'.
    unfold guard_inv in Hg'. rewrite Hg'. simpl. rewrite Hi. simpl. by rewrite Hc.
  - intros Hz env api. apply flush_clears_guard.
    destruct (flushing (world sys)); [lia|done].
Qed.

Lemma single_flight_witness :
  (active_sessions flush_called_twice ≤ 1)%nat ∧
  sessions flush_called_twice =
    [(api_remote, Reading (index_getAll (store (world two_enqueued))));
     (api_remote, Finished)].
Proof.
  destruct (single_flight flush_called_twice) as [H _].
  { apply sys_reachable_step, sys_reachable_step. exact two_enqueued_reachable. }
  split; [exact H|]. reflexivity.
Defined.

(** ** The transport *)



(** C9: with no backend configured, [_fetch] returns the [localOnly]
    result without any effect: no request, nothing enqueued, the world
    unchanged.  With a backend configured whose URL resolves, when the
    request of a non-GET call with an idempotency key fails on the
    network, [_fetch] calls [enqueue] for the mutation and returns the
    [offline] result; the call it started puts the record (the caller that
    awaits [_fetch] finds it in the store) and emits [enqueued] when the
    put has succeeded.  The two results differ in both flags. *)
Theorem local_only_vs_unreachable env api verb target opts w :
  (baseUrl api = "" →
     _fetch env api verb target opts w =
       (Fulfilled (mkResult false 0 None true false), w, [])) ∧
  (baseUrl api ≠ "" → valid_url env target (baseUrl api) = true →
   respond env (tick w) (build_request env api verb target opts) = NetworkError →
   verb ≠ "GET" → opt_idempotencyKey opts ≠ "" →
   result_of (_fetch env api verb target opts w)
     = Fulfilled (mkResult false 0 None false true) ∧
   ∃ call record,
     trace_of (await env (_fetch env api verb target opts) w) =
       [Net (build_request env api verb target opts) NetworkError;
        Start call; Put record] ∧
     store (world_of (await env (_fetch env api verb target opts) w))
       !! opt_idempotencyKey opts = Some record ∧
     Emit "enqueued" record
       ∈ trace_of (deliver (world_of (await env (_fetch env api verb target opts) w))) ∧
     same_request call record ∧
     idempotencyKey record = opt_idempotencyKey opts ∧
     method record = verb ∧ path record = target ∧
     body record = opt_body opts ∧ retries record = 0%Z) ∧
  (localOnly (mkResult false 0 None true false) = true ∧
   offline (mkResult false 0 None true false) = false ∧
   localOnly (mkResult false 0 None false true) = false ∧
   offline (mkResult false 0 None false true) = true).
Proof.
  split; [|split; [|done]].
  - intros Hb. unfold _fetch, isRemote. by rewrite Hb.
  - intros Hb Hv Hnet Hg Hk.
    assert (isRemote api = true) as Hr by (by apply truthy_spec).
    destruct (await_failed_write env api verb target opts w Hr Hv) as [Heq Hawait];
      try done.
    { by rewrite Hnet. }
    rewrite Hawait, Heq, deliver_run, Hnet.
    unfold trace_of, world_of, result_of. simpl.
    split; [done|]. eexists _, _. split; [reflexivity|].
    split; [apply lookup_insert_eq|]. split.
    { rewrite fmap_app. apply elem_of_app. right. by left. }
    by repeat split.
Qed.

Lemma local_only_vs_unreachable_witness :
  _fetch unreachable api_local "POST" "/api/v1/tasks"
    (mkOpts (object "{title:x}") None "k1") init
    = (Fulfilled (mkResult false 0 None true false), init, []) ∧
  result_of (failing_write init) = Fulfilled (mkResult false 0 None false true).
Proof.
  split.
  - apply (local_only_vs_unreachable unreachable api_local). reflexivity.
  - apply (local_only_vs_unreachable unreachable api_remote "POST" "/api/v1/tasks"
             (mkOpts (object "{title:x}") None "k1") init); try done.
Defined.

(** ** The retry counter *)

Lemma same_request_refl m : same_request m m.
Proof. by repeat split. Qed.

Lemma same_request_trans a b c :
  same_request a b → same_request b c → same_request a c.
Proof. unfold same_request. intuition congruence. Qed.

Lemma item_stored {env api m w c w' t} (Hi : item_outcome env api m w c w' t) x :
  store w' !! idempotencyKey m = Some x →
  store w !! idempotencyKey m = Some x ∨ same_request m x.
Proof.
  item_cases Hi; store_rw;
    rewrite ?lookup_delete_eq, ?lookup_insert_eq; intros Hx; simplify_eq; auto;
    right; by repeat split.
Qed.

(** A property of records that only depends on their request is kept by
    the loop and by a pass. *)
Lemma drain_preserves env api l w c w' t (P : Mutation → Prop) :
  (∀ a b, same_request a b → P a → P b) →
  drain_outcome env api l w c w' t →
  Forall P l → map_Forall (λ _, P) (store w) → map_Forall (λ _, P) (store w').
Proof.
  intros HP. induction 1 as [|m0 l w c w1 t1 _ Hi|m0 l w w1 t1 c w2 t2 Hi _ IH];
    [done|..]; intros [Hm0 Hl]%Forall_cons Hw.
  - intros k x Hx. destruct (decide (k = idempotencyKey m0)) as [->|Hne].
    + destruct (item_stored Hi x Hx) as [Hx'|Hs]; [by apply (Hw _ _ Hx')|].
      by apply (HP m0).
    + rewrite (item_frame Hi k Hne) in Hx. by apply (Hw _ _ Hx).
  - apply IH; [done|].
    intros k x Hx. destruct (decide (k = idempotencyKey m0)) as [->|Hne].
    + destruct (item_stored Hi x Hx) as [Hx'|Hs]; [by apply (Hw _ _ Hx')|].
      by apply (HP m0).
    + rewrite (item_frame Hi k Hne) in Hx. by apply (Hw _ _ Hx).
Qed.

Lemma flush_preserves env api w (P : Mutation → Prop) :
  (∀ a b, same_request a b → P a → P b) →
  map_Forall (λ _, P) (store w) →
  map_Forall (λ _, P) (store (world_of (flush env api w))).
Proof.
  intros HP Hw. destruct (flushing w) eqn:Hf.
  { by rewrite flush_busy. }
  rewrite flush_idle by done.
  pose proof (drain_cases env api (index_getAll (store w)) (set_flushing true w)) as Hd.
  destruct (drain env api _ _) as [[c w'] t]. unfold world_of. simpl.
  apply (drain_preserves _ _ _ _ _ _ _ P HP Hd); [|done].
  apply Forall_forall. intros m [k Hm]%elem_of_index_getAll. by apply (Hw _ _ Hm).
Qed.

Lemma flush_replayable env api env' api' w :
  replayable env api (store w) →
  replayable env api (store (world_of (flush env' api' w))).
Proof.
  apply (flush_preserves env' api' w (λ m, valid_url env (path m) (baseUrl api) = true)).
  intros a b (_ & _ & Hp & _). by rewrite Hp.
Qed.

Lemma item_rejected env api m w c w' t :
  rejecting env → isRemote api = true →
  valid_url env (path m) (baseUrl api) = true →
  (retries m < MAX_RETRIES)%Z →
  item_outcome env api m w c w' t →
  c = Continue ∧
  (∃ x, store w' !! idempotencyKey m = Some x ∧ same_request m x ∧ retries x = 0%Z) ∧
  attempts (idempotencyKey m) t = 1 ∧
  (∀ ev x, Emit ev x ∈ t → ev = "enqueued") ∧
  (∀ k, Delete k ∉ t) ∧
  (∀ m' r, Attempt m' r ∈ t → ok r = false ∧ offline r = false ∧ status r ≠ 409%Z).
Proof.
  intros Hrej Hrem Hval Hlt Hi.
  destruct Hi as [?|res w1 t1 c w2 t2 _ Hf Hr|_ _ Hinv]; [lia| |congruence].
  pose proof (item_attempts_self (io_attempt _ _ _ _ _ _ _ _ _ _ Hlt Hf Hr) Hlt) as Hone.
  destruct (Hrej (tick w) (build_request env api (method m) (path m)
              (mkOpts (body m) None (idempotencyKey m))))
    as (st & ct & js & Hresp & Hnf & Hok & H409).
  destruct Hf as [?|st' ct' js' w1 _ _ Hresp' _ Hs Hg|w1 _ _ Hfail|at_ record w1 _ _ Hfail];
    try congruence.
  rewrite Hresp' in Hresp. injection Hresp as -> -> ->.
  destruct Hr as [Hok'|Hok' Hoff|Hok' Hoff Hst|w2 Hok' Hoff Hst Hs2 Hg2];
    simpl in *; try congruence.
  split; [done|]. split.
  { eexists. rewrite Hs2, lookup_insert_eq. split; [done|]. by repeat split. }
  split; [by apply Hone|]. split; [|split].
  - intros ev x. in_trace; intuition congruence.
  - intros k. in_trace; intuition congruence.
  - intros m' r. in_trace; intuition (simplify_eq; done).
Qed.

Lemma drain_rejected env api l w c w' t :
  rejecting env → isRemote api = true →
  Forall (λ m, valid_url env (path m) (baseUrl api) = true ∧
               (retries m < MAX_RETRIES)%Z) l →
  NoDup (idempotencyKey <$> l) →
  drain_outcome env api l w c w' t →
  (∀ m, m ∈ l →
     (∃ x, store w' !! idempotencyKey m = Some x ∧ same_request m x ∧ retries x = 0%Z) ∧
     attempts (idempotencyKey m) t = 1) ∧
  (∀ ev x, Emit ev x ∈ t → ev = "enqueued") ∧
  (∀ k, Delete k ∉ t) ∧
  (∀ m' r, Attempt m' r ∈ t → ok r = false ∧ offline r = false ∧ status r ≠ 409%Z).
Proof.
  intros Hrej Hrem Hall Hnd Hd.
  induction Hd as [|m0 l w c w1 t1 Hstop Hi|m0 l w w1 t1 c w2 t2 Hi Hd IH].
  - split; [|split; [|split]].
    + by intros m ?%elem_of_nil.
    + by intros ev x ?%elem_of_nil.
    + by intros k ?%elem_of_nil.
    + by intros m' r ?%elem_of_nil.
  - apply Forall_cons in Hall as [[Hval Hlt] _].
    by destruct (item_rejected _ _ _ _ _ _ _ Hrej Hrem Hval Hlt Hi) as [? _].
  - apply Forall_cons in Hall as [[Hval Hlt] Hall].
    rewrite fmap_cons in Hnd. apply NoDup_cons in Hnd as [Hk0 Hnd].
    destruct (item_rejected _ _ _ _ _ _ _ Hrej Hrem Hval Hlt Hi)
      as (_ & Hx & Hone & Hev & Hdel & Hrj).
    destruct (IH Hall Hnd) as (IHm & IHev & IHdel & IHrj).
    split; [|split; [|split]].
    + intros m [->|Hm]%elem_of_cons.
      * rewrite attempts_app, Hone, (drain_attempts_zero _ _ _ _ _ _ _ _ Hd Hk0).
        rewrite (drain_frame _ _ _ _ _ _ Hd Hk0). done.
      * destruct (IHm m Hm) as [Hx' Hone']. split; [done|].
        rewrite attempts_app, Hone', (item_attempts_other Hi); [done|].
        intros Heq. apply Hk0. rewrite <- Heq. by apply list_elem_of_fmap_2.
    + intros ev x [?|?]%elem_of_app; eauto.
    + intros k [?|?]%elem_of_app; [by eapply Hdel|by eapply IHdel].
    + intros m' r [?|?]%elem_of_app; eauto.
Qed.

Lemma flush_rejected env api w :
  rejecting env → isRemote api = true → replayable env api (store w) →
  ledger_inv w → flushing w = false →
  flushing (world_of (flush env api w)) = false ∧
  (∀ m, store w !! idempotencyKey m = Some m →
     (∃ x, store (world_of (flush env api w)) !! idempotencyKey m = Some x ∧
           same_request m x ∧ retries x = 0%Z) ∧
     attempts (idempotencyKey m) (trace_of (flush env api w)) = 1) ∧
  (∀ ev x, Emit ev x ∈ trace_of (flush env api w) → ev = "enqueued") ∧
  (∀ k, Delete k ∉ trace_of (flush env api w)) ∧
  (∀ m' r, Attempt m' r ∈ trace_of (flush env api w) →
     ok r = false ∧ offline r = false ∧ status r ≠ 409%Z).
Proof.
  intros Hrej Hrem Hval [Hk Hz] Hf.
  split; [by apply flush_clears_guard|].
  rewrite flush_idle by done.
  pose proof (drain_cases env api (index_getAll (store w)) (set_flushing true w)) as Hd.
  destruct (drain env api _ _) as [[c w'] t]. unfold trace_of, world_of. simpl.
  assert (Forall (λ m, valid_url env (path m) (baseUrl api) = true ∧
                       (retries m < MAX_RETRIES)%Z) (index_getAll (store w))) as Hall.
  { apply Forall_forall. intros m [k Hm]%elem_of_index_getAll.
    split; [by apply (Hval _ _ Hm)|].
    apply Hz in Hm. simpl in Hm. rewrite Hm. done. }
  destruct (drain_rejected _ _ _ _ _ _ _ Hrej Hrem Hall
              (index_getAll_keys_NoDup _ Hk) Hd) as (Hm & Hev & Hdel & Hrj).
  split; [|split; [|split]].
  - intros m Hm0. destruct (Hm m) as [Hx Hone].
    { apply elem_of_index_getAll. eauto. }
    split; [done|]. simpl. done.
  - intros ev x [?|?]%elem_of_cons; [done|eauto].
  - intros k [?|?]%elem_of_cons; [done|by eapply Hdel].
  - intros m' r [?|?]%elem_of_cons; [done|eauto].
Qed.

Lemma flush_passes_S env api n w :
  flush_passes env api (S n) w =
    match flush env api w with
    | (_, w1, t1) =>
        match flush_passes env api n (set_outstanding [] w1) with
        | (u, w2, t2) =>
            (u, w2, t1 ++ ((λ r, Emit "enqueued" r) <$> outstanding w1) ++ t2)
        end
    end.
Proof.
  simpl. unfold bind at 1. destruct (flush env api w) as [[r w1] t1].
  unfold bind at 1. rewrite deliver_run.
  by destruct (flush_passes env api n (set_outstanding [] w1)) as [[u w2] t2].
Qed.

Lemma attempts_delivered key (l : list Mutation) :
  attempts key ((λ r, Emit "enqueued" r) <$> l) = 0.
Proof. by induction l. Qed.

Lemma set_outstanding_reachable w :
  reachable w → reachable (set_outstanding [] w).
Proof. intros Hr. apply deliver_reachable in Hr. by rewrite deliver_run in Hr. Qed.

Lemma rejected_passes env api n :
  rejecting env → isRemote api = true →
  ∀ w m, replayable env api (store w) → reachable w → flushing w = false →
    store w !! idempotencyKey m = Some m →
    attempts (idempotencyKey m) (trace_of (flush_passes env api n w)) = n ∧
    (∃ x, store (world_of (flush_passes env api n w)) !! idempotencyKey m = Some x ∧
          same_request m x ∧ retries x = 0%Z) ∧
    (∀ ev x, Emit ev x ∈ trace_of (flush_passes env api n w) → ev = "enqueued") ∧
    (∀ k, Delete k ∉ trace_of (flush_passes env api n w)) ∧
    (∀ m' r, Attempt m' r ∈ trace_of (flush_passes env api n w) →
       ok r = false ∧ offline r = false ∧ status r ≠ 409%Z).
Proof.
  intros Hrej Hrem. induction n as [|n IH]; intros w m Hval Hreach Hf Hm.
  { simpl. split; [done|]. split.
    - exists m. split; [done|]. split; [apply same_request_refl|].
      by apply (reachable_ledger _ Hreach) in Hm.
    - split; [by intros ev x ?%elem_of_nil|].
      split; [by intros k ?%elem_of_nil|by intros m' r ?%elem_of_nil]. }
  rewrite flush_passes_S.
  destruct (flush_rejected env api w Hrej Hrem Hval (reachable_ledger _ Hreach) Hf)
    as (Hf1 & Hm1 & Hev1 & Hdel1 & Hrj1).
  pose proof (flush_reachable env api w Hreach) as Hreach1.
  pose proof (flush_replayable env api env api w Hval) as Hval1.
  destruct (Hm1 m Hm) as [(x & Hx & Hsame & Hx0) Hone].
  destruct (flush env api w) as [[r1 w1] t1]. unfold world_of, trace_of in *. simpl in *.
  assert (idempotencyKey x = idempotencyKey m) as Hkey by apply Hsame.
  rewrite <- Hkey in Hx.
  destruct (IH (set_outstanding [] w1) x Hval1 (set_outstanding_reachable _ Hreach1)
              Hf1 Hx) as (Hn & (y & Hy & Hsame' & Hy0) & Hev & Hdel & Hrj).
  destruct (flush_passes env api n (set_outstanding [] w1)) as [[u w2] t2]. simpl in *.
  rewrite Hkey in Hn, Hy.
  split; [by rewrite !attempts_app, attempts_delivered, Hone, Hn|]. split.
  - exists y. split; [done|]. split; [|done]. by eapply same_request_trans.
  - split; [|split].
    + intros ev z [?|[(r & [= -> _] & _)%list_elem_of_fmap|?]%elem_of_app]%elem_of_app;
        eauto.
    + intros k [?|[(r & ? & _)%list_elem_of_fmap|?]%elem_of_app]%elem_of_app;
        [by eapply Hdel1|done|by eapply Hdel].
    + intros m' r [?|[(r' & ? & _)%list_elem_of_fmap|?]%elem_of_app]%elem_of_app;
        [eauto|done|eauto].
Qed.

Lemma server_500_rejecting : rejecting server_500.
Proof. intros n req. by eexists _, _, _. Qed.

(** C1 does not hold of the code.  Against a backend that rejects
    every attempt with a retryable status (and whose URL resolves the
    stored paths, so that the requests are made), a pending mutation is
    attempted once in each pass, for any number [n] of passes: it is never
    discarded (no [failed] event, no deletion) and is still in the store
    after the [n]-th pass.  For [n = 6] this is the sixth delivery that
    the retry budget of 5 should have prevented. *)
Theorem retry_budget_never_exhausted env api w m n :
  rejecting env → isRemote api = true → replayable env api (store w) →
  reachable w → flushing w = false →
  store w !! idempotencyKey m = Some m →
  attempts (idempotencyKey m) (trace_of (flush_passes env api n w)) = n ∧
  (∀ m' r, Attempt m' r ∈ trace_of (flush_passes env api n w) →
     ok r = false ∧ offline r = false ∧ status r ≠ 409%Z) ∧
  is_Some (store (world_of (flush_passes env api n w)) !! idempotencyKey m) ∧
  (∀ x, Emit "failed" x ∉ trace_of (flush_passes env api n w)) ∧
  (∀ k, Delete k ∉ trace_of (flush_passes env api n w)).
Proof.
  intros Hrej Hrem Hval Hreach Hf Hm.
  destruct (rejected_passes env api n Hrej Hrem w m Hval Hreach Hf Hm)
    as (Hn & (x & Hx & _) & Hev & Hdel & Hrj).
  split; [done|]. split; [done|]. split; [by exists x|]. split; [|done].
  intros y Hin. by apply Hev in Hin.
Qed.

Lemma retry_budget_never_exhausted_witness :
  attempts "k1" (trace_of (flush_passes server_500 api_remote 6 (world two_enqueued))) = 6 ∧
  is_Some (store (world_of (flush_passes server_500 api_remote 6 (world two_enqueued)))
             !! "k1").
Proof.
  destruct (retry_budget_never_exhausted server_500 api_remote (world two_enqueued)
    (mkMutation "k1" "POST" "/api/v1/tasks" (object "{title:x}")
                "2026-01-01T00:00:00.000Z" 0) 6) as (H1 & _ & H2 & _).
  - exact server_500_rejecting.
  - reflexivity.
  - apply (bool_decide_unpack _). vm_compute. exact I.
  - exists []. exact two_enqueued_reachable.
  - reflexivity.
  - vm_compute. reflexivity.
  - split; [exact H1 | exact H2].
Defined.

(** C2 does not hold of the code.  The record is stored with
    [retries = 0] by the first [enqueue], but the counter is not
    incremented in the store: after [n] passes in each of which the
    replay of the mutation was made and failed with a retryable status,
    the stored record still has [retries = 0], not [n]. *)
Theorem stored_retries_not_incremented env api w m n :
  rejecting env → isRemote api = true → replayable env api (store w) →
  reachable w → flushing w = false →
  store w !! idempotencyKey m = Some m →
  attempts (idempotencyKey m) (trace_of (flush_passes env api n w)) = n ∧
  ∃ x, store (world_of (flush_passes env api n w)) !! idempotencyKey m = Some x ∧
       same_request m x ∧ retries x = 0%Z.
Proof.
  intros Hrej Hrem Hval Hreach Hf Hm.
  destruct (rejected_passes env api n Hrej Hrem w m Hval Hreach Hf Hm) as (Hn & Hx & _).
  by split.
Qed.

Lemma stored_retries_not_incremented_witness :
  attempts "k2" (trace_of (flush_passes server_500 api_remote 4 (world two_enqueued))) = 4 ∧
  ∃ x, store (world_of (flush_passes server_500 api_remote 4 (world two_enqueued))) !! "k2"
         = Some x ∧ retries x = 0%Z.
Proof.
  destruct (stored_retries_not_incremented server_500 api_remote (world two_enqueued)
    (mkMutation "k2" "PATCH" "/api/v1/tasks/7" (object "{status:done}")
                "2026-01-01T00:00:01.000Z" 0) 4) as (H1 & x & Hx & _ & H0).
  - exact server_500_rejecting.
  - reflexivity.
  - apply (bool_decide_unpack _). vm_compute. exact I.
  - exists []. exact two_enqueued_reachable.
  - reflexivity.
  - vm_compute. reflexivity.
  - split; [exact H1|]. exists x. split; [exact Hx | exact H0].
Defined.

(** ** The scenarios of the specification, evaluated *)

(** [k1] enqueued, then a pass against a backend that accepts: the
    store is empty and [flushed] fired with the record. *)
Example scenario_success :
  let w := world_of (enqueue server_200 create_task init) in
  size (store w) = 1 ∧
  store (world_of (flush server_200 api_remote w)) = ∅ ∧
  filter (λ e, is_emit "flushed" e = true) (trace_of (flush server_200 api_remote w)) =
    [Emit "flushed" (mkMutation "k1" "POST" "/api/v1/tasks" (object "{title:x}")
                                "2026-01-01T00:00:00.000Z" 0)].
Proof. vm_compute. repeat split. Qed.

(** [k1] enqueued, then a pass answered by 409: the store is empty and
    [conflict] fired with the record. *)
Example scenario_conflict :
  let w := world_of (enqueue server_409 create_task init) in
  store (world_of (flush server_409 api_remote w)) = ∅ ∧
  filter (λ e, is_emit "conflict" e = true) (trace_of (flush server_409 api_remote w)) =
    [Emit "conflict" (mkMutation "k1" "POST" "/api/v1/tasks" (object "{title:x}")
                                 "2026-01-01T00:00:00.000Z" 0)].
Proof. vm_compute. repeat split. Qed.

(** [k2] enqueued, the backend answers 500 four times and then 200:
    after four passes the stored counter is 0 (not 4) and the fifth
    attempt is made without any wait; after the fifth pass the store is
    empty and [flushed] fired. *)
Example scenario_four_failures :
  let w := world_of (enqueue (failing_until 5) update_task init) in
  let w4 := world_of (flush_passes (failing_until 5) api_remote 4 w) in
  (retries <$> store w4 !! "k2") = Some 0%Z ∧
  filter (λ e, is_sleep e = true)
    (trace_of (flush_passes (failing_until 5) api_remote 5 w)) = [] ∧
  store (world_of (flush (failing_until 5) api_remote w4)) = ∅ ∧
  filter (λ e, is_emit "flushed" e = true)
    (trace_of (flush (failing_until 5) api_remote w4)) =
    [Emit "flushed" (mkMutation "k2" "PATCH" "/api/v1/tasks/7" (object "{status:done}")
                                "2026-01-01T00:00:00.000Z" 0)].
Proof. vm_compute. repeat split. Qed.

(** [k1] enqueued, then a pass while the network is down: the request
    fails, [_fetch] calls [enqueue], the record is put when [flush]
    resumes, and [flush] receives the offline result and returns; the
    [enqueued] event of the new record fires after that. *)
Example scenario_offline :
  let w := world_of (enqueue unreachable create_task init) in
  let old := mkMutation "k1" "POST" "/api/v1/tasks" (object "{title:x}")
                        "2026-01-01T00:00:00.000Z" 0 in
  let new := mkMutation "k1" "POST" "/api/v1/tasks" (object "{title:x}")
                        "2026-01-01T00:00:02.000Z" 0 in
  trace_of (flush unreachable api_remote w) =
    [GetAll [old]; Net (replay_request unreachable api_remote old) NetworkError;
     Start new; Put new; Attempt old (mkResult false 0 None false true)] ∧
  flushing (world_of (flush unreachable api_remote w)) = false ∧
  outstanding (world_of (flush unreachable api_remote w)) = [new] ∧
  trace_of (deliver (world_of (flush unreachable api_remote w))) = [Emit "enqueued" new].
Proof. vm_compute. repeat split. Qed.


(** * Further properties *)

(** ** The ledger: enqueue, getAll, remove, count *)

Lemma filter_none {A} (P : A → Prop) `{∀ x, Decision (P x)} (l : list A) :
  (∀ x, x ∈ l → ¬ P x) → filter P l = [].
Proof.
  induction l as [|x l IH]; intros Hl; [done|].
  rewrite filter_cons_False; [|apply Hl; by left].
  apply IH. intros y Hy. apply Hl. by right.
Qed.

Lemma filter_key_unique (l : list Mutation) x :
  NoDup (idempotencyKey <$> l) → x ∈ l →
  filter (λ y, idempotencyKey y = idempotencyKey x) l = [x].
Proof.
  induction l as [|y l IH]; intros Hnd Hx.
  { by apply elem_of_nil in Hx. }
  rewrite fmap_cons in Hnd. apply NoDup_cons in Hnd as [Hy Hnd].
  rewrite filter_cons. apply elem_of_cons in Hx as [->|Hx].
  - rewrite decide_True by done. f_equal.
    apply filter_none. intros z Hz Heq.
    apply Hy. rewrite <- Heq. by apply list_elem_of_fmap_2.
  - rewrite decide_False.
    + by apply IH.
    + intros Heq. apply Hy. rewrite Heq. by apply list_elem_of_fmap_2.
Qed.

Lemma index_le_enqueuedAt a b :
  index_le a b → String.le (enqueuedAt a) (enqueuedAt b).
Proof.
  unfold index_le, index_leb, String.le, String.leb.
  by destruct (String.compare (enqueuedAt a) (enqueuedAt b)).
Qed.

Lemma StronglySorted_weaken {A} (R S : relation A) l :
  (∀ x y, R x y → S x y) → StronglySorted R l → StronglySorted S l.
Proof.
  intros HRS. induction 1 as [|x l _ IH Hall]; constructor; [done|].
  eapply Forall_impl; [exact Hall|]. auto.
Qed.

(** X1.  [enqueue] writes by key: the record it returns is stored under
    the key of its argument, with the argument's method, path and body,
    with the argument's [enqueuedAt] when that is non-empty and the
    current time otherwise; every other key is untouched; [count] grows by
    one when the key is new and stays the same when it was present; and
    [getAll] then lists exactly one record with that key. *)
Theorem enqueue_replaces_by_key env m w :
  keyed (store w) →
  store (world_of (enqueue env m w)) !! idempotencyKey m
    = Some (result_of (enqueue env m w)) ∧
  same_request m (result_of (enqueue env m w)) ∧
  enqueuedAt (result_of (enqueue env m w))
    = (if truthy (enqueuedAt m) then enqueuedAt m else clock env (tick w)) ∧
  (∀ k, k ≠ idempotencyKey m →
     store (world_of (enqueue env m w)) !! k = store w !! k) ∧
  result_of (count (world_of (enqueue env m w)))
    = match store w !! idempotencyKey m with
      | Some _ => result_of (count w)
      | None => S (result_of (count w))
      end ∧
  filter (λ x, idempotencyKey x = idempotencyKey m)
    (result_of (getAll (world_of (enqueue env m w))))
    = [result_of (enqueue env m w)].
Proof.
  intros Hk. rewrite enqueue_run. unfold result_of, world_of, count, getAll. simpl.
  split; [apply lookup_insert_eq|]. split; [by repeat split|]. split; [done|].
  split; [by intros k Hne; rewrite lookup_insert_ne|]. split.
  - destruct (store w !! idempotencyKey m) eqn:Hm.
    + rewrite map_size_insert_Some; [done|by eexists].
    + by rewrite map_size_insert_None.
  - apply (filter_key_unique _ (stamped env m w)).
    + apply index_getAll_keys_NoDup. apply map_Forall_insert_2; [done|exact Hk].
    + apply elem_of_index_getAll. exists (idempotencyKey m). apply lookup_insert_eq.
Qed.

Lemma enqueue_replaces_by_key_witness :
  result_of (count (world_of (enqueue unreachable create_task (world two_enqueued)))) = 2.
Proof.
  destruct (enqueue_replaces_by_key unreachable create_task (world two_enqueued))
    as (_ & _ & _ & _ & H & _).
  - apply (bool_decide_unpack _). vm_compute. exact I.
  - rewrite H. vm_compute. reflexivity.
Defined.

(** X2.  [remove] deletes by key and only that key; removing an absent
    key changes nothing in the store, so removing twice is removing once;
    and removing the key of a mutation that was enqueued under a new key
    gives back the store as it was. *)
Theorem remove_by_key key w :
  store (world_of (remove key w)) !! key = None ∧
  (∀ k, k ≠ key → store (world_of (remove key w)) !! k = store w !! k) ∧
  (store w !! key = None → store (world_of (remove key w)) = store w) ∧
  store (world_of (remove key (world_of (remove key w))))
    = store (world_of (remove key w)) ∧
  (∀ env m, idempotencyKey m = key → store w !! key = None →
     store (world_of (remove key (world_of (enqueue env m w)))) = store w).
Proof.
  unfold world_of. simpl. split; [apply lookup_delete_eq|].
  split; [by intros k Hne; rewrite lookup_delete_ne|].
  split; [apply delete_id|]. split.
  - apply delete_id, lookup_delete_eq.
  - intros env m <- Hnone. rewrite enqueue_run. simpl.
    rewrite delete_insert_eq. by apply delete_id.
Qed.

Lemma remove_by_key_witness :
  store (world_of (remove "k1" (world_of (enqueue unreachable create_task init))))
    = store init.
Proof.
  destruct (remove_by_key "k1" init) as (_ & _ & _ & _ & H).
  apply H; reflexivity.
Defined.

(** X3.  [getAll] leaves the world as it is and returns every stored
    record exactly once, oldest first: the list has no duplicates, has
    [count] elements, contains a record exactly when the store holds it
    under its key, and is sorted by [enqueuedAt]. *)
Theorem getAll_lists_the_store w :
  keyed (store w) →
  world_of (getAll w) = w ∧
  (∀ m, m ∈ result_of (getAll w) ↔ store w !! idempotencyKey m = Some m) ∧
  NoDup (result_of (getAll w)) ∧
  length (result_of (getAll w)) = result_of (count w) ∧
  StronglySorted (λ a b, String.le (enqueuedAt a) (enqueuedAt b)) (result_of (getAll w)).
Proof.
  intros Hk. unfold world_of, result_of, getAll, count. simpl.
  split; [done|]. split; [|split; [|split]].
  - intros m. rewrite elem_of_index_getAll. split.
    + intros [k Hm]. by rewrite (Hk _ _ Hm).
    + eauto.
  - eapply NoDup_fmap_1. by apply index_getAll_keys_NoDup.
  - rewrite index_getAll_perm, length_fmap. apply length_map_to_list.
  - eapply StronglySorted_weaken; [|apply index_getAll_sorted].
    apply index_le_enqueuedAt.
Qed.

Lemma getAll_lists_the_store_witness :
  length (result_of (getAll (world two_enqueued))) = 2.
Proof.
  destruct (getAll_lists_the_store (world two_enqueued)) as (_ & _ & _ & H & _).
  - apply (bool_decide_unpack _). vm_compute. exact I.
  - rewrite H. vm_compute. reflexivity.
Defined.

(** ** More on one turn and on the loop *)

Lemma emitted_app t1 t2 : emitted (t1 ++ t2) = emitted t1 ++ emitted t2.
Proof. unfold emitted. apply omap_app. Qed.

Lemma backoff_wait_emitted m : emitted (backoff_wait m) = [].
Proof. unfold backoff_wait. by destruct (0 <? retries m)%Z. Qed.

Lemma same_request_replay env api a b :
  same_request a b → replay_request env api b = replay_request env api a.
Proof. intros (Hk & Hm & Hp & Hb). unfold replay_request. by rewrite Hk, Hm, Hp, Hb. Qed.

Section one_turn_more.
Context {env : Env} {api : ApiClient} {m : Mutation} {w : World}.
Context {c : Ctl} {w' : World} {t : list Effect}.
Hypothesis Hitem : item_outcome env api m w c w' t.

Lemma item_put_key x : Put x ∈ t → same_request m x.
Proof using Hitem.
  item_cases Hitem; in_trace; intuition (simplify_eq; by repeat split).
Qed.

Lemma item_emit_names ev x :
  Emit ev x ∈ t → ev ∈ ["enqueued"; "flushed"; "conflict"; "failed"].
Proof using Hitem.
  item_cases Hitem; in_trace; intuition (simplify_eq; repeat constructor).
Qed.
End one_turn_more.

Lemma drain_put_key env api l w c w' t x :
  drain_outcome env api l w c w' t → Put x ∈ t → ∃ m, m ∈ l ∧ same_request m x.
Proof.
  induction 1 as [|m0 ????? Hstop Hi|m0 ??????? Hi _ IH].
  - by intros ?%elem_of_nil.
  - intros Hin. exists m0. split; [by left|]. by apply (item_put_key Hi).
  - intros [Hin|Hin]%elem_of_app.
    + exists m0. split; [by left|]. by apply (item_put_key Hi).
    + destruct (IH Hin) as (m & Hm & Hs). exists m. split; [by right|done].
Qed.

Lemma drain_keys env api l w c w' t k :
  drain_outcome env api l w c w' t →
  is_Some (store w' !! k) → is_Some (store w !! k) ∨ k ∈ idempotencyKey <$> l.
Proof.
  induction 1 as [|m0 l w c w1 t1 Hstop Hi|m0 l w w1 t1 c w2 t2 Hi _ IH]; [auto|..];
    intros Hk; rewrite fmap_cons, elem_of_cons.
  - destruct (decide (k = idempotencyKey m0)) as [->|Hne]; [auto|].
    rewrite (item_frame Hi k Hne) in Hk. auto.
  - destruct (IH Hk) as [Hk1|Hk1]; [|auto].
    destruct (decide (k = idempotencyKey m0)) as [->|Hne]; [auto|].
    rewrite (item_frame Hi k Hne) in Hk1. auto.
Qed.

Lemma drain_emit_names env api l w c w' t ev x :
  drain_outcome env api l w c w' t → Emit ev x ∈ t →
  ev ∈ ["enqueued"; "flushed"; "conflict"; "failed"].
Proof.
  induction 1 as [|?????? Hstop Hi|???????? Hi _ IH].
  - by intros ?%elem_of_nil.
  - apply (item_emit_names Hi).
  - intros [Hin|Hin]%elem_of_app; [by apply (item_emit_names Hi _ x)|by apply IH].
Qed.

(** A pass, opened up: the loop over the snapshot, between the two
    writes of the guard. *)
Lemma flush_pass env api w :
  flushing w = false →
  ∃ c w' t,
    drain_outcome env api (index_getAll (store w)) (set_flushing true w) c w' t ∧
    flush env api w =
      (settled_of c, set_flushing false w', GetAll (index_getAll (store w)) :: t).
Proof.
  intros Hf. rewrite flush_idle by done.
  pose proof (drain_cases env api (index_getAll (store w)) (set_flushing true w)) as Hd.
  destruct (drain env api _ _) as [[c w'] t]. by exists c, w', t.
Qed.

(** ** What a pass sends and what it leaves *)

(** X4.  Every request a pass sends is the replay of a record that was
    in the store when the pass began: its method, path and body, and its
    key in the [Idempotency-Key] header.  A pass sends no request twice
    and a record has one request, so it sends at most one request per
    pending mutation, and at most as many requests as there are records.
    It puts only records that carry the request of a pending mutation, and
    never adds a key to the store. *)
Theorem flush_sends_replays env api w :
  keyed (store w) →
  (∀ req out, Net req out ∈ trace_of (flush env api w) →
     ∃ m, store w !! idempotencyKey m = Some m ∧
          req = build_request env api (method m) (path m)
                  (mkOpts (body m) None (idempotencyKey m)) ∧
          (idempotencyKey m ≠ "" →
           ("Idempotency-Key", idempotencyKey m) ∈ req_headers req)) ∧
  (∀ req, (requests_of req (trace_of (flush env api w)) ≤ 1)%nat) ∧
  (∀ m, (requests_of (replay_request env api m) (trace_of (flush env api w)) ≤ 1)%nat) ∧
  (requests (trace_of (flush env api w)) ≤ result_of (count w))%nat ∧
  (∀ x, Put x ∈ trace_of (flush env api w) →
     ∃ m, store w !! idempotencyKey m = Some m ∧ same_request m x) ∧
  (∀ k, is_Some (store (world_of (flush env api w)) !! k) → is_Some (store w !! k)).
Proof.
  intros Hk.
  assert (∀ m, m ∈ index_getAll (store w) → store w !! idempotencyKey m = Some m) as Hsnap.
  { intros m [k Hm]%elem_of_index_getAll. by rewrite (Hk _ _ Hm). }
  split; [|split; [by intros req; apply flush_requests_of|
                   split; [by intros m; apply flush_requests_of|]]];
    (destruct (flushing w) eqn:Hf;
     [rewrite flush_busy by done; unfold trace_of, world_of, result_of; simpl|]).
  - by intros ?? ?%elem_of_nil.
  - destruct (flush_pass env api w Hf) as (c & w' & t & Hd & ->).
    unfold trace_of. simpl.
    intros req out [?|Hin]%elem_of_cons; [done|].
    destruct (drain_net _ _ _ _ _ _ _ _ _ Hd Hin) as (m & Hm & ->).
    exists m. split; [by apply Hsnap|]. split; [done|].
    intros Hne. unfold replay_request, build_request, build_headers. simpl.
    apply truthy_spec in Hne. rewrite Hne.
    apply elem_of_cons. right. apply elem_of_app. right. by left.
  - split; [lia|]. split; [by intros ? ?%elem_of_nil|done].
  - destruct (flush_pass env api w Hf) as (c & w' & t & Hd & ->).
    unfold trace_of, world_of, result_of, count. simpl.
    split; [|split].
    + pose proof (drain_requests _ _ _ _ _ _ _ Hd) as Hr.
      rewrite index_getAll_perm, length_fmap, length_map_to_list in Hr. done.
    + intros x [?|Hin]%elem_of_cons; [done|].
      destruct (drain_put_key _ _ _ _ _ _ _ _ Hd Hin) as (m & Hm & Hs).
      exists m. split; [by apply Hsnap|done].
    + intros k Hs. destruct (drain_keys _ _ _ _ _ _ _ k Hd Hs) as [?|Hin]; [done|].
      apply list_elem_of_fmap in Hin as (m & -> & Hm). rewrite (Hsnap m Hm). by eexists.
Qed.

Lemma flush_sends_replays_witness :
  (requests_of (replay_request server_500 api_remote create_task)
     (trace_of (flush server_500 api_remote (world two_enqueued))) ≤ 1)%nat ∧
  requests (trace_of (flush server_500 api_remote (world two_enqueued))) = 2.
Proof.
  destruct (flush_sends_replays server_500 api_remote (world two_enqueued))
    as (_ & _ & H & _).
  - apply (bool_decide_unpack _). vm_compute. exact I.
  - split; [apply H|]. vm_compute. reflexivity.
Defined.

Lemma drain_stable env api l w c w' t k m :
  drain_outcome env api l w c w' t →
  (∀ x, x ∈ l → idempotencyKey x = k → same_request m x) →
  stable k m (store w) →
  stable k m (store w') ∧
  (∀ m' res, Attempt m' res ∈ t → idempotencyKey m' = k → same_request m m').
Proof.
  induction 1 as [|m0 l w c w1 t1 Hstop Hi|m0 l w w1 t1 c w2 t2 Hi _ IH]; intros Hl Hs.
  - split; [done|]. by intros ?? ?%elem_of_nil.
  - split.
    + intros x Hx. destruct (decide (k = idempotencyKey m0)) as [->|Hne].
      * destruct (item_stored Hi x Hx) as [Hx'|Hx']; [by apply Hs|].
        eapply same_request_trans; [|exact Hx']. apply Hl; [by left|done].
      * rewrite (item_frame Hi k Hne) in Hx. by apply Hs.
    + intros m' res Hin Hk. apply (item_attempt_own Hi) in Hin as ->.
      apply Hl; [by left|done].
  - assert (stable k m (store w1)) as Hs1.
    { intros x Hx. destruct (decide (k = idempotencyKey m0)) as [->|Hne].
      * destruct (item_stored Hi x Hx) as [Hx'|Hx']; [by apply Hs|].
        eapply same_request_trans; [|exact Hx']. apply Hl; [by left|done].
      * rewrite (item_frame Hi k Hne) in Hx. by apply Hs. }
    destruct IH as [IH1 IH2]; [|done|].
    { intros x Hx. apply Hl. by right. }
    split; [done|].
    intros m' res [Hin|Hin]%elem_of_app Hk; [|by apply (IH2 m' res)].
    apply (item_attempt_own Hi) in Hin as ->. apply Hl; [by left|done].
Qed.

Lemma flush_stable env api w k m :
  keyed (store w) → stable k m (store w) →
  stable k m (store (world_of (flush env api w))) ∧
  (∀ m' res, Attempt m' res ∈ trace_of (flush env api w) →
     idempotencyKey m' = k → same_request m m').
Proof.
  intros Hk Hs. destruct (flushing w) eqn:Hf.
  { rewrite flush_busy by done. split; [done|]. by intros ?? ?%elem_of_nil. }
  destruct (flush_pass env api w Hf) as (c & w' & t & Hd & ->).
  unfold trace_of, world_of. simpl.
  destruct (drain_stable _ _ _ _ _ _ _ k m Hd) as [H1 H2]; [|done|].
  { intros x [k' Hx]%elem_of_index_getAll Hkx. apply Hs.
    by rewrite <- Hkx, (Hk _ _ Hx). }
  split; [done|]. intros m' res [?|Hin]%elem_of_cons; [done|]. by apply (H2 m' res).
Qed.

(** X5.  The key, method, path and body of a mutation are the same in
    every delivery attempt: over any number of passes against any
    backend, each attempt made for the key of a pending mutation is made
    for a record with the same request, and so sends the same request
    (same [Idempotency-Key] header included) as the first attempt would. *)
Theorem idempotency_key_stable env api w m n :
  keyed (store w) →
  store w !! idempotencyKey m = Some m →
  ∀ m' res,
    Attempt m' res ∈ trace_of (flush_passes env api n w) →
    idempotencyKey m' = idempotencyKey m →
    same_request m m' ∧
    build_request env api (method m') (path m')
      (mkOpts (body m') None (idempotencyKey m'))
    = build_request env api (method m) (path m)
        (mkOpts (body m) None (idempotencyKey m)).
Proof.
  intros Hk Hm.
  assert (stable (idempotencyKey m) m (store w)) as Hs.
  { intros x Hx. rewrite Hm in Hx. injection Hx as <-. apply same_request_refl. }
  clear Hm. revert w Hk Hs. induction n as [|n IH]; intros w Hk Hs m' res Hin Hkey.
  { by apply elem_of_nil in Hin. }
  rewrite flush_passes_S in Hin.
  destruct (flush_stable env api w _ m Hk Hs) as [Hs1 Ha1].
  pose proof (flush_keyed env api w Hk) as Hk1.
  destruct (flush env api w) as [[r1 w1] t1]. unfold trace_of, world_of in *. simpl in *.
  specialize (IH (set_outstanding [] w1) Hk1 Hs1 m' res).
  destruct (flush_passes env api n (set_outstanding [] w1)) as [[u w2] t2]. simpl in *.
  apply elem_of_app in Hin as [Hin|[Hin|Hin]%elem_of_app].
  - pose proof (Ha1 m' res Hin Hkey) as Hsame. split; [done|].
    by apply (same_request_replay env api).
  - by apply list_elem_of_fmap in Hin as (r & ? & _).
  - by apply IH.
Qed.

Lemma idempotency_key_stable_witness :
  same_request
    (mkMutation "k1" "POST" "/api/v1/tasks" (object "{title:x}") "2026-01-01T00:00:00.000Z" 0)
    (mkMutation "k1" "POST" "/api/v1/tasks" (object "{title:x}") "2026-01-01T00:00:00.000Z" 0).
Proof.
  assert (keyed (store (world two_enqueued))) as Hk.
  { apply (bool_decide_unpack _). vm_compute. exact I. }
  assert (store (world two_enqueued) !! "k1" =
    Some (mkMutation "k1" "POST" "/api/v1/tasks" (object "{title:x}")
                     "2026-01-01T00:00:00.000Z" 0)) as Hm.
  { vm_compute. reflexivity. }
  destruct (idempotency_key_stable server_500 api_remote (world two_enqueued)
    (mkMutation "k1" "POST" "/api/v1/tasks" (object "{title:x}")
                "2026-01-01T00:00:00.000Z" 0) 3 Hk Hm
    (mkMutation "k1" "POST" "/api/v1/tasks" (object "{title:x}")
                "2026-01-01T00:00:00.000Z" 0)
    (mkResult false 500 (Some "{}") false false)) as [H _].
  - apply (bool_decide_unpack _). vm_compute. exact I.
  - reflexivity.
  - exact H.
Defined.

(** ** A pass against a backend that accepts *)

Lemma item_accepted env api m w c w' t :
  accepting env → isRemote api = true →
  valid_url env (path m) (baseUrl api) = true →
  (retries m < MAX_RETRIES)%Z →
  item_outcome env api m w c w' t →
  c = Continue ∧ store w' = delete (idempotencyKey m) (store w) ∧
  emitted t = [("flushed", m)] ∧ requests t = 1.
Proof.
  intros Hacc Hrem Hval Hlt Hi.
  destruct Hi as [?|res w1 t1 c w2 t2 _ Hf Hr|_ _ Hinv]; [lia| |congruence].
  destruct (Hacc (tick w) (build_request env api (method m) (path m)
              (mkOpts (body m) None (idempotencyKey m))))
    as (st & ct & js & Hresp & Hnf & Hok).
  destruct Hf as [?|st' ct' js' w1 _ _ Hresp' _ Hs Hg|w1 _ _ Hfail|at_ record w1 _ _ Hfail];
    try congruence.
  rewrite Hresp' in Hresp. injection Hresp as -> -> ->.
  destruct Hr as [Hok'|Hok' Hoff|Hok' Hoff Hst|w2 Hok' Hoff Hst Hs2 Hg2];
    simpl in *; try congruence.
  split; [done|]. split; [by rewrite Hs|].
  rewrite !emitted_app, !requests_app, backoff_wait_emitted, backoff_wait_requests.
  done.
Qed.

Lemma drain_accepted env api l w c w' t :
  accepting env → isRemote api = true →
  Forall (λ m, valid_url env (path m) (baseUrl api) = true ∧
               (retries m < MAX_RETRIES)%Z) l →
  drain_outcome env api l w c w' t →
  c = Continue ∧
  (∀ k, k ∈ idempotencyKey <$> l → store w' !! k = None) ∧
  emitted t = (λ m, ("flushed", m)) <$> l ∧
  requests t = length l.
Proof.
  intros Hacc Hrem Hall Hd.
  induction Hd as [|m0 l w c w1 t1 Hstop Hi|m0 l w w1 t1 c w2 t2 Hi Hd IH].
  - split; [done|]. split; [|done]. by intros k ?%elem_of_nil.
  - apply Forall_cons in Hall as [[Hval Hlt] _].
    by destruct (item_accepted _ _ _ _ _ _ _ Hacc Hrem Hval Hlt Hi) as [? _].
  - apply Forall_cons in Hall as [[Hval Hlt] Hall].
    destruct (item_accepted _ _ _ _ _ _ _ Hacc Hrem Hval Hlt Hi) as (_ & Hs & He & Hr).
    destruct (IH Hall) as (IHc & IHs & IHe & IHr).
    split; [done|]. split; [|split].
    + intros k Hk. destruct (decide (k ∈ idempotencyKey <$> l)) as [Hin|Hnin].
      * by apply IHs.
      * rewrite (drain_frame _ _ _ _ _ _ Hd Hnin).
        rewrite fmap_cons in Hk. apply elem_of_cons in Hk as [->|?]; [|done].
        rewrite Hs. apply lookup_delete_eq.
    + rewrite emitted_app, He, IHe. done.
    + rewrite requests_app, Hr, IHr. done.
Qed.

Lemma reachable_attemptable env api w :
  reachable w → replayable env api (store w) →
  Forall (λ m, valid_url env (path m) (baseUrl api) = true ∧
               (retries m < MAX_RETRIES)%Z) (index_getAll (store w)).
Proof.
  intros Hreach Hval. destruct (reachable_ledger _ Hreach) as [Hk Hz].
  apply Forall_forall. intros m [k Hm]%elem_of_index_getAll.
  split; [by apply (Hval _ _ Hm)|].
  apply Hz in Hm. simpl in Hm. rewrite Hm. done.
Qed.

(** X6.  From a reachable ledger, a pass against a backend that accepts
    every request, and whose URL resolves the stored paths, empties the
    store: it sends exactly one request per pending mutation, emits
    exactly one [flushed] event per mutation, in [getAll] order and
    nothing else, is fulfilled, and ends with the guard cleared. *)
Theorem accepted_pass_drains env api w :
  accepting env → isRemote api = true → replayable env api (store w) →
  reachable w → flushing w = false →
  result_of (flush env api w) = Fulfilled tt ∧
  store (world_of (flush env api w)) = ∅ ∧
  flushing (world_of (flush env api w)) = false ∧
  emitted (trace_of (flush env api w)) = (λ m, ("flushed", m)) <$> result_of (getAll w) ∧
  requests (trace_of (flush env api w)) = result_of (count w).
Proof.
  intros Hacc Hrem Hval Hreach Hf.
  destruct (reachable_ledger _ Hreach) as [Hk Hz].
  pose proof (reachable_attemptable env api w Hreach Hval) as Hall.
  pose proof (flush_clears_guard env api w Hf) as Hg.
  destruct (flush_pass env api w Hf) as (c & w' & t & Hd & Heq).
  rewrite Heq in *. clear Heq.
  destruct (drain_accepted _ _ _ _ _ _ _ Hacc Hrem Hall Hd) as (-> & Hs & He & Hr).
  split; [done|]. split; [|split; [done|]].
  - unfold world_of. simpl.
    apply map_eq. intros k. rewrite lookup_empty.
    destruct (store w !! k) as [x|] eqn:Hx.
    + apply Hs. rewrite <- (Hk _ _ Hx). apply list_elem_of_fmap_2.
      apply elem_of_index_getAll. eauto.
    + destruct (store w' !! k) eqn:Hx'; [|done].
      destruct (drain_keys _ _ _ _ _ _ _ k Hd) as [[? ?]|Hin];
        [by eexists|simpl in *; congruence|].
      rewrite <- Hx'. by apply Hs.
  - unfold trace_of, result_of, getAll, count. simpl.
    split; [done|].
    rewrite Hr, index_getAll_perm, length_fmap. apply length_map_to_list.
Qed.

Lemma server_200_accepting : accepting server_200.
Proof. intros n req. by eexists _, _, _. Qed.

Lemma accepted_pass_drains_witness :
  store (world_of (flush server_200 api_remote (world two_enqueued))) = ∅ ∧
  requests (trace_of (flush server_200 api_remote (world two_enqueued))) = 2.
Proof.
  destruct (accepted_pass_drains server_200 api_remote (world two_enqueued))
    as (_ & H1 & _ & _ & H2).
  - exact server_200_accepting.
  - reflexivity.
  - apply (bool_decide_unpack _). vm_compute. exact I.
  - exists []. exact two_enqueued_reachable.
  - reflexivity.
  - split; [exact H1|]. rewrite H2. vm_compute. reflexivity.
Defined.

(** ** A pass while the network is down *)

Lemma item_failed env api m w c w' t :
  failing env → isRemote api = true →
  valid_url env (path m) (baseUrl api) = true →
  (retries m < MAX_RETRIES)%Z →
  item_outcome env api m w c w' t →
  c = Break ∧ requests t = 1 ∧
  (∀ m' res, Attempt m' res ∈ t → m' = m ∧ res = mkResult false 0 None false true) ∧
  (is_Some (store w !! idempotencyKey m) → is_Some (store w' !! idempotencyKey m)).
Proof.
  intros Hfail Hrem Hval Hlt Hi.
  destruct Hi as [?|res w1 t1 c w2 t2 _ Hf Hr|_ _ Hinv]; [lia| |congruence].
  pose proof (Hfail (tick w) (build_request env api (method m) (path m)
              (mkOpts (body m) None (idempotencyKey m)))) as Hnf.
  destruct Hf as [?|st' ct' js' w1 _ _ Hresp' Hnf' Hs Hg|w1 _ _ _ _ Hs Hg
                  |at_ record w1 _ _ _ _ _ _ _ _ _ _ Hs Hg];
    try congruence.
  - destruct Hr; simpl in *; try congruence.
    rewrite !requests_app, backoff_wait_requests. split; [done|]. split; [done|].
    split; [|by rewrite Hs].
    intros m' res. in_trace; intuition (simplify_eq; done).
  - destruct Hr; simpl in *; try congruence.
    rewrite !requests_app, backoff_wait_requests. split; [done|]. split; [done|].
    split; [|by rewrite Hs, lookup_insert_eq].
    intros m' res. in_trace; intuition (simplify_eq; done).
Qed.

(** X7.  From a reachable ledger that is not empty, a pass on a network
    where every request fails sends exactly one request, for the oldest
    mutation (whose path the base URL resolves), and stops: the only
    attempt is the one for that mutation and it ends offline, every other
    pending mutation is left as it was, no key is added or lost, and the
    guard is cleared. *)
Theorem offline_pass_probes_once env api w a rest :
  failing env → isRemote api = true →
  reachable w → flushing w = false →
  result_of (getAll w) = a :: rest →
  valid_url env (path a) (baseUrl api) = true →
  requests (trace_of (flush env api w)) = 1 ∧
  (∀ req out, Net req out ∈ trace_of (flush env api w) →
     req = replay_request env api a) ∧
  (∀ m' res, Attempt m' res ∈ trace_of (flush env api w) →
     m' = a ∧ res = mkResult false 0 None false true) ∧
  (∀ b, b ∈ rest → store (world_of (flush env api w)) !! idempotencyKey b = Some b) ∧
  (∀ k, is_Some (store (world_of (flush env api w)) !! k) ↔ is_Some (store w !! k)) ∧
  flushing (world_of (flush env api w)) = false.
Proof.
  intros Hfail Hrem Hreach Hf Hl Hval.
  destruct (reachable_ledger _ Hreach) as [Hk Hz].
  unfold result_of, getAll in Hl. simpl in Hl.
  pose proof (index_getAll_keys_NoDup _ Hk) as Hnd.
  assert (∀ m, m ∈ a :: rest → store w !! idempotencyKey m = Some m) as Hsnap.
  { intros m Hm. rewrite <- Hl in Hm. apply elem_of_index_getAll in Hm as [k Hm].
    by rewrite (Hk _ _ Hm). }
  assert ((retries a < MAX_RETRIES)%Z) as Hlt.
  { rewrite (Hz _ _ (Hsnap a ltac:(by left))). done. }
  pose proof (flush_clears_guard env api w Hf) as Hg.
  destruct (flush_pass env api w Hf) as (c & w' & t & Hd & Heq).
  rewrite Heq in *. clear Heq. rewrite Hl in Hd, Hnd.
  assert (item_outcome env api a (set_flushing true w) Break w' t) as Hi.
  { inversion Hd as [|?????? Hstop Hi|???????? Hi Hd']; subst.
    - by destruct (item_failed _ _ _ _ _ _ _ Hfail Hrem Hval Hlt Hi) as [-> _].
    - by destruct (item_failed _ _ _ _ _ _ _ Hfail Hrem Hval Hlt Hi) as [? _]. }
  destruct (item_failed _ _ _ _ _ _ _ Hfail Hrem Hval Hlt Hi) as (_ & Hr & Ha & Hkeep).
  unfold trace_of, world_of in *. simpl in *.
  split; [done|]. split; [|split; [|split; [|split; [|done]]]].
  - intros req out [?|Hin]%elem_of_cons; [done|]. by apply (item_net Hi _ out).
  - intros m' res [?|Hin]%elem_of_cons; [done|]. by apply Ha.
  - intros b Hb. rewrite (item_frame Hi).
    + apply Hsnap. by right.
    + apply NoDup_cons in Hnd as [Hna _].
      intros Heq. apply Hna. rewrite <- Heq. by apply list_elem_of_fmap_2.
  - intros k. destruct (decide (k = idempotencyKey a)) as [->|Hne].
    + split; [|done]. intros _. rewrite (Hsnap a); [by eexists|by left].
    + by rewrite (item_frame Hi k Hne).
Qed.

Lemma unreachable_failing : failing unreachable.
Proof. by intros n req. Qed.

Lemma offline_pass_probes_once_witness :
  requests (trace_of (flush unreachable api_remote (world two_enqueued))) = 1.
Proof.
  destruct (offline_pass_probes_once unreachable api_remote (world two_enqueued)
    (mkMutation "k1" "POST" "/api/v1/tasks" (object "{title:x}")
                "2026-01-01T00:00:00.000Z" 0)
    [mkMutation "k2" "PATCH" "/api/v1/tasks/7" (object "{status:done}")
                "2026-01-01T00:00:01.000Z" 0]) as [H _].
  - exact unreachable_failing.
  - reflexivity.
  - exists []. exact two_enqueued_reachable.
  - reflexivity.
  - vm_compute. reflexivity.
  - reflexivity.
  - exact H.
Defined.

(** X8.  When the pass stops on a network failure of its oldest
    mutation (a write with a key, whose path the base URL resolves),
    [_fetch] has called [enqueue] for that mutation anew: when the pass
    ends, the store holds it with [retries = 0] and with [enqueuedAt] set
    to the time of the failure.  It thereby loses its place: a mutation
    that was enqueued after it, but before that time, now comes before it
    in [getAll]. *)
Theorem offline_pass_restamps env api w a rest :
  failing env → isRemote api = true →
  reachable w → flushing w = false →
  result_of (getAll w) = a :: rest →
  valid_url env (path a) (baseUrl api) = true →
  method a ≠ "GET" → idempotencyKey a ≠ "" → clock env (S (tick w)) ≠ "" →
  store (world_of (flush env api w)) =
    <[idempotencyKey a :=
        mkMutation (idempotencyKey a) (method a) (path a) (body a)
                   (clock env (S (tick w))) 0]> (store w) ∧
  (∀ b, b ∈ rest → (enqueuedAt b <? clock env (S (tick w)))%string = true →
     ∃ l1 l2 l3,
       result_of (getAll (world_of (flush env api w))) =
         l1 ++ b :: l2 ++
         mkMutation (idempotencyKey a) (method a) (path a) (body a)
                    (clock env (S (tick w))) 0 :: l3).
Proof.
  intros Hfail Hrem Hreach Hf Hl Hval Hv Hkey Hc.
  destruct (reachable_ledger _ Hreach) as [Hk Hz].
  unfold result_of, getAll in Hl. simpl in Hl.
  pose proof (index_getAll_keys_NoDup _ Hk) as Hnd. rewrite Hl in Hnd.
  assert (∀ m, m ∈ a :: rest → store w !! idempotencyKey m = Some m) as Hsnap.
  { intros m Hm. rewrite <- Hl in Hm. apply elem_of_index_getAll in Hm as [k Hm].
    by rewrite (Hk _ _ Hm). }
  assert (retries a = 0%Z) as Ha0.
  { apply (Hz _ _ (Hsnap a ltac:(by left))). }
  assert (store (world_of (flush env api w)) =
    <[idempotencyKey a :=
        mkMutation (idempotencyKey a) (method a) (path a) (body a)
                   (clock env (S (tick w))) 0]> (store w)) as Hstore.
  { rewrite flush_idle, Hl, drain_cons, flush_item_attempt by (done || by rewrite Ha0).
    destruct (await_failed_write env api (method a) (path a)
                (mkOpts (body a) None (idempotencyKey a)) (set_flushing true w))
      as [_ ->]; try done.
    unfold stamped, world_of. simpl. apply truthy_spec in Hc. by rewrite Hc. }
  split; [done|].
  intros b Hb Hlt. unfold result_of, getAll. simpl. rewrite Hstore.
  set (a' := mkMutation (idempotencyKey a) (method a) (path a) (body a)
                        (clock env (S (tick w))) 0).
  assert (idempotencyKey b ≠ idempotencyKey a) as Hne.
  { apply NoDup_cons in Hnd as [Hna _]. intros Heq. apply Hna. rewrite <- Heq.
    by apply list_elem_of_fmap_2. }
  assert (String.compare (enqueuedAt b) (enqueuedAt a') = Lt) as Hcmp.
  { unfold String.ltb in Hlt. simpl. by destruct (String.compare _ _). }
  apply (sorted_split index_le).
  - apply index_getAll_sorted.
  - apply elem_of_index_getAll. exists (idempotencyKey b).
    rewrite lookup_insert_ne by done. apply Hsnap. by right.
  - apply elem_of_index_getAll. exists (idempotencyKey a). apply lookup_insert_eq.
  - intros ->. by apply Hne.
  - by apply index_le_earlier.
Qed.

Lemma offline_pass_restamps_witness :
  store (world_of (flush unreachable api_remote (world two_enqueued))) !! "k1" =
    Some (mkMutation "k1" "POST" "/api/v1/tasks" (object "{title:x}")
                     "2026-01-01T00:00:03.000Z" 0).
Proof.
  destruct (offline_pass_restamps unreachable api_remote (world two_enqueued)
    (mkMutation "k1" "POST" "/api/v1/tasks" (object "{title:x}")
                "2026-01-01T00:00:00.000Z" 0)
    [mkMutation "k2" "PATCH" "/api/v1/tasks/7" (object "{status:done}")
                "2026-01-01T00:00:01.000Z" 0]) as [H _].
  - exact unreachable_failing.
  - reflexivity.
  - exists []. exact two_enqueued_reachable.
  - reflexivity.
  - vm_compute. reflexivity.
  - reflexivity.
  - discriminate.
  - discriminate.
  - vm_compute. discriminate.
  - rewrite H. vm_compute. reflexivity.
Defined.

(** ** Retries, as the store sees them *)

Lemma stamped_bump_id env m w :
  retries m = 0%Z → enqueuedAt m ≠ "" → stamped env (bump m) w = m.
Proof.
  intros Hr He. unfold stamped, bump. simpl.
  apply truthy_spec in He. rewrite He. destruct m; simpl in *. by subst.
Qed.

Lemma item_rejected_same env api m w c w' t :
  rejecting env → isRemote api = true →
  retries m = 0%Z → enqueuedAt m ≠ "" →
  store w !! idempotencyKey m = Some m →
  item_outcome env api m w c w' t →
  store w' = store w.
Proof.
  intros Hrej Hrem Hr He Hm Hi.
  destruct Hi as [?|res w1 t1 c w2 t2 _ Hf Hro|_ _ _];
    [unfold MAX_RETRIES in *; lia| |done].
  destruct (Hrej (tick w) (build_request env api (method m) (path m)
              (mkOpts (body m) None (idempotencyKey m))))
    as (st & ct & js & Hresp & Hnf & Hok & H409).
  destruct Hf as [?|st' ct' js' w1 _ _ Hresp' _ Hs Hg|w1 _ _ Hfail|at_ record w1 _ _ Hfail];
    try congruence.
  rewrite Hresp' in Hresp. injection Hresp as -> -> ->.
  destruct Hro as [Hok'|Hok' Hoff|Hok' Hoff Hst|w2 Hok' Hoff Hst Hs2 Hg2];
    simpl in *; try congruence.
  rewrite Hs2, Hs, stamped_bump_id by done. by apply insert_id.
Qed.

Lemma drain_rejected_same env api l w c w' t :
  rejecting env → isRemote api = true →
  Forall (λ m, retries m = 0%Z ∧ enqueuedAt m ≠ "" ∧
               store w !! idempotencyKey m = Some m) l →
  drain_outcome env api l w c w' t →
  store w' = store w.
Proof.
  intros Hrej Hrem Hall Hd.
  induction Hd as [|m0 l w c w1 t1 Hstop Hi|m0 l w w1 t1 c w2 t2 Hi Hd IH]; [done|..].
  - apply Forall_cons in Hall as [(Hr & He & Hm) _].
    by apply (item_rejected_same _ _ _ _ _ _ _ Hrej Hrem Hr He Hm Hi).
  - apply Forall_cons in Hall as [(Hr & He & Hm) Hall].
    pose proof (item_rejected_same _ _ _ _ _ _ _ Hrej Hrem Hr He Hm Hi) as Hs.
    rewrite IH; [done|]. eapply Forall_impl; [exact Hall|].
    intros x. by rewrite Hs.
Qed.

(** X9.  Against a backend that rejects every attempt with a retryable
    status, a pass leaves the store exactly as it found it, and so does
    any number of passes: no counter advances, no record moves.  (The
    records are assumed to carry a non-empty [enqueuedAt], as every record
    stamped by a real clock does.) *)
Theorem rejected_passes_change_nothing env api w n :
  rejecting env → isRemote api = true →
  reachable w → flushing w = false →
  map_Forall (λ _ x, enqueuedAt x ≠ "") (store w) →
  store (world_of (flush_passes env api n w)) = store w ∧
  flushing (world_of (flush_passes env api n w)) = false.
Proof.
  intros Hrej Hrem. revert w. induction n as [|n IH]; intros w Hreach Hf He.
  { done. }
  rewrite flush_passes_S.
  pose proof (flush_reachable env api w Hreach) as Hreach1.
  pose proof (flush_clears_guard env api w Hf) as Hf1.
  assert (store (world_of (flush env api w)) = store w) as Hs.
  { destruct (reachable_ledger _ Hreach) as [Hk Hz].
    destruct (flush_pass env api w Hf) as (c & w' & t & Hd & ->).
    unfold world_of. simpl.
    apply (drain_rejected_same _ _ _ _ _ _ _ Hrej Hrem) in Hd; [done|].
    apply Forall_forall. intros m [k Hm]%elem_of_index_getAll. simpl.
    split; [by apply (Hz _ _ Hm)|]. split; [by apply (He _ _ Hm)|].
    by rewrite (Hk _ _ Hm). }
  destruct (flush env api w) as [[r1 w1] t1]. unfold world_of in *. simpl in *.
  destruct (IH (set_outstanding [] w1) (set_outstanding_reachable _ Hreach1) Hf1)
    as [IH1 IH2]; [simpl; by rewrite Hs|].
  destruct (flush_passes env api n (set_outstanding [] w1)) as [[u w2] t2]. simpl in *.
  split; [congruence|done].
Qed.

Lemma rejected_passes_change_nothing_witness :
  store (world_of (flush_passes server_500 api_remote 3 (world two_enqueued)))
    = store (world two_enqueued).
Proof.
  destruct (rejected_passes_change_nothing server_500 api_remote (world two_enqueued) 3)
    as [H _].
  - exact server_500_rejecting.
  - reflexivity.
  - exists []. exact two_enqueued_reachable.
  - reflexivity.
  - apply (bool_decide_unpack _). vm_compute. exact I.
  - exact H.
Defined.

(** ** A base URL that does not parse *)

Lemma drain_thrown env api l w c w' t :
  drain_outcome env api l w c w' t → c = Throw →
  NoDup (idempotencyKey <$> l) →
  ∃ m, m ∈ l ∧ isRemote api = true ∧ valid_url env (path m) (baseUrl api) = false ∧
       ∀ r, Attempt m r ∉ t.
Proof.
  induction 1 as [|m0 l w c w1 t1 Hstop Hi|m0 l w w1 t1 c w2 t2 Hi Hd IH];
    intros Hc Hnd; [done|..].
  - exists m0. split; [by left|].
    destruct Hi as [?|res w1' t1' c' w2' t2' _ Hf Hr|_ Hrem Hinv];
      [discriminate Hc|by destruct Hr|].
    split; [done|]. split; [done|]. intros r. unfold backoff_wait.
    destruct (0 <? retries m0)%Z; rewrite ?elem_of_cons, elem_of_nil; intuition congruence.
  - rewrite fmap_cons in Hnd. apply NoDup_cons in Hnd as [Hk0 Hnd].
    destruct (IH Hc Hnd) as (m & Hm & Hrem & Hinv & Hno).
    exists m. split; [by right|]. split; [done|]. split; [done|].
    intros r [Hin|Hin]%elem_of_app; [|by apply (Hno r)].
    apply (item_attempt_own Hi) in Hin as ->.
    by apply Hk0, list_elem_of_fmap_2.
Qed.

(** X23.  A base URL on which [new URL] throws.  When the path of the
    oldest pending mutation does not resolve against the base URL, the
    pass is rejected right after [getAll]: no request is sent, no attempt
    is made, nothing is lost, and the world is as before (the guard was
    set and is cleared again by [finally]).  Conversely, a pass from a
    reachable ledger is rejected only for this reason: a backend is
    configured, some pending mutation has a path that does not resolve,
    that mutation is not attempted, and the guard is cleared all the
    same. *)
Theorem unresolvable_url_rejects env api w :
  reachable w → flushing w = false →
  (∀ a rest, isRemote api = true → result_of (getAll w) = a :: rest →
     valid_url env (path a) (baseUrl api) = false →
     flush env api w = (Rejected, w, [GetAll (a :: rest)])) ∧
  (result_of (flush env api w) = Rejected →
     isRemote api = true ∧
     flushing (world_of (flush env api w)) = false ∧
     ∃ m, store w !! idempotencyKey m = Some m ∧
          valid_url env (path m) (baseUrl api) = false ∧
          ∀ r, Attempt m r ∉ trace_of (flush env api w)).
Proof.
  intros Hreach Hf. destruct (reachable_ledger _ Hreach) as [Hk Hz]. split.
  - intros a rest Hrem Hl Hinv. unfold result_of, getAll in Hl. simpl in Hl.
    assert (retries a = 0%Z) as Ha0.
    { assert (a ∈ index_getAll (store w)) as [k Ha]%elem_of_index_getAll
        by (rewrite Hl; by left).
      by apply (Hz _ _ Ha). }
    rewrite flush_idle, Hl, drain_cons, flush_item_attempt by (done || by rewrite Ha0).
    rewrite await_quiet; rewrite _fetch_invalid by done; [|done].
    unfold backoff_wait. rewrite Ha0. simpl.
    destruct w as [s f n o]. simpl in Hf. by subst f.
  - intros Hrej. pose proof (flush_clears_guard env api w Hf) as Hg.
    destruct (flush_pass env api w Hf) as (c & w' & t & Hd & Heq).
    rewrite Heq in *. unfold result_of, trace_of in *. simpl in *.
    assert (c = Throw) as -> by (by destruct c).
    destruct (drain_thrown _ _ _ _ _ _ _ Hd eq_refl (index_getAll_keys_NoDup _ Hk))
      as (m & [k Hm]%elem_of_index_getAll & Hrem & Hinv & Hno).
    split; [done|]. split; [done|].
    exists m. split; [by rewrite (Hk _ _ Hm)|]. split; [done|].
    intros r [?|?]%elem_of_cons; [done|]. by apply (Hno r).
Qed.

Lemma unresolvable_url_rejects_witness :
  flush server_200 api_relative (world two_enqueued) =
    (Rejected, world two_enqueued, [GetAll (index_getAll (store (world two_enqueued)))]).
Proof.
  destruct (unresolvable_url_rejects server_200 api_relative (world two_enqueued))
    as [H _].
  - exists []. exact two_enqueued_reachable.
  - reflexivity.
  - apply (H (mkMutation "k1" "POST" "/api/v1/tasks" (object "{title:x}")
                         "2026-01-01T00:00:00.000Z" 0)
             [mkMutation "k2" "PATCH" "/api/v1/tasks/7" (object "{status:done}")
                         "2026-01-01T00:00:01.000Z" 0]); reflexivity.
Defined.

(** ** What a pass never does *)

Lemma item_fresh_record env api m w c w' t :
  retries m = 0%Z → item_outcome env api m w c w' t →
  (∀ ms, Sleep ms ∉ t) ∧ (∀ x, Emit "failed" x ∉ t).
Proof.
  intros Hr Hi. split.
  - intros ms. item_cases Hi; [unfold MAX_RETRIES in *; lia|..];
      unfold backoff_wait; rewrite Hr; simpl;
      rewrite ?elem_of_cons, ?elem_of_nil; intuition congruence.
  - intros x. item_cases Hi; [unfold MAX_RETRIES in *; lia|..];
      unfold backoff_wait; rewrite Hr; simpl;
      rewrite ?elem_of_cons, ?elem_of_nil; intuition congruence.
Qed.

Lemma drain_fresh_records env api l w c w' t :
  Forall (λ m, retries m = 0%Z) l → drain_outcome env api l w c w' t →
  (∀ ms, Sleep ms ∉ t) ∧ (∀ x, Emit "failed" x ∉ t).
Proof.
  intros Hall Hd.
  induction Hd as [|m0 l w c w1 t1 Hstop Hi|m0 l w w1 t1 c w2 t2 Hi Hd IH].
  - split; [by intros ms ?%elem_of_nil|by intros x ?%elem_of_nil].
  - apply Forall_cons in Hall as [Hr _]. by apply (item_fresh_record _ _ _ _ _ _ _ Hr Hi).
  - apply Forall_cons in Hall as [Hr Hall].
    destruct (item_fresh_record _ _ _ _ _ _ _ Hr Hi) as [H1 H2].
    destruct (IH Hall) as [IH1 IH2].
    split.
    + intros ms [?|?]%elem_of_app; [by eapply H1|by eapply IH1].
    + intros x [?|?]%elem_of_app; [by eapply H2|by eapply IH2].
Qed.

(** X10.  From a reachable ledger, a pass never waits and never gives a
    mutation up: its trace holds no timer and no [failed] event, whatever
    the backend answers.  The events it emits are named [enqueued],
    [flushed] or [conflict]; the listeners registered under any other
    name (for instance [discarded]) are not called. *)
Theorem pass_never_waits_nor_discards env api w :
  reachable w →
  (∀ ms, Sleep ms ∉ trace_of (flush env api w)) ∧
  (∀ ev x, Emit ev x ∈ trace_of (flush env api w) →
     ev ∈ ["enqueued"; "flushed"; "conflict"]) ∧
  (∀ ls : gmap string (list nat),
     ls !! "enqueued" = None → ls !! "flushed" = None → ls !! "conflict" = None →
     calls ls (trace_of (flush env api w)) = []).
Proof.
  intros Hreach. destruct (reachable_ledger _ Hreach) as [Hk Hz].
  assert ((∀ ms, Sleep ms ∉ trace_of (flush env api w)) ∧
          (∀ ev x, Emit ev x ∈ trace_of (flush env api w) →
             ev ∈ ["enqueued"; "flushed"; "conflict"])) as [H1 H2].
  { destruct (flushing w) eqn:Hf.
    { rewrite flush_busy by done. split; [by intros ms ?%elem_of_nil|].
      by intros ev x ?%elem_of_nil. }
    destruct (flush_pass env api w Hf) as (c & w' & t & Hd & ->).
    unfold trace_of. simpl.
    assert (Forall (λ m, retries m = 0%Z) (index_getAll (store w))) as Hall.
    { apply Forall_forall. intros m [k Hm]%elem_of_index_getAll. by apply (Hz _ _ Hm). }
    destruct (drain_fresh_records _ _ _ _ _ _ _ Hall Hd) as [Hs Hfl].
    split.
    - intros ms [?|?]%elem_of_cons; [done|by eapply Hs].
    - intros ev x [?|Hin]%elem_of_cons; [done|].
      pose proof (drain_emit_names _ _ _ _ _ _ _ _ _ Hd Hin) as Hn.
      rewrite !elem_of_cons, elem_of_nil in Hn. rewrite !elem_of_cons, elem_of_nil.
      destruct Hn as [?|[?|[?|[->|[]]]]]; auto.
      by apply Hfl in Hin. }
  split; [done|]. split; [done|].
  intros ls He Hfl Hc.
  induction (trace_of (flush env api w)) as [|e t IH]; [done|].
  assert (calls ls t = []) as IHt.
  { apply IH.
    - intros ms Hin. apply (H1 ms). by right.
    - intros ev x Hin. apply (H2 ev x). by right. }
  destruct e; simpl; try done. rewrite IHt, app_nil_r.
  specialize (H2 event payload ltac:(by left)).
  rewrite !elem_of_cons, elem_of_nil in H2. unfold emit_calls.
  destruct H2 as [->|[->|[->|[]]]]; by rewrite ?He, ?Hfl, ?Hc.
Qed.

Lemma pass_never_waits_nor_discards_witness :
  calls (on "discarded" 7 ∅) (trace_of (flush server_500 api_remote (world two_enqueued)))
    = [].
Proof.
  destruct (pass_never_waits_nor_discards server_500 api_remote (world two_enqueued))
    as (_ & _ & H).
  - exists []. exact two_enqueued_reachable.
  - apply H; reflexivity.
Defined.

(** ** Listeners *)

Lemma calls_emitted ls t :
  calls ls t = emitted t ≫= (λ ep, emit_calls ls ep.1 ep.2).
Proof.
  induction t as [|e t IH]; [done|].
  destruct e; simpl; try done. by rewrite IH.
Qed.

(** X11.  [on] appends: after [on(event, cb)], an [_emit] of that event
    calls the listeners registered before, in their order, and then [cb],
    each with the payload; the listeners of the other events are
    unaffected; registering the same callback twice makes it be called
    twice (there is no deduplication); an event without listeners calls
    nobody. *)
Theorem on_appends_listener event cb (ls : gmap string (list nat)) :
  (∀ d, emit_calls (on event cb ls) event d = emit_calls ls event d ++ [(cb, d)]) ∧
  (∀ event' d, event' ≠ event →
     emit_calls (on event cb ls) event' d = emit_calls ls event' d) ∧
  (∀ d, emit_calls (on event cb (on event cb ls)) event d
          = emit_calls ls event d ++ [(cb, d); (cb, d)]) ∧
  (∀ d, ls !! event = None → emit_calls ls event d = []).
Proof.
  unfold emit_calls, on. split; [|split; [|split]].
  - intros d. rewrite lookup_insert_eq. simpl. by rewrite fmap_app.
  - intros event' d Hne. by rewrite lookup_insert_ne.
  - intros d. rewrite !lookup_insert_eq. simpl.
    by rewrite !fmap_app, <- app_assoc.
  - intros d ->. done.
Qed.

Lemma on_appends_listener_witness :
  emit_calls (on "flushed" 2 (on "flushed" 1 ∅)) "flushed" create_task
    = [(1, create_task); (2, create_task)] ∧
  emit_calls (on "flushed" 1 ∅) "conflict" create_task = [].
Proof.
  destruct (on_appends_listener "flushed" 2 (on "flushed" 1 ∅)) as (H1 & H2 & _).
  split.
  - rewrite H1. reflexivity.
  - rewrite (proj1 (proj2 (on_appends_listener "flushed" 1 ∅))) by done. reflexivity.
Defined.

Lemma accepted_pass_emitted env api w :
  accepting env → isRemote api = true → replayable env api (store w) →
  reachable w → flushing w = false →
  emitted (trace_of (flush env api w)) = (λ m, ("flushed", m)) <$> index_getAll (store w).
Proof.
  intros Hacc Hrem Hval Hreach Hf.
  pose proof (reachable_attemptable env api w Hreach Hval) as Hall.
  destruct (flush_pass env api w Hf) as (c & w' & t & Hd & ->).
  by destruct (drain_accepted _ _ _ _ _ _ _ Hacc Hrem Hall Hd) as (_ & _ & He & _).
Qed.

(** X12.  When the backend accepts every request (and its URL resolves
    the stored paths), a listener registered for [flushed] is called
    exactly once for each pending mutation, oldest first, and a listener
    registered for [conflict] or [failed] is not called. *)
Theorem flushed_listener_called_in_order env api w cb :
  accepting env → isRemote api = true → replayable env api (store w) →
  reachable w → flushing w = false →
  calls (on "flushed" cb ∅) (trace_of (flush env api w))
    = (λ m, (cb, m)) <$> result_of (getAll w) ∧
  calls (on "conflict" cb ∅) (trace_of (flush env api w)) = [] ∧
  calls (on "failed" cb ∅) (trace_of (flush env api w)) = [].
Proof.
  intros Hacc Hrem Hval Hreach Hf.
  rewrite !calls_emitted, (accepted_pass_emitted env api w) by done.
  unfold result_of, getAll. simpl.
  split; [|split]; induction (index_getAll (store w)) as [|m l IH]; try done;
    rewrite fmap_cons, bind_cons; simpl; by rewrite IH.
Qed.

Lemma flushed_listener_called_in_order_witness :
  calls (on "flushed" 1 ∅) (trace_of (flush server_200 api_remote (world two_enqueued)))
    = [(1, mkMutation "k1" "POST" "/api/v1/tasks" (object "{title:x}")
                      "2026-01-01T00:00:00.000Z" 0);
       (1, mkMutation "k2" "PATCH" "/api/v1/tasks/7" (object "{status:done}")
                      "2026-01-01T00:00:01.000Z" 0)].
Proof.
  destruct (flushed_listener_called_in_order server_200 api_remote (world two_enqueued) 1)
    as [H _].
  - exact server_200_accepting.
  - reflexivity.
  - apply (bool_decide_unpack _). vm_compute. exact I.
  - exists []. exact two_enqueued_reachable.
  - reflexivity.
  - rewrite H. vm_compute. reflexivity.
Defined.

(** ** The resource methods of the client *)

(** X13.  Without a backend (local-only mode) the client is inert:
    every resource method returns the [localOnly] result without sending a
    request and without touching the ledger, and [_flush] does nothing.
    [_flush] does nothing either while the client is offline, and the
    [online] event runs exactly [flush] when a backend is configured. *)
Theorem client_gates env api w :
  (isRemote api = false →
     (∀ uuid c, api_call env api uuid c w =
                  (Fulfilled (mkResult false 0 None true false), w, [])) ∧
     _flush env api w = (Fulfilled tt, w, []) ∧
     (on_online env api).2 w = (Fulfilled tt, w, [])) ∧
  _flush env (on_offline api) w = (Fulfilled tt, w, []) ∧
  (isRemote api = true → (on_online env api).2 w = flush env (on_online env api).1 w).
Proof.
  split; [|split].
  - intros Hl. split; [|split].
    + intros uuid c. unfold api_call, _fetch. by rewrite Hl.
    + unfold _flush. by rewrite Hl.
    + unfold on_online, _flush, isRemote in *. simpl. by rewrite Hl.
  - unfold _flush, on_offline. simpl. by rewrite orb_true_r.
  - intros Hr. unfold on_online, _flush, isRemote in *. simpl. by rewrite Hr.
Qed.

Lemma client_gates_witness :
  api_call unreachable api_local "u1" (createTask (object "{title:x}")) (world two_enqueued)
    = (Fulfilled (mkResult false 0 None true false), world two_enqueued, []).
Proof.
  destruct (client_gates unreachable api_local (world two_enqueued)) as [H _].
  apply H. reflexivity.
Defined.

Lemma read_is_get uuid c :
  is_read c = true →
  (api_request uuid c).1.1 = "GET" ∧ opt_body (api_request uuid c).2 = None ∧
  opt_idempotencyKey (api_request uuid c).2 = "".
Proof. by destruct c. Qed.

Lemma write_is_keyed uuid c :
  is_read c = false →
  (api_request uuid c).1.1 ≠ "GET" ∧ opt_params (api_request uuid c).2 = None ∧
  opt_idempotencyKey (api_request uuid c).2 = uuid.
Proof. by destruct c. Qed.

(** X14.  The reading methods never write the ledger, whatever the
    network does: the store and the guard are as before, nothing is put,
    no [enqueue] is started and no event is emitted, so that awaiting the
    call adds nothing.  With a backend whose URL resolves the path they
    send exactly one request, a GET without body and without
    [Idempotency-Key] header; when [new URL] throws on the base URL, the
    call is rejected and no request is sent. *)
Theorem reads_never_enqueue env api uuid c w :
  is_read c = true →
  store (world_of (api_call env api uuid c w)) = store w ∧
  flushing (world_of (api_call env api uuid c w)) = flushing w ∧
  (∀ x, Put x ∉ trace_of (api_call env api uuid c w)) ∧
  (∀ ev x, Emit ev x ∉ trace_of (api_call env api uuid c w)) ∧
  started (trace_of (api_call env api uuid c w)) = [] ∧
  await env (api_call env api uuid c) w = api_call env api uuid c w ∧
  (isRemote api = true →
   valid_url env (api_request uuid c).1.2 (baseUrl api) = true →
     ∃ req out, trace_of (api_call env api uuid c w) = [Net req out] ∧
       req_method req = "GET" ∧ req_body req = None ∧
       ∀ v, ("Idempotency-Key", v) ∉ req_headers req) ∧
  (isRemote api = true →
   valid_url env (api_request uuid c).1.2 (baseUrl api) = false →
     api_call env api uuid c w = (Rejected, w, [])).
Proof.
  intros Hread. destruct (read_is_get uuid c Hread) as (Hv & Hb & Hk).
  unfold api_call.
  assert (∀ v, ("Idempotency-Key", v) ∉
            req_headers (build_request env api (api_request uuid c).1.1
                           (api_request uuid c).1.2 (api_request uuid c).2)) as Hnokey.
  { intros v. unfold build_request, build_headers. simpl. rewrite Hk. simpl.
    destruct (truthy (token env)); simpl;
      rewrite !elem_of_cons, elem_of_nil; intuition congruence. }
  assert (req_body (build_request env api (api_request uuid c).1.1
                      (api_request uuid c).1.2 (api_request uuid c).2) = None) as Hnobody.
  { unfold build_request. simpl. by rewrite Hb. }
  destruct (_fetch_run env api (api_request uuid c).1.1 (api_request uuid c).1.2
              (api_request uuid c).2 w)
    as [(s & w' & t & Heq & Hs & Hst & Hfl & Ho & Ht)|(_ & _ & _ & Hg & _)].
  2:{ rewrite Hv in Hg. discriminate Hg. }
  rewrite await_quiet by (by rewrite Heq).
  split; [by rewrite Heq|]. split; [by rewrite Heq|].
  split; [|split; [|split; [by rewrite Heq|split; [done|split]]]].
  - rewrite Heq. unfold trace_of. simpl. intros x.
    destruct Ht as [->| ->]; rewrite ?elem_of_cons, elem_of_nil; intuition congruence.
  - rewrite Heq. unfold trace_of. simpl. intros ev x.
    destruct Ht as [->| ->]; rewrite ?elem_of_cons, elem_of_nil; intuition congruence.
  - intros Hrem Hval. rewrite _fetch_remote by done. cbv zeta.
    assert (negb (String.eqb (api_request uuid c).1.1 "GET") &&
            truthy (opt_idempotencyKey (api_request uuid c).2) = false) as ->
      by (rewrite Hk; apply andb_false_r).
    unfold trace_of.
    destruct (respond env (tick w) _) as [st ct js|]; simpl;
      [destruct (json_typed ct && _)|]; simpl;
      eexists _, _; (split; [reflexivity|]);
      (split; [exact Hv|]); (split; [exact Hnobody|exact Hnokey]).
  - intros Hrem Hval. by apply _fetch_invalid.
Qed.

Lemma reads_never_enqueue_witness :
  store (world_of (api_call unreachable api_remote "u1" (getTask "7") (world two_enqueued)))
    = store (world two_enqueued) ∧
  api_call unreachable api_relative "u1" (getTask "7") (world two_enqueued)
    = (Rejected, world two_enqueued, []).
Proof.
  destruct (reads_never_enqueue unreachable api_remote "u1" (getTask "7")
              (world two_enqueued)) as [H _]; [reflexivity|].
  destruct (reads_never_enqueue unreachable api_relative "u1" (getTask "7")
              (world two_enqueued)) as (_ & _ & _ & _ & _ & _ & _ & H'); [reflexivity|].
  split; [exact H|]. apply H'; reflexivity.
Defined.

(** X15.  A writing method whose request fails on the network is
    queued under the key generated for the call (when that key is not
    empty), with the method, path and body of the call and [retries = 0]:
    the call returns the offline result, and the caller that awaits it
    finds the record in the store.  The request that a later pass builds
    from the stored record is the very request that failed,
    [Idempotency-Key] header included, as long as the token is the
    same. *)
Theorem failed_write_is_replayed_verbatim env api uuid c w :
  is_read c = false → uuid ≠ "" → isRemote api = true →
  valid_url env (api_request uuid c).1.2 (baseUrl api) = true →
  net_failed (respond env (tick w)
    (build_request env api (api_request uuid c).1.1 (api_request uuid c).1.2
       (api_request uuid c).2)) = true →
  result_of (api_call env api uuid c w) = Fulfilled (mkResult false 0 None false true) ∧
  store (world_of (api_call env api uuid c w)) = store w ∧
  ∃ r, store (world_of (await env (api_call env api uuid c) w)) !! uuid = Some r ∧
       idempotencyKey r = uuid ∧ retries r = 0%Z ∧
       method r = (api_request uuid c).1.1 ∧ path r = (api_request uuid c).1.2 ∧
       body r = opt_body (api_request uuid c).2 ∧
       (∀ k, k ≠ uuid →
          store (world_of (await env (api_call env api uuid c) w)) !! k = store w !! k) ∧
       ∀ env', token env' = token env →
         build_request env' api (method r) (path r)
           (mkOpts (body r) None (idempotencyKey r))
         = build_request env api (api_request uuid c).1.1 (api_request uuid c).1.2
             (api_request uuid c).2.
Proof.
  intros Hw Hu Hrem Hval Hfail. destruct (write_is_keyed uuid c Hw) as (Hv & Hp & Hk).
  unfold api_call.
  destruct (await_failed_write env api (api_request uuid c).1.1 (api_request uuid c).1.2
              (api_request uuid c).2 w) as [-> ->]; try done.
  { by rewrite Hk. }
  unfold world_of, result_of. simpl. split; [done|]. split; [done|].
  eexists. rewrite Hk, lookup_insert_eq. split; [reflexivity|]. simpl.
  split; [done|]. split; [done|]. split; [done|]. split; [done|]. split; [done|].
  split; [by intros k Hne; rewrite lookup_insert_ne|].
  intros env' Ht.
  unfold build_request, build_headers, build_url. simpl.
  rewrite Ht, Hp, Hk. done.
Qed.

Lemma failed_write_is_replayed_verbatim_witness :
  result_of (api_call unreachable api_remote "u1" (createTask (object "{title:x}")) init)
    = Fulfilled (mkResult false 0 None false true).
Proof.
  apply (failed_write_is_replayed_verbatim unreachable api_remote "u1"
           (createTask (object "{title:x}")) init); done.
Defined.

(** ** Query parameters and headers *)

Lemma searchParams_set_fresh k v q :
  k ∉ q.*1 → searchParams_set k v q = q ++ [(k, v)].
Proof.
  induction q as [|[k' v'] q IH]; intros Hk; [done|].
  rewrite fmap_cons, not_elem_of_cons in Hk. destruct Hk as [Hne Hk]. simpl in *.
  destruct (String.eqb_spec k' k) as [->|_]; [done|]. by rewrite IH.
Qed.

Lemma search_of_params (params : list (string * option string)) acc :
  NoDup (acc.*1 ++ params.*1) →
  foldl (λ q kv, match kv.2 with
                 | Some v => searchParams_set kv.1 v q
                 | None => q
                 end) acc params
  = acc ++ omap (λ kv, (λ v, (kv.1, v)) <$> kv.2) params.
Proof.
  revert acc. induction params as [|[k [v|]] params IH]; intros acc Hnd; simpl.
  - by rewrite app_nil_r.
  - rewrite searchParams_set_fresh.
    + rewrite IH; [by rewrite <- app_assoc|].
      rewrite fmap_app. simpl. by rewrite <- app_assoc.
    + apply NoDup_app in Hnd as (_ & Hdis & _). intros Hin.
      apply (Hdis _ Hin). by left.
  - apply IH. apply NoDup_app in Hnd as (H1 & Hdis & H2).
    apply NoDup_cons in H2 as [_ H2]. apply NoDup_app. split; [done|].
    split; [|done]. intros x Hx Hx'. apply (Hdis x Hx). by right.
Qed.

(** X16.  The query string of [getTasks] and [getActivity]: the filters
    whose value is [undefined] or [null] are left out, the others are
    passed with their values, in the order of the object's entries (whose
    names are distinct). *)
Theorem filters_become_query api target (filters : list (string * option string)) :
  NoDup filters.*1 →
  url_search (build_url api target (mkOpts None (Some filters) ""))
    = omap (λ kv, (λ v, (kv.1, v)) <$> kv.2) filters.
Proof.
  intros Hnd. unfold build_url. simpl. by rewrite (search_of_params filters []).
Qed.

Lemma filters_become_query_witness :
  url_search (build_url api_remote "/api/v1/tasks"
    (mkOpts None (Some [("status", Some "todo"); ("project", None); ("tag", Some "x")]) ""))
  = [("status", "todo"); ("tag", "x")].
Proof.
  rewrite filters_become_query; [reflexivity|].
  apply (bool_decide_unpack _). vm_compute. exact I.
Defined.

(** X17.  The bearer token travels with every request: after
    [setToken(t)] with a non-empty [t], each request [_fetch] builds has
    the header [Authorization: Bearer t]; after [clearToken()], none has an
    [Authorization] header. *)
Theorem bearer_token_header env api verb target opts (storage : gmap string string) t :
  (t ≠ "" → token env = token_of (setToken t storage) →
     ("Authorization", "Bearer " +:+ t)
       ∈ req_headers (build_request env api verb target opts)) ∧
  (token env = token_of (clearToken storage) →
     ∀ v, ("Authorization", v) ∉ req_headers (build_request env api verb target opts)).
Proof.
  unfold token_of, getToken, setToken, clearToken, build_request, build_headers. simpl.
  split.
  - intros Ht ->. rewrite lookup_insert_eq. simpl.
    apply truthy_spec in Ht. rewrite Ht. apply elem_of_cons. right. by left.
  - intros -> v. rewrite lookup_delete_ne by done. rewrite lookup_delete_eq. simpl.
    destruct (truthy (opt_idempotencyKey opts)); simpl;
      rewrite !elem_of_cons, elem_of_nil; intuition congruence.
Qed.

Lemma bearer_token_header_witness :
  ("Authorization", "Bearer secret")
    ∈ req_headers (build_request unreachable api_remote "GET" "/api/v1/agents"
                     (mkOpts None None "")).
Proof.
  apply (bearer_token_header unreachable api_remote "GET" "/api/v1/agents"
           (mkOpts None None "") ∅ "secret"); done.
Defined.

(** ** Permissions ([auth.js]) *)

Lemma isOwner_spec (storage : gmap string string) :
  isOwner storage = true ↔ getRole storage = "owner".
Proof. unfold isOwner. by destruct (String.eqb_spec (getRole storage) "owner"). Qed.

Lemma has_spec s x : has s x = true ↔ x ∈ s.
Proof. unfold has. apply bool_decide_eq_true. Qed.

(** [canTransitionTo] allows a status change exactly when the role is
    [owner], or the new status is not [done] and the task is not a blocked
    one headed for [in_progress]. *)
Lemma canTransitionTo_spec newStatus task (storage : gmap string string) :
  canTransitionTo newStatus task storage = true ↔
  getRole storage = "owner" ∨
  (newStatus ≠ "done" ∧ ¬ (newStatus = "in_progress" ∧ isBlocked task = true)).
Proof.
  unfold canTransitionTo. rewrite <- isOwner_spec.
  destruct (isOwner storage); [by split; auto|].
  destruct (String.eqb_spec newStatus "done") as [->|Hd].
  { split; [done|]. intros [?|[? _]]; done. }
  destruct (String.eqb_spec newStatus "in_progress") as [->|Hp]; simpl.
  - destruct (isBlocked task).
    + split; [done|]. intros [?|[_ H]]; [done|]. by destruct H.
    + split; [|done]. intros _. right. split; [done|]. by intros [_ ?].
  - split; [|done]. intros _. right. split; [done|]. by intros [? _].
Qed.

(** X18.  The drop handler of the board moves the task exactly when it
    is not a blocked task dropped on [in_progress] and the role is [owner]
    or the column is not [done].  A blocked task dropped on [in_progress]
    is refused for every role, the owner included; the permission refusal
    is left for the non-owner who drops on [done]. *)
Theorem onEnd_spec task newStatus (storage : gmap string string) :
  (onEnd (Some task) newStatus storage = Moved ↔
     ¬ (newStatus = "in_progress" ∧ isBlocked task = true) ∧
     (getRole storage = "owner" ∨ newStatus ≠ "done")) ∧
  (onEnd (Some task) newStatus storage = RefusedBlocked ↔
     newStatus = "in_progress" ∧ isBlocked task = true) ∧
  (onEnd (Some task) newStatus storage = RefusedPermission ↔
     getRole storage ≠ "owner" ∧ newStatus = "done") ∧
  onEnd None newStatus storage = Ignored.
Proof.
  unfold onEnd, canTransitionTo. rewrite <- isOwner_spec.
  destruct (isBlocked task), (isOwner storage);
    destruct (String.eqb_spec newStatus "in_progress") as [->|?]; simpl;
    try destruct (String.eqb_spec newStatus "done") as [->|?]; simpl;
    repeat split; intros; subst; try done;
    intuition (try done; try congruence).
Qed.

Lemma onEnd_spec_witness :
  onEnd (Some (mkTask Null true)) "in_progress" ∅ = RefusedBlocked.
Proof.
  destruct (onEnd_spec (mkTask Null true) "in_progress" ∅) as (_ & H & _).
  apply H. split; reflexivity.
Defined.

(** X19.  [canPerformAction] and [canEditField]: the owner may do
    everything; any other role may perform an action exactly when it is
    not one of the six blocked actions and, for [task.update] with a task
    in the context, the task's [assignedTo] is strictly equal to the
    stored agent name; and may edit every field except
    [revenuePotential] and [deletedAt]. *)
Theorem agent_restrictions action task fieldName (storage : gmap string string) :
  (canPerformAction action task storage = true ↔
     getRole storage = "owner" ∨
     ((action ∉ AGENT_BLOCKED_ACTIONS) ∧
      ∀ t, task = Some t → action = "task.update" →
           strict_ne (assignedTo t) (storage !! "mc4_agent_name") = false)) ∧
  (canEditField fieldName storage = true ↔
     getRole storage = "owner" ∨ fieldName ∉ AGENT_BLOCKED_FIELDS).
Proof.
  unfold canPerformAction, canEditField. rewrite <- isOwner_spec.
  destruct (isOwner storage); [by split; split; auto|].
  split.
  - destruct (has AGENT_BLOCKED_ACTIONS action) eqn:Hb.
    { apply has_spec in Hb. split; [done|]. by intros [?|[? _]]. }
    assert (action ∉ AGENT_BLOCKED_ACTIONS) as Hnb.
    { intros Hin%has_spec. congruence. }
    destruct task as [t|].
    + destruct (String.eqb_spec action "task.update") as [->|Hu].
      * rewrite negb_true_iff. split.
        -- intros H. right. split; [done|]. by intros t' [= <-] _.
        -- intros [?|[_ H]]; [done|]. by apply H.
      * split; [|done]. intros _. right. split; [done|]. by intros t' _ ?.
    + split; [|done]. intros _. right. split; [done|]. by intros t' ?.
  - rewrite negb_true_iff. split.
    + intros H. right. intros Hin%has_spec. congruence.
    + intros [?|Hn]; [done|]. destruct (has AGENT_BLOCKED_FIELDS fieldName) eqn:Hb; [|done].
      by apply has_spec in Hb.
Qed.

Lemma agent_restrictions_witness :
  canEditField "title" (setRole "agent" ∅) = true.
Proof.
  destruct (agent_restrictions "task.create" None "title" (setRole "agent" ∅)) as [_ H].
  apply H. right. apply (bool_decide_unpack _). vm_compute. exact I.
Defined.

(** X20.  Strict comparison in [canPerformAction]: for a role other
    than [owner], [task.update] on a task whose [assignedTo] is [null] is
    allowed when no agent name is stored ([null !== null] is false), is
    refused when [assignedTo] is [undefined], and for a string is allowed
    exactly when it is the stored agent name. *)
Theorem task_update_assignment b (storage : gmap string string) :
  getRole storage ≠ "owner" →
  (canPerformAction "task.update" (Some (mkTask Null b)) storage = true ↔
     storage !! "mc4_agent_name" = None) ∧
  canPerformAction "task.update" (Some (mkTask Undefined b)) storage = false ∧
  (∀ a, canPerformAction "task.update" (Some (mkTask (Str a) b)) storage = true ↔
     storage !! "mc4_agent_name" = Some a).
Proof.
  intros Hno. unfold canPerformAction.
  assert (isOwner storage = false) as ->.
  { destruct (isOwner storage) eqn:Ho; [|done]. by apply isOwner_spec in Ho. }
  simpl. split; [|split].
  - by destruct (storage !! "mc4_agent_name").
  - by destruct (storage !! "mc4_agent_name").
  - intros a. destruct (storage !! "mc4_agent_name") as [n|]; simpl; [|done].
    rewrite negb_involutive. destruct (String.eqb_spec a n); split; congruence.
Qed.

Lemma task_update_assignment_witness :
  canPerformAction "task.update" (Some (mkTask Null false)) (setRole "agent" ∅) = true.
Proof.
  apply (task_update_assignment false (setRole "agent" ∅)); [|reflexivity].
  vm_compute. discriminate.
Defined.

(** X21.  [clearToken] removes the role together with the token, and a
    missing role reads as [owner]: after [clearToken] nobody is
    authenticated and every permission check passes, whatever role was
    stored before. *)
Theorem clearToken_resets_role (storage : gmap string string) :
  getToken (clearToken storage) = None ∧
  isAuthenticated (clearToken storage) = false ∧
  getRole (clearToken storage) = "owner" ∧
  (∀ action task, canPerformAction action task (clearToken storage) = true) ∧
  (∀ fieldName, canEditField fieldName (clearToken storage) = true) ∧
  (∀ newStatus task, canTransitionTo newStatus task (clearToken storage) = true).
Proof.
  assert (getToken (clearToken storage) = None) as Ht.
  { unfold getToken, clearToken. rewrite lookup_delete_ne by done. apply lookup_delete_eq. }
  assert (getRole (clearToken storage) = "owner") as Hr.
  { unfold getRole, clearToken. by rewrite lookup_delete_eq. }
  assert (isOwner (clearToken storage) = true) as Ho by by apply isOwner_spec.
  split; [done|]. split; [by unfold isAuthenticated; rewrite Ht|]. split; [done|].
  unfold canPerformAction, canEditField, canTransitionTo. by rewrite Ho.
Qed.

(** X22.  Saving the connection settings: the URL and the token are
    trimmed first.  The client takes the trimmed URL and a client
    constructed later from the storage finds it again; the token is the
    trimmed one, or none when nothing is left of the field, and then the
    stored role is removed with it; the role is the one selected, or, when
    none is, the former role if a token was entered and [owner] if not. *)
Theorem save_connection_round_trip url tok role api (storage : gmap string string) onLine :
  baseUrl (save_connection url tok role api storage).1 = trim url ∧
  online (save_connection url tok role api storage).1 = online api ∧
  new_ApiClient (save_connection url tok role api storage).2 onLine
    = mkApi (trim url) onLine ∧
  getToken (save_connection url tok role api storage).2
    = (if truthy (trim tok) then Some (trim tok) else None) ∧
  getRole (save_connection url tok role api storage).2
    = (if truthy role then role
       else if truthy (trim tok) then getRole storage else "owner").
Proof.
  unfold save_connection.
  generalize (trim url) as u. generalize (trim tok) as t. intros t u.
  assert (∀ s : gmap string string,
            match <["mc4_api_url" := u]> s !! "mc4_api_url" with
            | Some v => if truthy v then v else ""
            | None => ""
            end = u) as Hurl.
  { intros s. rewrite lookup_insert_eq. destruct (truthy u) eqn:Hu; [done|].
    unfold truthy in Hu. apply negb_false_iff in Hu.
    by destruct (String.eqb_spec u ""). }
  unfold setBaseUrl, new_ApiClient, getToken, getRole,
    setToken, clearToken, setRole, TOKEN_KEY, ROLE_KEY. simpl.
  split; [done|]. split; [done|].
  destruct (truthy t) eqn:Ht, (truthy role) eqn:Hr; simpl.
  - rewrite !lookup_insert_eq, Hr.
    rewrite !(lookup_insert_ne _ _ "mc4_api_url"), Hurl by done.
    by rewrite lookup_insert_ne, lookup_insert_eq by done.
  - rewrite !lookup_insert_eq.
    rewrite !(lookup_insert_ne _ _ "mc4_api_url"), Hurl by done.
    by rewrite !(lookup_insert_ne _ _ "mc4_auth_role") by done.
  - rewrite !lookup_insert_eq, Hr.
    rewrite !(lookup_insert_ne _ _ "mc4_api_url") by done.
    rewrite !(lookup_delete_ne _ _ "mc4_api_url"), Hurl by done.
    rewrite (lookup_insert_ne _ _ "mc4_auth_token") by done.
    by rewrite (lookup_delete_ne _ _ "mc4_auth_token"), lookup_delete_eq by done.
  - rewrite !lookup_delete_eq.
    rewrite !(lookup_delete_ne _ _ "mc4_api_url"), Hurl by done.
    by rewrite (lookup_delete_ne _ _ "mc4_auth_token"), lookup_delete_eq by done.
Qed.

(** The handler at a sample input: blanks around the URL are dropped,
    and a token field that holds only blanks clears the token and the
    role. *)
Example save_connection_trims :
  let saved := save_connection "  https://mc.example " "   " ""
                 api_local (setRole "agent" (setToken "secret" ∅)) in
  baseUrl saved.1 = "https://mc.example" ∧
  getToken saved.2 = None ∧
  getRole saved.2 = "owner".
Proof. vm_compute. repeat split. Qed.
